(** * KD Strategy B: indicator engine, crossing detector and signal state machine

    A shallow embedding of [kd_strategyB.py]: the recursive %K/%D
    computation ([compute_kd_recursive]), the crossing predicates
    ([crossed_up], [crossed_down]), the completion policy, the state store
    ([load_state], [save_state]) and the per-symbol evaluation
    ([process_symbol]).

    Also embedded: the loop of [main] over the subscribed symbols, the
    inversion of the subscriptions ([all_symbols_to_subscribers] of
    [subscriptions.py]) and the retry loop of [line_push.py] ([_post],
    [push_text]); a request that raises is not modelled.

    Conventions of the embedding.
    - A Python float is a [pyfloat]: [Some q] for a finite value, [None]
      for NaN.  Arithmetic is exact over the rationals, rounding is not
      modelled; a comparison with NaN is false and an operation on NaN is
      NaN, as in IEEE 754.
    - The in-memory [state] dict, the files this module reads and writes
      and the calls of [send_to] are threaded explicitly through a
      [World]; the cache directory of [institutions.py] is not followed.
    - Exceptions are values of [Exc]; [try ... except Exception] is
      [try_except].
    - The pandas calls are embedded by what they compute:
      [rolling(n, min_periods=n)] by [rolling], [ewm(alpha, adjust=False)]
      by the accumulator loop [ewm_mean], [dropna] by a filter.  Printing
      is not modelled. *)

From Stdlib Require Import QArith Lqa.
From stdpp Require Import gmap strings list fin_maps pretty sorting.

(** ** Python floats *)

Abbreviation pyfloat := (option Q).

Definition Qlt_bool (x y : Q) : bool := negb (Qle_bool y x).

(** [a <= b], [a < b], [a >= b], [a > b] on floats. *)
Definition f_le (a b : pyfloat) : bool :=
  match a, b with
  | Some x, Some y => Qle_bool x y
  | _, _ => false
  end.

Definition f_lt (a b : pyfloat) : bool :=
  match a, b with
  | Some x, Some y => Qlt_bool x y
  | _, _ => false
  end.

Definition f_ge (a b : pyfloat) : bool := f_le b a.
Definition f_gt (a b : pyfloat) : bool := f_lt b a.

Definition isnan (a : pyfloat) : bool :=
  match a with
  | Some _ => false
  | None => true
  end.

Definition f_sub (a b : pyfloat) : pyfloat :=
  match a, b with
  | Some x, Some y => Some (x - y)%Q
  | _, _ => None
  end.

Definition f_mul (a b : pyfloat) : pyfloat :=
  match a, b with
  | Some x, Some y => Some (x * y)%Q
  | _, _ => None
  end.

(** Division is only ever applied to a denominator whose zeros were
    replaced by NaN; a zero denominator (an infinity in numpy) is outside
    the modelled values and given as NaN. *)
Definition f_div (a b : pyfloat) : pyfloat :=
  match a, b with
  | Some x, Some y => if Qeq_bool y 0 then None else Some (x / y)%Q
  | _, _ => None
  end.

(** [Series.replace(0, np.nan)] at one cell. *)
Definition replace_zero_nan (a : pyfloat) : pyfloat :=
  match a with
  | Some x => if Qeq_bool x 0 then None else Some x
  | None => None
  end.

(** ** Exceptions *)

Inductive PyExc : Type :=
  | ValueError (msg : string)
  | RuntimeError (msg : string)
  | IndexError
  | OSError
  | JSONDecodeError.

Inductive Exc (A : Type) : Type :=
  | Ret (a : A)
  | Raise (e : PyExc).
Arguments Ret {A} a.
Arguments Raise {A} e.

#[export] Instance Exc_ret : MRet Exc := λ A a, Ret a.
#[export] Instance Exc_bind : MBind Exc := λ A B f m,
  match m with
  | Ret a => f a
  | Raise e => Raise e
  end.

(** [try: body / except Exception: handler]; every [PyExc] is a subclass
    of [Exception]. *)
Definition try_except {A : Type} (body : Exc A) (handler : Exc A) : Exc A :=
  match body with
  | Ret a => Ret a
  | Raise _ => handler
  end.

(** ** Tunables *)

Record Config : Type := mkConfig {
  K_PERIOD : nat;
  ALPHA : Q;
  DAILY_MA : nat;
  WEEKLY_MA : nat;
  STATE_FILE : string
}.

(** The defaults of the environment lookups. *)
Definition default_config : Config :=
  {| K_PERIOD := 9;
     ALPHA := 3333333333 # 10000000000;
     DAILY_MA := 20;
     WEEKLY_MA := 20;
     STATE_FILE := "kd_b_state.json" |}.

(** ** Crossing detector *)

Definition crossed_up (k_prev d_prev k d : pyfloat) : bool :=
  f_le k_prev d_prev && f_gt k d.

Definition crossed_down (k_prev d_prev k d : pyfloat) : bool :=
  f_ge k_prev d_prev && f_lt k d.

(** ** Rolling windows *)

Definition qmin (x y : Q) : Q := if Qle_bool x y then x else y.
Definition qmax (x y : Q) : Q := if Qle_bool x y then y else x.

(** The cells [i-n+1 .. i] of a series, for [n <= i+1]. *)
Definition window (n : nat) (xs : list pyfloat) (i : nat) : list pyfloat :=
  take n (drop (i + 1 - n) xs).

(** All cells of a window as numbers, or [None] when one is NaN. *)
Definition observed (ws : list pyfloat) : option (list Q) := mapM id ws.

(** [xs.rolling(window=n, min_periods=n).agg()] at position [i]: NaN
    until [n] cells are there and while one of the [n] cells is NaN.  A
    window of length 0 is not used by the program and given as NaN. *)
Definition rolling_at (agg : list Q → pyfloat) (n : nat)
    (xs : list pyfloat) (i : nat) : pyfloat :=
  if bool_decide (0 < n ∧ n ≤ i + 1)
  then ws ← observed (window n xs i); agg ws
  else None.

Definition rolling (agg : list Q → pyfloat) (n : nat)
    (xs : list pyfloat) : list pyfloat :=
  map (rolling_at agg n xs) (seq 0 (length xs)).

Definition agg_min (ws : list Q) : pyfloat :=
  match ws with
  | [] => None
  | w :: ws' => Some (foldl qmin w ws')
  end.

Definition agg_max (ws : list Q) : pyfloat :=
  match ws with
  | [] => None
  | w :: ws' => Some (foldl qmax w ws')
  end.

Definition agg_mean (ws : list Q) : pyfloat :=
  match ws with
  | [] => None
  | _ => Some (foldr Qplus 0%Q ws / inject_Z (Z.of_nat (length ws)))%Q
  end.

(** [ma(series, n)]: [series.rolling(n, min_periods=n).mean()]. *)
Definition ma (series : list pyfloat) (n : nat) : list pyfloat :=
  rolling agg_mean n series.

(** ** The recursive mean [ewm(alpha=alpha, adjust=False).mean()]

    The accumulator of the pandas loop: the running mean [weighted], the
    weight [old_wt] of the history and the number [nobs] of observations
    seen.  [ignore_na] is false and [min_periods] is 1.  pandas turns
    [alpha] into the centre of mass [com = (1 - alpha) / alpha]; with
    [adjust=False] and [com == 1] (that is [alpha] one half) its loop
    weighs a new observation by [1 - old_wt] instead of [alpha]. *)

Record EwmAcc : Type := mkEwmAcc {
  weighted : pyfloat;
  old_wt : Q;
  nobs : nat
}.

Definition ewm_init (v0 : pyfloat) : EwmAcc :=
  {| weighted := v0; old_wt := 1; nobs := if isnan v0 then 0 else 1 |}.

Definition ewm_out (acc : EwmAcc) : pyfloat :=
  if bool_decide (1 ≤ nobs acc) then weighted acc else None.

Definition ewm_step (alpha : Q) (acc : EwmAcc) (cur : pyfloat) : EwmAcc :=
  let com := ((1 - alpha) / alpha)%Q in
  let old_wt_factor := (1 - alpha)%Q in
  let nobs' := (nobs acc + (if isnan cur then 0 else 1))%nat in
  match weighted acc with
  | Some w =>
      let ow := (old_wt acc * old_wt_factor)%Q in
      match cur with
      | Some c =>
          let new_wt := if Qeq_bool com 1 then (1 - ow)%Q else alpha in
          let w' := if Qeq_bool w c then w
                    else ((ow * w + new_wt * c) / (ow + new_wt))%Q in
          {| weighted := Some w'; old_wt := 1; nobs := nobs' |}
      | None => {| weighted := Some w; old_wt := ow; nobs := nobs' |}
      end
  | None =>
      match cur with
      | Some c => {| weighted := Some c; old_wt := old_wt acc; nobs := nobs' |}
      | None => {| weighted := None; old_wt := old_wt acc; nobs := nobs' |}
      end
  end.

Fixpoint ewm_loop (alpha : Q) (acc : EwmAcc) (vals : list pyfloat)
    : list pyfloat :=
  match vals with
  | [] => []
  | cur :: rest =>
      let acc' := ewm_step alpha acc cur in
      ewm_out acc' :: ewm_loop alpha acc' rest
  end.

Definition ewm_values (alpha : Q) (vals : list pyfloat) : list pyfloat :=
  match vals with
  | [] => []
  | v0 :: rest => ewm_out (ewm_init v0) :: ewm_loop alpha (ewm_init v0) rest
  end.

(** pandas refuses a smoothing factor outside (0, 1]. *)
Definition ewm_mean (alpha : Q) (vals : list pyfloat) : Exc (list pyfloat) :=
  if Qlt_bool 0 alpha && Qle_bool alpha 1
  then Ret (ewm_values alpha vals)
  else Raise (ValueError "alpha must satisfy: 0 < alpha <= 1").

(** *** Reading the loop position by position *)

(** The accumulator after the cell at position [i]. *)
Definition ewm_acc (alpha : Q) (vals : list pyfloat) (i : nat) : EwmAcc :=
  match vals with
  | [] => ewm_init None
  | v0 :: rest => foldl (ewm_step alpha) (ewm_init v0) (take i rest)
  end.

(** No observation yet means: no running mean, weight still 1. *)
Definition acc_ok (acc : EwmAcc) : Prop :=
  match weighted acc with
  | Some _ => 1 ≤ nobs acc
  | None => nobs acc = 0 ∧ old_wt acc = 1%Q
  end.

(** Weight of the history after [g] cells without an observation. *)
Fixpoint qpow (q : Q) (g : nat) : Q :=
  match g with
  | 0 => 1%Q
  | S g' => (qpow q g' * q)%Q
  end.

(** Weight of the observation that follows [g] cells without one. *)
Definition resume_wt (alpha : Q) (g : nat) : Q :=
  if Qeq_bool alpha (1 # 2) then (1 - qpow (1 - alpha) (S g))%Q else alpha.


(** ** Bars and indicator rows *)

(** What the program reads off a pandas [Timestamp] of a (timezone-naive)
    daily or weekly index. *)
Class Calendar (Timestamp : Type) : Type := {
  (** [ts.date()], as an ISO date *)
  ts_date : Timestamp → string;
  (** [str(ts)] *)
  ts_str : Timestamp → string;
  (** [ts.tz_localize("UTC").tz_convert(TZ_NAME).strftime("%Y-%m-%d")] *)
  ts_day_tz : Timestamp → string
}.

(** One row of a normalised OHLC frame: the index label and the three
    columns the engine requires. *)
Record Bar (Timestamp : Type) : Type := mkBar {
  idx : Timestamp;
  High : pyfloat;
  Low : pyfloat;
  Close : pyfloat
}.
Arguments mkBar {Timestamp} idx High Low Close.
Arguments idx {Timestamp} _.
Arguments High {Timestamp} _.
Arguments Low {Timestamp} _.
Arguments Close {Timestamp} _.

(** A row of the frame returned by [compute_kd_recursive]. *)
Record KDRow (Timestamp : Type) : Type := mkKDRow {
  bar : Bar Timestamp;
  K : pyfloat;
  D : pyfloat
}.
Arguments mkKDRow {Timestamp} bar K D.
Arguments bar {Timestamp} _.
Arguments K {Timestamp} _.
Arguments D {Timestamp} _.

(** ** State store *)

(** One symbol's slice of the state: a JSON object whose keys may be
    absent. *)
Record SymState : Type := mkSymState {
  position : option string;
  alerts : option (gmap string bool);
  last_entry : option string
}.

(** The default of [state.get(sym, {"position": "flat", "alerts": {}})]. *)
Definition fresh_sym_state : SymState :=
  {| position := Some "flat"; alerts := Some ∅; last_entry := None |}.

(** What [json.load] can return: the symbol mapping or some other JSON
    value. *)
Inductive PyObj : Type :=
  | PyDict (st : gmap string SymState)
  | PyOther (repr : string).

Class JsonCodec : Type := {
  json_dump : gmap string SymState → string;
  json_load : string → Exc PyObj
}.

Inductive File : Type :=
  | Text (s : string)
  | Unreadable.

Inductive Rule : Type := Entry | Reduce | Exit.

#[export] Instance Rule_eq_dec : EqDecision Rule.
Proof. solve_decision. Defined.

Section Engine.
Context {Timestamp : Type} `{!Calendar Timestamp} `{!JsonCodec}.

(** *** Indicators *)

Definition lowest_n (df : list (Bar Timestamp)) (n : nat) : list pyfloat :=
  rolling agg_min n (map Low df).

Definition highest_n (df : list (Bar Timestamp)) (n : nat) : list pyfloat :=
  rolling agg_max n (map High df).

Definition denom (df : list (Bar Timestamp)) (n : nat) : list pyfloat :=
  map replace_zero_nan (zip_with f_sub (highest_n df n) (lowest_n df n)).

Definition rsv (df : list (Bar Timestamp)) (n : nat) : list pyfloat :=
  zip_with f_div
    (map (f_mul (Some 100%Q)) (zip_with f_sub (map Close df) (lowest_n df n)))
    (denom df n).

Definition compute_kd_recursive (df : list (Bar Timestamp)) (n : nat)
    (alpha : Q) : Exc (list (KDRow Timestamp)) :=
  Ks ← ewm_mean alpha (rsv df n);
  Ds ← ewm_mean alpha Ks;
  mret (zip_with (λ b kd, mkKDRow b kd.1 kd.2) df (zip Ks Ds)).

(** [.dropna(subset=["K","D"])] *)
Definition dropna (rows : list (KDRow Timestamp)) : list (KDRow Timestamp) :=
  filter (λ r, isnan (K r) = false ∧ isnan (D r) = false) rows.

(** *** Completion policy *)

Record LocalNow : Type := mkLocalNow {
  now_date : string;
  now_hour : nat;
  now_minute : nat
}.

Definition last_completed_daily (local_now : LocalNow)
    (df : list (Bar Timestamp)) : list (Bar Timestamp) :=
  match last df with
  | None => df
  | Some b =>
      if bool_decide (ts_date (idx b) = now_date local_now)
         && ((now_hour local_now <? 13)
             || ((now_hour local_now =? 13) && (now_minute local_now <? 35)))
      then take (length df - 1) df
      else df
  end.

Definition weekly_completed_row (df_w : list (KDRow Timestamp))
    : option (KDRow Timestamp) :=
  if bool_decide (length df_w < 2) then None
  else df_w !! (length df_w - 2).

(** *** Files *)

Definition open_read (fs : gmap string File) (path : string) : Exc string :=
  match fs !! path with
  | Some (Text s) => Ret s
  | _ => Raise OSError
  end.

Definition os_replace (src dst : string) (fs : gmap string File)
    : gmap string File :=
  match fs !! src with
  | Some f => <[dst := f]> (delete src fs)
  | None => fs
  end.

Definition load_state (cfg : Config) (fs : gmap string File) : Exc PyObj :=
  if bool_decide (is_Some (fs !! STATE_FILE cfg))
  then try_except
         (txt ← open_read fs (STATE_FILE cfg); json_load txt)
         (Ret (PyDict ∅))
  else Ret (PyDict ∅).

(** Writing is taken to succeed. *)
Definition save_state (cfg : Config) (state : gmap string SymState)
    (fs : gmap string File) : gmap string File :=
  let tmp := STATE_FILE cfg +:+ ".tmp" in
  os_replace tmp (STATE_FILE cfg) (<[tmp := Text (json_dump state)]> fs).
End Engine.

(** ** Per-symbol evaluation *)

Section Machine.
Context {Timestamp : Type} `{!Calendar Timestamp} `{!JsonCodec}.

(** What one invocation obtains from its collaborators: the two
    downloads ([yf.download], already deduplicated and with normalised
    columns), the wall clock in the trading timezone and the line of
    the institutions block of lines 264-271 (empty when disabled or
    failed).  That block is a collaborator: what [get_institutions]
    reads and writes under its directory [cache] is not followed. *)
Record Feed : Type := mkFeed {
  dl_daily : Exc (list (Bar Timestamp));
  dl_weekly : Exc (list (Bar Timestamp));
  local_now : LocalNow;
  inst_line : string
}.

Definition fetch_ohlc (feed : Feed) (interval : string)
    : Exc (list (Bar Timestamp)) :=
  df ← (if bool_decide (interval = "1d") then dl_daily feed
        else if bool_decide (interval = "1wk") then dl_weekly feed
        else Raise (ValueError "interval must be '1d' or '1wk'"));
  match df with
  | [] => Raise (RuntimeError "no data")
  | _ => Ret df
  end.

(** The values read off the two frames (lines 242-257). *)
Record Signals : Type := mkSignals {
  k_prev : pyfloat;
  dprev_prev : pyfloat;
  k_last : pyfloat;
  d_last_d : pyfloat;
  d_close : pyfloat;
  d_ma20 : pyfloat;
  d_ts : Timestamp;
  w_k : pyfloat;
  w_d : pyfloat;
  w_close : pyfloat;
  w_ma20 : pyfloat;
  w_idx : Timestamp
}.

Definition weekly_ok (sg : Signals) : bool :=
  f_gt (w_k sg) (w_d sg) && f_ge (w_k sg) (Some 50%Q)
  && (negb (isnan (w_ma20 sg)) && f_gt (w_close sg) (w_ma20 sg)).

Definition entry_cross (sg : Signals) : bool :=
  crossed_up (k_prev sg) (dprev_prev sg) (k_last sg) (d_last_d sg).

Definition exit_cross (sg : Signals) : bool :=
  crossed_down (k_prev sg) (dprev_prev sg) (k_last sg) (d_last_d sg).

Definition daily_trend_ok (sg : Signals) : bool :=
  f_gt (d_close sg) (d_ma20 sg).

(** [l.iloc[-back]] *)
Definition iloc_back {A : Type} (l : list A) (back : nat) : Exc A :=
  if bool_decide (0 < back ∧ back ≤ length l)
  then match l !! (length l - back) with
       | Some x => Ret x
       | None => Raise IndexError
       end
  else Raise IndexError.

Definition need_d (cfg : Config) : nat := (DAILY_MA cfg + 2) `max` (K_PERIOD cfg + 2).
Definition need_w (cfg : Config) : nat := (WEEKLY_MA cfg + 2) `max` (K_PERIOD cfg + 2).

(** Lines 222-262: fetch, trim, length checks and indicators.  [None]
    is a [SKIP] return.  The label lookup [.loc[w_idx]] is positional
    here, the index being free of duplicates. *)
Definition evaluate (cfg : Config) (feed : Feed) : Exc (option Signals) :=
  raw_d ← fetch_ohlc feed "1d";
  let df_d := last_completed_daily (local_now feed) raw_d in
  df_w ← fetch_ohlc feed "1wk";
  if bool_decide (length df_d < need_d cfg)
     || bool_decide (length df_w < need_w cfg)
  then mret None
  else
    d_all ← compute_kd_recursive df_d (K_PERIOD cfg) (ALPHA cfg);
    let d_kd := dropna d_all in
    if bool_decide (length d_kd < 2) then mret None
    else
      w_all ← compute_kd_recursive df_w (K_PERIOD cfg) (ALPHA cfg);
      let w_kd := dropna w_all in
      if bool_decide (length w_kd < 2) then mret None
      else
        d_prev ← iloc_back d_kd 2;
        d_last ← iloc_back d_kd 1;
        d_ma ← iloc_back (ma (map (λ r, Close (bar r)) d_kd) (DAILY_MA cfg)) 1;
        match weekly_completed_row w_kd with
        | None => mret None
        | Some w_row =>
            if isnan (K w_row) || isnan (D w_row) then mret None
            else
              let w_ma20_series :=
                ma (map (λ r, Close (bar r)) w_kd) (WEEKLY_MA cfg) in
              mret (Some
                {| k_prev := K d_prev; dprev_prev := D d_prev;
                   k_last := K d_last; d_last_d := D d_last;
                   d_close := Close (bar d_last); d_ma20 := d_ma;
                   d_ts := idx (bar d_last);
                   w_k := K w_row; w_d := D w_row;
                   w_close := Close (bar w_row);
                   w_ma20 := default None
                               (w_ma20_series !! (length w_kd - 2));
                   w_idx := idx (bar w_row) |})
        end.

(** A call [send_to(recipients, msg)]; the text is a rendering of
    these fields. *)
Record Alert : Type := mkAlert {
  a_rule : Rule;
  a_sym : string;
  a_to : gset string;
  a_sig : Signals;
  a_inst : string
}.

(** The [state] dict, the files and the calls of [send_to] so far.
    [files] are the files this module reads and writes itself, the
    state file and its temporary among them; the directory [cache] of
    [institutions.py] is not part of it. *)
Record World : Type := mkWorld {
  mem : gmap string SymState;
  files : gmap string File;
  sent : list Alert
}.

Definition send_to (recipients : gset string) (msg : Alert) (w : World)
    : World :=
  {| mem := mem w; files := files w; sent := sent w ++ [msg] |}.

(** [state[sym] = sym_state; save_state(state)] *)
Definition store_and_save (cfg : Config) (sym : string)
    (sym_state : SymState) (w : World) : World :=
  let state := <[sym := sym_state]> (mem w) in
  {| mem := state; files := save_state cfg state (files w); sent := sent w |}.

(** The local variables [sym_state] and [alerts] of [process_symbol],
    next to the world. *)
Record Locals : Type := mkLocals {
  l_world : World;
  sym_state : SymState;
  l_alerts : gmap string bool
}.

Definition alerted (l : Locals) (key : string) : bool :=
  default false (l_alerts l !! key).

Definition mark_alert (cfg : Config) (sym key : string) (l : Locals)
    : Locals :=
  let alerts' := <[key := true]> (l_alerts l) in
  let sym_state' :=
    {| position := position (sym_state l);
       alerts := Some alerts';
       last_entry := last_entry (sym_state l) |} in
  {| l_world := store_and_save cfg sym sym_state' (l_world l);
     sym_state := sym_state';
     l_alerts := alerts' |}.

Definition ex_key (sg : Signals) : string :=
  "daily_exit@" +:+ ts_day_tz (d_ts sg).

Definition full_key (sg : Signals) : string :=
  "weekly_off@" +:+ ts_day_tz (w_idx sg).

(** [state.get(sym, {"position": "flat", "alerts": {}})] *)
Definition state_get (state : gmap string SymState) (sym : string)
    : SymState :=
  default fresh_sym_state (state !! sym).

(** The guards of the three rules (lines 286, 303 and 316). *)
Definition entry_cond (sg : Signals) (st : SymState) : bool :=
  bool_decide (position st = Some "flat")
  && weekly_ok sg && entry_cross sg && daily_trend_ok sg.

Definition reduce_cond (sg : Signals) (l : Locals) : bool :=
  bool_decide (position (sym_state l) = Some "long")
  && exit_cross sg && negb (alerted l (ex_key sg)).

Definition exit_cond (sg : Signals) (l : Locals) : bool :=
  let weekly_off := negb (weekly_ok sg) in
  bool_decide (position (sym_state l) = Some "long")
  && weekly_off && negb (alerted l (full_key sg)).

(** Lines 300-310. *)
Definition reduce_rule (cfg : Config) (sym : string)
    (recipients : gset string) (inst : string) (sg : Signals)
    (l : Locals) : Locals :=
  if reduce_cond sg l
  then
    let msg := mkAlert Reduce sym recipients sg inst in
    mark_alert cfg sym (ex_key sg)
      {| l_world := send_to recipients msg (l_world l);
         sym_state := sym_state l;
         l_alerts := l_alerts l |}
  else l.

(** Lines 312-325. *)
Definition exit_rule (cfg : Config) (sym : string)
    (recipients : gset string) (inst : string) (sg : Signals)
    (l : Locals) : Locals :=
  if exit_cond sg l
  then
    let msg := mkAlert Exit sym recipients sg inst in
    let sym_state' :=
      {| position := Some "flat";
         alerts := alerts (sym_state l);
         last_entry := last_entry (sym_state l) |} in
    {| l_world := store_and_save cfg sym sym_state'
                    (send_to recipients msg (l_world l));
       sym_state := sym_state';
       l_alerts := l_alerts l |}
  else l.

(** Lines 273-284: the locals on entry to the rules. *)
Definition enter (sym : string) (w : World) : Locals :=
  let sym_state0 := state_get (mem w) sym in
  {| l_world := w;
     sym_state := sym_state0;
     l_alerts := default ∅ (alerts sym_state0) |}.

(** The locals agree with the stored slice of the symbol. *)
Definition coherent (sym : string) (l : Locals) : Prop :=
  sym_state l = state_get (mem (l_world l)) sym
  ∧ l_alerts l = default ∅ (alerts (sym_state l)).

(** Lines 286-298. *)
Definition entry_rule (cfg : Config) (sym : string)
    (recipients : gset string) (inst : string) (sg : Signals)
    (l : Locals) : World :=
  let msg := mkAlert Entry sym recipients sg inst in
  let sym_state' :=
    {| position := Some "long";
       alerts := alerts (sym_state l);
       last_entry := Some (ts_str (d_ts sg)) |} in
  store_and_save cfg sym sym_state' (send_to recipients msg (l_world l)).

(** Lines 273-325: the three rules on the stored state. *)
Definition transitions (cfg : Config) (sym : string)
    (recipients : gset string) (inst : string) (sg : Signals)
    (w : World) : World :=
  let l0 := enter sym w in
  if entry_cond sg (sym_state l0)
  then entry_rule cfg sym recipients inst sg l0
  else
    let l1 := reduce_rule cfg sym recipients inst sg l0 in
    let l2 := exit_rule cfg sym recipients inst sg l1 in
    l_world l2.

Definition process_symbol (cfg : Config) (sym : string)
    (recipients : gset string) (feed : Feed) (w : World) : Exc World :=
  sg ← evaluate cfg feed;
  match sg with
  | None => mret w
  | Some sg => mret (transitions cfg sym recipients (inst_line feed) sg w)
  end.

(** *** Observations on a run *)

(** [sym_state.get("position")] for the stored slice of [sym]. *)
Definition stored_position (w : World) (sym : string) : option string :=
  position (state_get (mem w) sym).

(** [alerts.get(key, False)] for the stored slice of [sym]. *)
Definition stored_alerted (w : World) (sym key : string) : bool :=
  default false (default ∅ (alerts (state_get (mem w) sym)) !! key).

(** The rules whose alert was sent between [w] and [w']. *)
Definition fired (w w' : World) : list Rule :=
  map a_rule (drop (length (sent w)) (sent w')).

(** The state file holds the dump of the in-memory mapping. *)
Definition persisted (cfg : Config) (w : World) : Prop :=
  files w !! STATE_FILE cfg = Some (Text (json_dump (mem w))).

(** One pass of the loop body of [main] for one symbol: an exception is
    caught and logged, the world is as the failed call left it (the
    model raises only before any mutation). *)
Definition main_step (cfg : Config) (sym : string)
    (recipients : gset string) (w : World) (feed : Feed) : World :=
  match process_symbol cfg sym recipients feed w with
  | Ret w' => w'
  | Raise _ => w
  end.

(** Successive invocations for one symbol; the rules fired by each. *)
Fixpoint replay (cfg : Config) (sym : string) (recipients : gset string)
    (feeds : list Feed) (w : World) : list (list Rule) :=
  match feeds with
  | [] => []
  | feed :: rest =>
      let w' := main_step cfg sym recipients w feed in
      fired w w' :: replay cfg sym recipients rest w'
  end.
End Machine.

(** ** The batch of [main] *)

Section Batch.
Context {Timestamp : Type} `{!Calendar Timestamp} `{!JsonCodec}.

(** The alerts sent between [w] and [w']. *)
Definition new_alerts (w w' : @World Timestamp) : list (@Alert Timestamp) :=
  drop (length (sent w)) (sent w').

(** Two sets of locals that agree on the symbol: same [sym_state], same
    [alerts], same stored entry. *)
Definition same_slice (sym : string) (la l : @Locals Timestamp) : Prop :=
  sym_state la = sym_state l
  ∧ l_alerts la = l_alerts l
  ∧ mem (l_world la) !! sym = mem (l_world l) !! sym.

(** The body of the loop of [main] (lines 346-349) for one symbol:
    [process_symbol(sym, subs[sym], state, cfg)] under its handler.  A
    symbol without an entry in [subs] is a [KeyError], caught like the
    exceptions of [process_symbol]. *)
Definition main_body (cfg : Config) (subs : gmap string (gset string))
    (feeds : string → @Feed Timestamp) (sym : string)
    (w : @World Timestamp) : @World Timestamp :=
  match subs !! sym with
  | Some recipients => main_step cfg sym recipients w (feeds sym)
  | None => w
  end.

(** The loop of [main] (lines 345-349) over the symbols, each with what
    its evaluation obtains. *)
Fixpoint main_loop (cfg : Config) (subs : gmap string (gset string))
    (feeds : string → @Feed Timestamp) (symbols : list string)
    (w : @World Timestamp) : @World Timestamp :=
  match symbols with
  | [] => w
  | sym :: rest =>
      main_loop cfg subs feeds rest (main_body cfg subs feeds sym w)
  end.
End Batch.

(** ** Well-formed bars *)

(** A bar whose close lies between its low and its high, where the
    three are numbers. *)
Definition bar_in_range {Timestamp : Type} (b : Bar Timestamp) : bool :=
  match Low b, Close b, High b with
  | Some l, Some c, Some h => Qle_bool l c && Qle_bool c h
  | _, _, _ => true
  end.

(** ** Subscriptions and [main] *)

(** [m.setdefault(s, set()).add(rid)] *)
Definition add_subscriber (rid : string) (m : gmap string (gset string))
    (s : string) : gmap string (gset string) :=
  <[s := default ∅ (m !! s) ∪ {[rid]}]> m.

(** [all_symbols_to_subscribers] of [subscriptions.py] on the mapping
    [data] returned by the backend, recipient by recipient in the order
    of its items. *)
Definition all_symbols_to_subscribers (data : list (string * list string))
    : gmap string (gset string) :=
  foldl (λ m item, foldl (add_subscriber item.1) m item.2) ∅ data.

(** [sorted(subs.keys())] *)
Definition sorted_keys (subs : gmap string (gset string)) : list string :=
  merge_sort (λ a b, String.leb a b) (elements (dom subs)).

Section Main.
Context {Timestamp : Type} `{!Calendar Timestamp} `{!JsonCodec}.

(** [main] (lines 335-350) from the loaded subscriptions; [w] holds the
    mapping returned by [load_state]. *)
Definition main (cfg : Config) (data : list (string * list string))
    (feeds : string → @Feed Timestamp) (w : @World Timestamp)
    : @World Timestamp :=
  let subs := all_symbols_to_subscribers data in
  if bool_decide (subs = ∅) then w
  else main_loop cfg subs feeds (sorted_keys subs) w.
End Main.

(** ** Posting to the messaging API ([line_push.py]) *)

Record Response : Type := mkResponse {
  status_code : nat;
  text : string
}.

(** What a call of [_post] did: the number of requests, the seconds
    slept between them and how it ended. *)
Record PostRun : Type := mkPostRun {
  posts : nat;
  slept : list Q;
  outcome : Exc unit
}.

Definition retryable (status : nat) : bool :=
  bool_decide (status ∈ [429; 500; 502; 503; 504]).

Definition api_failed (r : Response) : PyExc :=
  RuntimeError ("LINE API failed: " +:+ pretty (status_code r)
                +:+ " " +:+ text r).

(** The iterations [i, i+1, ...] of [for i in range(retries + 1)], [left]
    of them; [respond i] is the answer to the request of iteration [i]. *)
Fixpoint post_loop (respond : nat → Response) (retries : nat) (backoff : Q)
    (i left : nat) : PostRun :=
  match left with
  | 0 => {| posts := 0; slept := []; outcome := Ret () |}
  | S left' =>
      let r := respond i in
      if status_code r =? 200
      then {| posts := 1; slept := []; outcome := Ret () |}
      else if retryable (status_code r) && (i <? retries)
      then
        let run := post_loop respond retries backoff (S i) left' in
        {| posts := S (posts run);
           slept := (backoff * inject_Z (Z.of_nat (i + 1)))%Q :: slept run;
           outcome := outcome run |}
      else {| posts := 1; slept := []; outcome := Raise (api_failed r) |}
  end.

Definition _post (respond : nat → Response) (retries : nat) (backoff : Q)
    : PostRun :=
  post_loop respond retries backoff 0 (retries + 1).

(** [push_text] with the defaults [retries=2], [backoff=2.0] of
    [_post]; an empty token is falsy. *)
Definition push_text (dry_run : bool) (token : string)
    (respond : nat → Response) : PostRun :=
  if dry_run || bool_decide (token = "")
  then {| posts := 0; slept := []; outcome := Ret () |}
  else _post respond 2 2.

(** ** Configuration ([config_loader.py]) *)

(** JSON values; an object is the list of its items in insertion order,
    every key once. *)
#[warnings="-register-all"] Inductive Json : Type :=
  | JNull
  | JBool (b : bool)
  | JNum (z : Z)
  | JStr (s : string)
  | JList (l : list Json)
  | JDict (items : list (string * Json)).

(** [d.get(k)] *)
Fixpoint dict_get (d : list (string * Json)) (k : string) : option Json :=
  match d with
  | [] => None
  | (k', v) :: rest => if decide (k' = k) then Some v else dict_get rest k
  end.

(** [d[k] = v]: an existing key keeps its place, a new key goes last. *)
Fixpoint dict_set (d : list (string * Json)) (k : string) (v : Json)
    : list (string * Json) :=
  match d with
  | [] => [(k, v)]
  | (k', v') :: rest =>
      if decide (k' = k) then (k', v) :: rest
      else (k', v') :: dict_set rest k v
  end.

(** The value stored under a key of [b] by the loop of [_deep_merge],
    [cur] being [out.get(k)]: the merge of the two when both are
    objects, and the value of [b] otherwise. *)
Fixpoint merge_value (cur : option Json) (v : Json) {struct v} : Json :=
  match v with
  | JDict vb =>
      match cur with
      | Some (JDict va) =>
          JDict
            ((fix loop (out b : list (string * Json)) {struct b} :=
                match b with
                | [] => out
                | (k, v') :: b' =>
                    loop (dict_set out k (merge_value (dict_get out k) v'))
                         b'
                end) va vb)
      | _ => v
      end
  | _ => v
  end.

(** [_deep_merge(a, b)]: [out = dict(a)], then the loop over the items
    of [b]. *)
Definition _deep_merge (a b : list (string * Json)) : list (string * Json) :=
  foldl (λ out item,
           dict_set out item.1 (merge_value (dict_get out item.1) item.2))
        a b.

(** [_DEFAULT] *)
Definition _DEFAULT : list (string * Json) :=
  [("features",
    JDict [("institutions",
            JDict [("enabled", JBool false);
                   ("source", JStr "twse");
                   ("include_in_push", JBool true)])])].

(** [v[k1][k2]...]; [None] where Python raises ([KeyError], or
    [TypeError] on a value that is not an object). *)
Fixpoint dict_path (v : Json) (path : list string) : option Json :=
  match path with
  | [] => Some v
  | k :: rest =>
      match v with
      | JDict d =>
          match dict_get d k with
          | Some v' => dict_path v' rest
          | None => None
          end
      | _ => None
      end
  end.

(** Every object, at every depth, has each key once (as [json.load]
    returns them). *)
Fixpoint unique_keys (v : Json) : bool :=
  match v with
  | JDict items =>
      bool_decide (NoDup items.*1)
      && forallb (λ item, unique_keys item.2) items
  | JList l => forallb unique_keys l
  | _ => true
  end.

Definition dict_or_absent (v : option Json) : bool :=
  match v with
  | None | Some (JDict _) => true
  | Some _ => false
  end.

(** ** Sample data *)

(** A calendar whose stamps are ISO dates at midnight UTC, rendered as
    themselves. *)
#[export] Instance iso_calendar : Calendar string :=
  {| ts_date := id; ts_str := id; ts_day_tz := id |}.

(** A codec that dumps nothing and refuses every text. *)
#[export] Instance null_codec : JsonCodec :=
  {| json_dump := λ _, "{}"; json_load := λ _, Raise JSONDecodeError |}.

Definition sample_bar (day : string) (h l c : Z) : Bar string :=
  mkBar day (Some (inject_Z h)) (Some (inject_Z l)) (Some (inject_Z c)).

(** Nine bars ranging over 8..10, then nine bars pinned at 9. *)
Definition flat_tail : list (Bar string) :=
  replicate 9 (sample_bar "d" 10 8 9) ++ replicate 9 (sample_bar "d" 9 9 9).

(** [flat_tail] followed by a bar that moves again. *)
Definition flat_then_move : list (Bar string) :=
  flat_tail ++ [sample_bar "d" 12 9 10].

(** 35 quiet bars around 100 and a jump to 105 on the day ["2024-03-01"]. *)
Definition spike : list (Bar string) :=
  replicate 35 (sample_bar "2024-02-01" 101 99 100)
  ++ [sample_bar "2024-03-01" 106 104 105].

(** 30 bars climbing by one a bar: K and D sit together at 90. *)
Definition ramp : list (Bar string) :=
  map (λ i : nat, sample_bar "2024-03-01"
                    (Z.of_nat i + 2) (Z.of_nat i) (Z.of_nat i + 1))
      (seq 0 30).

Definition evening : LocalNow :=
  {| now_date := "2024-03-04"; now_hour := 18; now_minute := 0 |}.

(** Daily golden cross above the average, weekly filter on. *)
Definition entry_feed : @Feed string :=
  {| dl_daily := Ret spike;
     dl_weekly := Ret (spike ++ [sample_bar "2024-03-08" 106 104 105]);
     local_now := evening;
     inst_line := "" |}.

(** Weekly K equal to weekly D: the weekly filter is off. *)
Definition weekly_off_feed : @Feed string :=
  {| dl_daily := Ret ramp;
     dl_weekly := Ret ramp;
     local_now := evening;
     inst_line := "" |}.

(** Five daily bars only. *)
Definition short_feed : @Feed string :=
  {| dl_daily := Ret (take 5 ramp);
     dl_weekly := Ret ramp;
     local_now := evening;
     inst_line := "" |}.

(** Five daily bars and a weekly download without a bar. *)
Definition empty_weekly_feed : @Feed string :=
  {| dl_daily := Ret (take 5 ramp);
     dl_weekly := Ret [];
     local_now := evening;
     inst_line := "" |}.

Definition long_state : SymState :=
  {| position := Some "long"; alerts := Some ∅; last_entry := None |}.

Definition empty_world : @World string :=
  {| mem := ∅; files := ∅; sent := [] |}.

Definition long_world : @World string :=
  {| mem := {[ "2330.TW" := long_state ]}; files := ∅; sent := [] |}.

(** 35 quiet bars around 100 and a fall to 95 on the day ["2024-03-01"]. *)
Definition dip : list (Bar string) :=
  replicate 35 (sample_bar "2024-02-01" 101 99 100)
  ++ [sample_bar "2024-03-01" 96 94 95].

(** Daily death cross, weekly filter on. *)
Definition reduce_feed : @Feed string :=
  {| dl_daily := Ret dip;
     dl_weekly := Ret (spike ++ [sample_bar "2024-03-08" 106 104 105]);
     local_now := evening;
     inst_line := "" |}.

(** A long position whose Reduce alert of 2024-03-01 has fired. *)
Definition reduced_state : SymState :=
  {| position := Some "long";
     alerts := Some {[ "daily_exit@2024-03-01" := true ]};
     last_entry := None |}.

Definition reduced_world : @World string :=
  {| mem := {[ "2330.TW" := reduced_state ]}; files := ∅; sent := [] |}.

(** The feeds of a batch over two symbols. *)
Definition sample_feeds (sym : string) : @Feed string :=
  if bool_decide (sym = "2330.TW") then entry_feed else weekly_off_feed.

(** Two symbols, one subscriber each. *)
Definition sample_subs : gmap string (gset string) :=
  {[ "2317.TW" := {[ "U1" ]}; "2330.TW" := {[ "U2" ]} ]}.

(** 25 daily bars: enough for the length check, not for the average. *)
Definition thin_feed : @Feed string :=
  {| dl_daily := Ret (take 25 ramp);
     dl_weekly := Ret ramp;
     local_now := evening;
     inst_line := "" |}.

(** [ramp] with a bar of the running day. *)
Definition midday_feed : @Feed string :=
  {| dl_daily := Ret (ramp ++ [sample_bar "2024-03-04" 200 100 150]);
     dl_weekly := Ret ramp;
     local_now :=
       {| now_date := "2024-03-04"; now_hour := 13; now_minute := 34 |};
     inst_line := "" |}.


(** Two recipients; both follow 2330.TW. *)
Definition sample_data : list (string * list string) :=
  [("U1", ["2330.TW"; "2317.TW"]); ("U2", ["2330.TW"])].

(** A stored entry without a position. *)
Definition stray_world : @World string :=
  {| mem := {[ "2330.TW" := {| position := None; alerts := Some ∅;
                               last_entry := None |} ]};
     files := ∅; sent := [] |}.

(** A server that is busy twice and then accepts. *)
Definition busy_twice (i : nat) : Response :=
  if i <? 2 then mkResponse 429 "busy" else mkResponse 200 "{}".

(** A configuration file that switches the feature on and says nothing
    else. *)
Definition sample_config : list (string * Json) :=
  [("features", JDict [("institutions", JDict [("enabled", JBool true)])])].

(** * Properties *)

(** ** Comparisons *)

Lemma Qlt_bool_iff (x y : Q) : Qlt_bool x y = true ↔ (x < y)%Q.
Proof.
  unfold Qlt_bool. rewrite negb_true_iff. split.
  - intros Hle. apply Qnot_le_lt. intros Hyx.
    apply Qle_bool_iff in Hyx. congruence.
  - intros Hlt. destruct (Qle_bool y x) eqn:E; [|done].
    apply Qle_bool_iff in E. lra.
Qed.

Lemma f_lt_asym (a b : pyfloat) : f_lt a b = true → f_lt b a = false.
Proof.
  destruct a as [x|], b as [y|]; simpl; try done.
  intros Hxy. apply Qlt_bool_iff in Hxy.
  destruct (Qlt_bool y x) eqn:E; [|done].
  apply Qlt_bool_iff in E. lra.
Qed.

(** The two crossings exclude each other on all floats, NaN included. *)
Lemma crossed_exclusive (kp dp kc dc : pyfloat) :
  crossed_up kp dp kc dc = true → crossed_down kp dp kc dc = false.
Proof.
  unfold crossed_up, crossed_down, f_gt.
  intros [_ Hgt]%andb_true_iff.
  apply f_lt_asym in Hgt. rewrite Hgt. apply andb_false_r.
Qed.

(** C7: on finite values with [Kp ≠ Dp] or [Kc ≠ Dc], [crossed_up] is
    true iff [Kp ≤ Dp] and [Kc > Dc], [crossed_down] is true iff
    [Kp ≥ Dp] and [Kc < Dc], and the two are never both true. *)
Theorem crossed_up_down_exclusive (Kp Dp Kc Dc : Q) :
  ¬ (Kp == Dp)%Q ∨ ¬ (Kc == Dc)%Q →
  (crossed_up (Some Kp) (Some Dp) (Some Kc) (Some Dc) = true
     ↔ (Kp <= Dp)%Q ∧ (Dc < Kc)%Q)
  ∧ (crossed_down (Some Kp) (Some Dp) (Some Kc) (Some Dc) = true
     ↔ (Dp <= Kp)%Q ∧ (Kc < Dc)%Q)
  ∧ ¬ (crossed_up (Some Kp) (Some Dp) (Some Kc) (Some Dc) = true
       ∧ crossed_down (Some Kp) (Some Dp) (Some Kc) (Some Dc) = true).
Proof.
  intros _. split_and!.
  - unfold crossed_up, f_gt; simpl.
    by rewrite andb_true_iff, Qle_bool_iff, Qlt_bool_iff.
  - unfold crossed_down, f_ge; simpl.
    by rewrite andb_true_iff, Qle_bool_iff, Qlt_bool_iff.
  - intros [Hup Hdown]. apply crossed_exclusive in Hup. congruence.
Qed.

Lemma crossed_up_down_exclusive_witness :
  (¬ (48 == 50)%Q ∨ ¬ (52 == 50)%Q)
  ∧ crossed_up (Some 48%Q) (Some 50%Q) (Some 52%Q) (Some 50%Q) = true
  ∧ ¬ (crossed_up (Some 48%Q) (Some 50%Q) (Some 52%Q) (Some 50%Q) = true
       ∧ crossed_down (Some 48%Q) (Some 50%Q) (Some 52%Q) (Some 50%Q) = true).
Proof.
  assert (Hne : ¬ (48 == 50)%Q ∨ ¬ (52 == 50)%Q) by (left; discriminate).
  split; [exact Hne|].
  destruct (crossed_up_down_exclusive 48 50 52 50 Hne) as (Hup & _ & Hex).
  split; [reflexivity | exact Hex].
Defined.

(** ** The recursive mean *)

Lemma acc_ok_init v0 : acc_ok (ewm_init v0).
Proof. unfold acc_ok. destruct v0; cbn; [lia|done]. Qed.

Lemma acc_ok_step alpha acc cur : acc_ok acc → acc_ok (ewm_step alpha acc cur).
Proof.
  unfold acc_ok, ewm_step.
  destruct (weighted acc) as [w|], cur as [c|]; cbn; [lia | lia | | ].
  - intros [-> _]. done.
  - intros [-> ->]. done.
Qed.

Lemma acc_ok_foldl alpha vals acc :
  acc_ok acc → acc_ok (foldl (ewm_step alpha) acc vals).
Proof.
  revert acc. induction vals as [|v vals IH]; intros acc Hok; [done|].
  cbn. by apply IH, acc_ok_step.
Qed.

Lemma acc_ok_ewm_acc alpha vals i : acc_ok (ewm_acc alpha vals i).
Proof.
  unfold ewm_acc. destruct vals; [done|]. apply acc_ok_foldl, acc_ok_init.
Qed.

Lemma ewm_out_ok acc : acc_ok acc → ewm_out acc = weighted acc.
Proof.
  unfold acc_ok, ewm_out. destruct (weighted acc).
  - intros Hn. by rewrite bool_decide_eq_true_2.
  - intros [-> _]. done.
Qed.

Lemma ewm_loop_lookup alpha vals : ∀ acc i,
  i < length vals →
  ewm_loop alpha acc vals !! i
  = Some (ewm_out (foldl (ewm_step alpha) acc (take (S i) vals))).
Proof.
  induction vals as [|v vals IH]; intros acc i Hi; [cbn in Hi; lia|].
  destruct i as [|i]; cbn; [by rewrite take_0|].
  apply IH. cbn in Hi. lia.
Qed.

Lemma ewm_values_length alpha vals :
  length (ewm_values alpha vals) = length vals.
Proof.
  destruct vals as [|v0 rest]; [done|]. cbn. f_equal.
  generalize (ewm_init v0). induction rest as [|v rest IH]; intros acc;
    [done|]. cbn. by rewrite IH.
Qed.

Lemma ewm_values_lookup alpha vals i :
  i < length vals →
  ewm_values alpha vals !! i = Some (weighted (ewm_acc alpha vals i)).
Proof.
  intros Hi. rewrite <- ewm_out_ok by apply acc_ok_ewm_acc.
  unfold ewm_values, ewm_acc. destruct vals as [|v0 rest]; [cbn in Hi; lia|].
  destruct i as [|i]; [by rewrite take_0|].
  cbn [lookup list_lookup]. apply ewm_loop_lookup. cbn in Hi. lia.
Qed.

Lemma ewm_acc_S alpha vals i cur :
  vals !! S i = Some cur →
  ewm_acc alpha vals (S i) = ewm_step alpha (ewm_acc alpha vals i) cur.
Proof.
  unfold ewm_acc. destruct vals as [|v0 rest]; [done|].
  cbn [lookup list_lookup]. intros Hcur.
  rewrite (take_S_r _ _ _ Hcur). by rewrite foldl_app.
Qed.

Lemma ewm_acc_0 alpha vals v0 :
  vals !! 0 = Some v0 → ewm_acc alpha vals 0 = ewm_init v0.
Proof. destruct vals; [done|]. intros [= ->]. unfold ewm_acc. by rewrite take_0. Qed.

Lemma ewm_carry alpha vals i :
  vals !! S i = Some None →
  weighted (ewm_acc alpha vals (S i)) = weighted (ewm_acc alpha vals i).
Proof.
  intros Hcur. rewrite (ewm_acc_S _ _ _ _ Hcur). unfold ewm_step.
  by destruct (weighted (ewm_acc alpha vals i)).
Qed.

Lemma ewm_leading_nan alpha vals i :
  (∀ j, j ≤ i → vals !! j = Some None) →
  weighted (ewm_acc alpha vals i) = None.
Proof.
  induction i as [|i IH]; intros Hnan.
  - by rewrite (ewm_acc_0 _ _ _ (Hnan 0 (le_n _))).
  - rewrite ewm_carry by (apply Hnan; lia). apply IH. intros j Hj.
    apply Hnan. lia.
Qed.

Lemma ewm_step_defined alpha acc cur :
  is_Some (weighted acc) → is_Some (weighted (ewm_step alpha acc cur)).
Proof.
  intros [w Hw]. unfold ewm_step. rewrite Hw. by destruct cur.
Qed.

Lemma ewm_stays_defined alpha vals i j :
  i ≤ j → j < length vals →
  is_Some (weighted (ewm_acc alpha vals i)) →
  is_Some (weighted (ewm_acc alpha vals j)).
Proof.
  intros Hij Hj Hi. induction Hij as [|j Hij IH]; [done|].
  destruct (lookup_lt_is_Some_2 vals (S j) Hj) as [cur Hcur].
  rewrite (ewm_acc_S _ _ _ _ Hcur). apply ewm_step_defined, IH. lia.
Qed.

(** After an observation the running mean is there and the weight of the
    history is back to 1. *)
Lemma ewm_after_observation alpha vals i x :
  vals !! i = Some (Some x) →
  is_Some (weighted (ewm_acc alpha vals i))
  ∧ old_wt (ewm_acc alpha vals i) = 1%Q.
Proof.
  destruct i as [|i]; intros Hx.
  - rewrite (ewm_acc_0 _ _ _ Hx). by split; [eexists|].
  - rewrite (ewm_acc_S _ _ _ _ Hx).
    pose proof (acc_ok_ewm_acc alpha vals i) as Hok.
    unfold acc_ok in Hok. unfold ewm_step.
    destruct (weighted (ewm_acc alpha vals i)); cbn.
    + by split; [eexists|].
    + destruct Hok as [_ ->]. by split; [eexists|].
Qed.

Lemma ewm_seed alpha vals i x :
  (∀ j, j < i → vals !! j = Some None) →
  vals !! i = Some (Some x) →
  weighted (ewm_acc alpha vals i) = Some x.
Proof.
  destruct i as [|i]; intros Hnan Hx.
  - by rewrite (ewm_acc_0 _ _ _ Hx).
  - rewrite (ewm_acc_S _ _ _ _ Hx). unfold ewm_step.
    rewrite ewm_leading_nan; [done|]. intros j Hj. apply Hnan. lia.
Qed.

Lemma smoothing_step (alpha kp y : Q) :
  ((if Qeq_bool kp y then kp
    else (1 * (1 - alpha) * kp
          + (if Qeq_bool ((1 - alpha) / alpha) 1
             then 1 - 1 * (1 - alpha) else alpha) * y)
         / (1 * (1 - alpha)
            + (if Qeq_bool ((1 - alpha) / alpha) 1
               then 1 - 1 * (1 - alpha) else alpha)))
   == alpha * y + (1 - alpha) * kp)%Q.
Proof.
  destruct (Qeq_bool kp y) eqn:E.
  - apply Qeq_bool_iff in E. rewrite E. ring.
  - destruct (Qeq_bool ((1 - alpha) / alpha) 1);
      field; intros Hz; ring_simplify in Hz; discriminate.
Qed.

(** The centre of mass is 1 exactly at one half. *)
Lemma com_is_1 (alpha : Q) :
  (0 < alpha)%Q → Qeq_bool ((1 - alpha) / alpha) 1 = Qeq_bool alpha (1 # 2).
Proof.
  intros Hpos.
  destruct (Qeq_bool alpha (1 # 2)) eqn:E.
  - apply Qeq_bool_iff in E. apply Qeq_bool_iff. rewrite E. reflexivity.
  - apply not_true_iff_false. intros Hc. apply Qeq_bool_iff in Hc.
    apply Qeq_bool_neq in E. apply E.
    assert (H1 : ((1 - alpha) / alpha * alpha == 1 * alpha)%Q)
      by (by rewrite Hc).
    assert (H2 : ((1 - alpha) / alpha * alpha == 1 - alpha)%Q)
      by (field; lra).
    rewrite H2 in H1. lra.
Qed.

Lemma ewm_recursion alpha vals i x y :
  vals !! i = Some (Some x) → vals !! S i = Some (Some y) →
  ∃ kp k,
    weighted (ewm_acc alpha vals i) = Some kp
    ∧ weighted (ewm_acc alpha vals (S i)) = Some k
    ∧ (k == alpha * y + (1 - alpha) * kp)%Q.
Proof.
  intros Hx Hy.
  destruct (ewm_after_observation alpha _ _ _ Hx) as [[kp Hkp] Hwt].
  rewrite (ewm_acc_S _ _ _ _ Hy). unfold ewm_step. rewrite Hkp, Hwt.
  eexists _, _. split_and!; [done | done |]. cbn. apply smoothing_step.
Qed.

Lemma ewm_defined_iff alpha vals i :
  i < length vals →
  weighted (ewm_acc alpha vals i) = None
  ↔ ∀ j, j ≤ i → vals !! j = Some None.
Proof.
  intros Hi. split; [|apply ewm_leading_nan].
  intros Hnone j Hj.
  destruct (lookup_lt_is_Some_2 vals j ltac:(lia)) as [[x|] Hx]; [|done].
  destruct (ewm_after_observation alpha _ _ _ Hx) as [Hsome _].
  pose proof (ewm_stays_defined alpha vals j i Hj Hi Hsome) as [w Hw].
  congruence.
Qed.

Lemma qpow_nonneg (q : Q) g : (0 <= q)%Q → (0 <= qpow q g)%Q.
Proof.
  intros Hq. induction g as [|g IH]; cbn; [lra|].
  by apply Qmult_le_0_compat.
Qed.

Lemma ewm_gap alpha vals i x g :
  vals !! i = Some (Some x) →
  (∀ j, i < j ≤ i + g → vals !! j = Some None) →
  weighted (ewm_acc alpha vals (i + g)) = weighted (ewm_acc alpha vals i)
  ∧ (old_wt (ewm_acc alpha vals (i + g)) == qpow (1 - alpha) g)%Q.
Proof.
  intros Hx. induction g as [|g IH]; intros Hnan.
  - rewrite Nat.add_0_r.
    destruct (ewm_after_observation alpha _ _ _ Hx) as [_ ->]. done.
  - destruct IH as [IHw IHo]; [intros j Hj; apply Hnan; lia|].
    assert (Hcur : vals !! S (i + g) = Some None) by (apply Hnan; lia).
    replace (i + S g) with (S (i + g)) by lia.
    rewrite (ewm_acc_S _ _ _ _ Hcur). unfold ewm_step.
    rewrite IHw.
    destruct (ewm_after_observation alpha _ _ _ Hx) as [[kp ->] _].
    cbn. split; [done|]. by rewrite IHo.
Qed.

Lemma ewm_resume alpha vals i x g y :
  (0 < alpha)%Q → (alpha <= 1)%Q →
  vals !! i = Some (Some x) →
  (∀ j, i < j ≤ i + g → vals !! j = Some None) →
  vals !! S (i + g) = Some (Some y) →
  ∃ kp k,
    weighted (ewm_acc alpha vals i) = Some kp
    ∧ weighted (ewm_acc alpha vals (S (i + g))) = Some k
    ∧ (k == (qpow (1 - alpha) (S g) * kp + resume_wt alpha g * y)
            / (qpow (1 - alpha) (S g) + resume_wt alpha g))%Q.
Proof.
  intros Hpos Hle Hx Hnan Hy.
  destruct (ewm_gap alpha vals i x g Hx Hnan) as [Hw Ho].
  destruct (ewm_after_observation alpha _ _ _ Hx) as [[kp Hkp] _].
  rewrite Hkp in Hw.
  rewrite (ewm_acc_S _ _ _ _ Hy). unfold ewm_step. rewrite Hw.
  exists kp. eexists. split_and!; [done | done |].
  unfold resume_wt. rewrite (com_is_1 alpha Hpos). cbn [qpow].
  assert (Hp : (0 <= qpow (1 - alpha) g * (1 - alpha))%Q).
  { apply Qmult_le_0_compat; [apply qpow_nonneg|]; lra. }
  set (p := (qpow (1 - alpha) g * (1 - alpha))%Q) in *.
  destruct (Qeq_bool alpha (1 # 2)) eqn:Ehalf.
  - destruct (Qeq_bool kp y) eqn:E.
    + apply Qeq_bool_iff in E. rewrite <- E. field. lra.
    + rewrite Ho. reflexivity.
  - destruct (Qeq_bool kp y) eqn:E.
    + apply Qeq_bool_iff in E. rewrite <- E. field. lra.
    + rewrite Ho. reflexivity.
Qed.

(** ** The indicator frame *)

Section IndicatorProps.
Context {Timestamp : Type}.
Implicit Types (df : list (Bar Timestamp)) (rows : list (KDRow Timestamp)).

Lemma rolling_length agg n (xs : list pyfloat) :
  length (rolling agg n xs) = length xs.
Proof. unfold rolling. by rewrite length_map, length_seq. Qed.

Lemma rolling_lookup agg n (xs : list pyfloat) i :
  i < length xs → rolling agg n xs !! i = Some (rolling_at agg n xs i).
Proof.
  intros Hi. unfold rolling. rewrite list_lookup_fmap.
  by rewrite lookup_seq_lt.
Qed.

Lemma rsv_length df n : length (rsv df n) = length df.
Proof.
  unfold rsv, denom, highest_n, lowest_n.
  rewrite !length_zip_with, !length_map, !length_zip_with,
    !rolling_length, !length_map. lia.
Qed.

Lemma zip_rows_K df : ∀ (Ks Ds : list pyfloat),
  length Ks = length df → length Ds = length df →
  map K (zip_with (λ b kd, mkKDRow b kd.1 kd.2) df (zip Ks Ds)) = Ks
  ∧ map D (zip_with (λ b kd, mkKDRow b kd.1 kd.2) df (zip Ks Ds)) = Ds
  ∧ map bar (zip_with (λ b kd, mkKDRow b kd.1 kd.2) df (zip Ks Ds)) = df.
Proof.
  induction df as [|b df IH]; intros [|k Ks] [|d Ds] HK HD;
    cbn in HK, HD; try lia; [done|].
  destruct (IH Ks Ds) as (HKs & HDs & Hbs); [lia | lia |].
  cbn. by rewrite HKs, HDs, Hbs.
Qed.

(** The columns of the frame [compute_kd_recursive] returns. *)
Lemma compute_kd_columns df n alpha rows :
  compute_kd_recursive df n alpha = Ret rows →
  map K rows = ewm_values alpha (rsv df n)
  ∧ map D rows = ewm_values alpha (map K rows)
  ∧ map bar rows = df.
Proof.
  unfold compute_kd_recursive, ewm_mean.
  destruct (Qlt_bool 0 alpha && Qle_bool alpha 1); [|done].
  cbn [mbind Exc_bind mret Exc_ret]. intros [= <-].
  destruct (zip_rows_K df (ewm_values alpha (rsv df n))
              (ewm_values alpha (ewm_values alpha (rsv df n))))
    as (HK & HD & Hb).
  - by rewrite ewm_values_length, rsv_length.
  - by rewrite !ewm_values_length, rsv_length.
  - by rewrite HK, HD, Hb.
Qed.

Lemma compute_kd_returns df n alpha :
  (0 < alpha)%Q → (alpha <= 1)%Q →
  ∃ rows, compute_kd_recursive df n alpha = Ret rows.
Proof.
  intros Hpos Hle. unfold compute_kd_recursive, ewm_mean.
  rewrite (proj2 (Qlt_bool_iff 0 alpha) Hpos).
  rewrite (proj2 (Qle_bool_iff alpha 1) Hle).
  cbn [andb mbind Exc_bind mret Exc_ret]. by eexists.
Qed.

Lemma K_lookup df n alpha rows i :
  compute_kd_recursive df n alpha = Ret rows →
  i < length df →
  K <$> rows !! i = Some (weighted (ewm_acc alpha (rsv df n) i)).
Proof.
  intros (HK & _ & _)%compute_kd_columns Hi.
  rewrite <- list_lookup_fmap. change (fmap K rows) with (map K rows).
  rewrite HK. apply ewm_values_lookup. by rewrite rsv_length.
Qed.

Lemma D_lookup df n alpha rows i :
  compute_kd_recursive df n alpha = Ret rows →
  i < length df →
  D <$> rows !! i = Some (weighted (ewm_acc alpha (map K rows) i)).
Proof.
  intros (HK & HD & _)%compute_kd_columns Hi.
  rewrite <- list_lookup_fmap. change (fmap D rows) with (map D rows).
  rewrite HD. apply ewm_values_lookup.
  by rewrite HK, ewm_values_length, rsv_length.
Qed.

Lemma rows_length df n alpha rows :
  compute_kd_recursive df n alpha = Ret rows → length rows = length df.
Proof.
  intros (_ & _ & Hb)%compute_kd_columns.
  by rewrite <- Hb, length_map.
Qed.

(** A flat window has no RSV. *)
Lemma rsv_flat_window df n i (h l : Q) :
  highest_n df n !! i = Some (Some h) →
  lowest_n df n !! i = Some (Some l) →
  (h == l)%Q →
  rsv df n !! i = Some None.
Proof.
  intros Hh Hl Hflat.
  assert (Hi : i < length df).
  { apply lookup_lt_Some in Hl. unfold lowest_n in Hl.
    by rewrite rolling_length, length_map in Hl. }
  destruct (lookup_lt_is_Some_2 (map Close df) i) as [c Hc];
    [by rewrite length_map|].
  assert (Hden : denom df n !! i = Some None).
  { unfold denom. rewrite list_lookup_fmap, lookup_zip_with, Hh, Hl.
    cbn [mbind option_bind fmap option_fmap option_map f_sub
         replace_zero_nan].
    assert (Qeq_bool (h - l) 0 = true) as ->; [|done].
    apply Qeq_bool_iff. rewrite Hflat. ring. }
  assert (Hnum : ∃ a,
    map (f_mul (Some 100%Q)) (zip_with f_sub (map Close df) (lowest_n df n))
      !! i = Some a).
  { rewrite list_lookup_fmap, lookup_zip_with, Hc, Hl. by eexists. }
  destruct Hnum as [a Hnum].
  unfold rsv. rewrite lookup_zip_with, Hnum, Hden.
  cbn [mbind option_bind]. f_equal. by destruct a.
Qed.

Lemma compute_kd_alpha df n alpha rows :
  compute_kd_recursive df n alpha = Ret rows →
  (0 < alpha)%Q ∧ (alpha <= 1)%Q.
Proof.
  unfold compute_kd_recursive, ewm_mean.
  destruct (Qlt_bool 0 alpha && Qle_bool alpha 1) eqn:Hval; [|done].
  intros _. apply andb_true_iff in Hval as [Hpos Hle].
  by rewrite <- Qlt_bool_iff, <- Qle_bool_iff.
Qed.

Lemma rsv_lookup_lt df n i (v : pyfloat) :
  rsv df n !! i = Some v → i < length df.
Proof. intros Hv%lookup_lt_Some. by rewrite rsv_length in Hv. Qed.

(** C3, as the code has it: at a position whose window is flat the RSV
    is NaN and K repeats its previous value (NaN at the first
    position); K is NaN there only if no RSV up to that position is
    defined. *)
Theorem flat_window_rsv_nan_k_carried df n alpha rows i (h l : Q) :
  compute_kd_recursive df n alpha = Ret rows →
  highest_n df n !! i = Some (Some h) →
  lowest_n df n !! i = Some (Some l) →
  (h == l)%Q →
  rsv df n !! i = Some None
  ∧ (i = 0 → K <$> rows !! i = Some None)
  ∧ (∀ i', i = S i' → K <$> rows !! i = K <$> rows !! i')
  ∧ (K <$> rows !! i = Some None
     ↔ ∀ j, j ≤ i → rsv df n !! j = Some None).
Proof.
  intros Hrows Hh Hl Hflat.
  pose proof (rsv_flat_window df n i h l Hh Hl Hflat) as Hnan.
  pose proof (rsv_lookup_lt _ _ _ _ Hnan) as Hi.
  split_and!; [done | | | ].
  - intros ->. rewrite (K_lookup _ _ _ _ _ Hrows Hi).
    by rewrite (ewm_acc_0 _ _ _ Hnan).
  - intros i' ->.
    rewrite (K_lookup _ _ _ _ _ Hrows Hi).
    rewrite (K_lookup _ _ _ _ (i') Hrows) by lia.
    by rewrite ewm_carry.
  - rewrite (K_lookup _ _ _ _ _ Hrows Hi).
    rewrite <- (ewm_defined_iff alpha) by (by rewrite rsv_length).
    split; [by intros [= ->] | by intros ->].
Qed.

(** C6, as the code has it: K is seeded with the first defined RSV and
    follows [K(i) = α·RSV(i) + (1−α)·K(i−1)] wherever RSV(i−1) and
    RSV(i) are both defined; after [g] positions without RSV the
    history weighs [(1−α)^(g+1)] against the weight [resume_wt] of the
    new RSV, which is [α], or [1 − (1−α)^(g+1)] when [α] is one half,
    and the sum is normalised; D is seeded with the first defined K and
    follows the same recursion on K at every later position. *)
Theorem kd_recursion_between_observations df n alpha rows :
  compute_kd_recursive df n alpha = Ret rows →
  (∀ i x,
      rsv df n !! i = Some (Some x) →
      (∀ j, j < i → rsv df n !! j = Some None) →
      K <$> rows !! i = Some (Some x)
      ∧ ∀ j, j < i → K <$> rows !! j = Some None)
  ∧ (∀ i x y,
        rsv df n !! i = Some (Some x) →
        rsv df n !! S i = Some (Some y) →
        ∃ kp k,
          K <$> rows !! i = Some (Some kp)
          ∧ K <$> rows !! S i = Some (Some k)
          ∧ (k == alpha * y + (1 - alpha) * kp)%Q)
  ∧ (∀ i x g y,
        rsv df n !! i = Some (Some x) →
        (∀ j, i < j ≤ i + g → rsv df n !! j = Some None) →
        rsv df n !! S (i + g) = Some (Some y) →
        ∃ kp k,
          K <$> rows !! i = Some (Some kp)
          ∧ K <$> rows !! S (i + g) = Some (Some k)
          ∧ (k == (qpow (1 - alpha) (S g) * kp + resume_wt alpha g * y)
                  / (qpow (1 - alpha) (S g) + resume_wt alpha g))%Q)
  ∧ (∀ i k,
        K <$> rows !! i = Some (Some k) →
        (∀ j, j < i → K <$> rows !! j = Some None) →
        D <$> rows !! i = Some (Some k))
  ∧ (∀ i kp,
        K <$> rows !! i = Some (Some kp) →
        S i < length rows →
        ∃ k dp d,
          K <$> rows !! S i = Some (Some k)
          ∧ D <$> rows !! i = Some (Some dp)
          ∧ D <$> rows !! S i = Some (Some d)
          ∧ (d == alpha * k + (1 - alpha) * dp)%Q).
Proof.
  intros Hrows.
  destruct (compute_kd_alpha _ _ _ _ Hrows) as [Hpos Hle].
  pose proof (rows_length _ _ _ _ Hrows) as Hlen.
  split_and!.
  - intros i x Hx Hnan.
    pose proof (rsv_lookup_lt _ _ _ _ Hx) as Hi. split.
    + rewrite (K_lookup _ _ _ _ _ Hrows Hi). f_equal.
      by apply ewm_seed.
    + intros j Hj. rewrite (K_lookup _ _ _ _ j Hrows) by lia. f_equal.
      apply ewm_leading_nan. intros j' Hj'. apply Hnan. lia.
  - intros i x y Hx Hy.
    pose proof (rsv_lookup_lt _ _ _ _ Hy) as Hi.
    destruct (ewm_recursion alpha _ _ _ _ Hx Hy) as (kp & k & Hkp & Hk & Heq).
    exists kp, k.
    rewrite (K_lookup _ _ _ _ i Hrows) by lia.
    rewrite (K_lookup _ _ _ _ (S i) Hrows) by lia.
    by rewrite Hkp, Hk.
  - intros i x g y Hx Hnan Hy.
    pose proof (rsv_lookup_lt _ _ _ _ Hy) as Hi.
    destruct (ewm_resume alpha _ _ _ _ _ Hpos Hle Hx Hnan Hy)
      as (kp & k & Hkp & Hk & Heq).
    exists kp, k.
    rewrite (K_lookup _ _ _ _ i Hrows) by lia.
    rewrite (K_lookup _ _ _ _ (S (i + g)) Hrows) by lia.
    by rewrite Hkp, Hk.
  - intros i k Hk Hnan.
    assert (Hi : i < length df).
    { rewrite <- Hlen. apply lookup_lt_is_Some.
      destruct (rows !! i); [by eexists | done]. }
    rewrite (D_lookup _ _ _ _ _ Hrows Hi). f_equal.
    apply ewm_seed.
    + intros j Hj. rewrite list_lookup_fmap. by apply Hnan.
    + by rewrite list_lookup_fmap.
  - intros i kp Hkp HSi. rewrite Hlen in HSi.
    assert (HkS : ∃ k, K <$> rows !! S i = Some (Some k)).
    { rewrite (K_lookup _ _ _ _ (S i) Hrows HSi).
      rewrite (K_lookup _ _ _ _ i Hrows) in Hkp by lia.
      destruct (ewm_stays_defined alpha (rsv df n) i (S i)) as [k Hk];
        [lia | by rewrite rsv_length | | ].
      - injection Hkp as ->. by eexists.
      - exists k. by rewrite Hk. }
    destruct HkS as [k Hk]. exists k.
    destruct (ewm_recursion alpha (map K rows) i kp k)
      as (dp & d & Hdp & Hd & Heq);
      [by rewrite list_lookup_fmap | by rewrite list_lookup_fmap |].
    exists dp, d.
    rewrite (D_lookup _ _ _ _ i Hrows) by lia.
    rewrite (D_lookup _ _ _ _ (S i) Hrows) by lia.
    by rewrite Hdp, Hd.
Qed.
End IndicatorProps.

(** *** The indicator theorems at the sample data *)

Lemma flat_window_rsv_nan_k_carried_witness :
  ∃ rows,
    compute_kd_recursive flat_tail 9 (ALPHA default_config) = Ret rows
    ∧ highest_n flat_tail 9 !! 17 = Some (Some 9%Q)
    ∧ lowest_n flat_tail 9 !! 17 = Some (Some 9%Q)
    ∧ (9 == 9)%Q
    ∧ rsv flat_tail 9 !! 17 = Some None
    ∧ K <$> rows !! 17 = K <$> rows !! 16.
Proof.
  eexists. split; [vm_compute; reflexivity|].
  assert (Hh : highest_n flat_tail 9 !! 17 = Some (Some 9%Q))
    by (vm_compute; reflexivity).
  assert (Hl : lowest_n flat_tail 9 !! 17 = Some (Some 9%Q))
    by (vm_compute; reflexivity).
  assert (Hflat : (9 == 9)%Q) by reflexivity.
  split; [exact Hh|]. split; [exact Hl|]. split; [exact Hflat|].
  destruct (flat_window_rsv_nan_k_carried flat_tail 9 (ALPHA default_config)
              _ 17 9 9 ltac:(vm_compute; reflexivity) Hh Hl Hflat)
    as (Hnan & _ & Hcarry & _).
  split; [exact Hnan | exact (Hcarry 16 eq_refl)].
Defined.

(** C3 as stated fails: the window at position 17 of [flat_tail] is flat
    (highest high = lowest low = 9) and K there is 50, not NaN. *)
Lemma flat_window_k_defined_counterexample :
  ∃ rows k,
    compute_kd_recursive flat_tail 9 (ALPHA default_config) = Ret rows
    ∧ highest_n flat_tail 9 !! 17 = Some (Some 9%Q)
    ∧ lowest_n flat_tail 9 !! 17 = Some (Some 9%Q)
    ∧ rsv flat_tail 9 !! 17 = Some None
    ∧ K <$> rows !! 17 = Some (Some k)
    ∧ (k == 50)%Q
    ∧ K <$> rows !! 17 ≠ Some None.
Proof.
  eexists. eexists. split; [vm_compute; reflexivity|].
  split; [vm_compute; reflexivity|]. split; [vm_compute; reflexivity|].
  split; [vm_compute; reflexivity|]. split; [vm_compute; reflexivity|].
  split; [vm_compute; reflexivity|]. vm_compute. discriminate.
Qed.

Lemma kd_recursion_between_observations_witness :
  ∃ rows kp k,
    compute_kd_recursive flat_then_move 9 (ALPHA default_config) = Ret rows
    ∧ K <$> rows !! 16 = Some (Some kp)
    ∧ K <$> rows !! 18 = Some (Some k)
    ∧ (k == (qpow (1 - ALPHA default_config) 2 * kp
             + resume_wt (ALPHA default_config) 1 * (100 # 3))
            / (qpow (1 - ALPHA default_config) 2
               + resume_wt (ALPHA default_config) 1))%Q.
Proof.
  eexists.
  assert (Hrows : compute_kd_recursive flat_then_move 9 (ALPHA default_config)
                  = Ret ?[rows]) by (vm_compute; reflexivity).
  destruct (kd_recursion_between_observations flat_then_move 9
              (ALPHA default_config) _ Hrows) as (_ & _ & Hgap & _ & _).
  destruct (Hgap 16 (100 # 2)%Q 1 (100 # 3)%Q) as (kp & k & Hkp & Hk & Heq).
  - vm_compute; reflexivity.
  - intros j Hj. assert (j = 17) as -> by lia. vm_compute; reflexivity.
  - vm_compute; reflexivity.
  - exists kp, k. split; [exact Hrows|]. split; [exact Hkp|].
    split; [exact Hk | exact Heq].
Defined.

(** C6 as stated fails: at position 18 of [flat_then_move] (the RSV of
    position 17 is undefined) K is not [α·RSV + (1−α)·K(17)]. *)
Lemma seeded_recursion_counterexample :
  ∃ rows y kp k,
    compute_kd_recursive flat_then_move 9 (ALPHA default_config) = Ret rows
    ∧ rsv flat_then_move 9 !! 18 = Some (Some y)
    ∧ K <$> rows !! 17 = Some (Some kp)
    ∧ K <$> rows !! 18 = Some (Some k)
    ∧ ¬ (k == ALPHA default_config * y + (1 - ALPHA default_config) * kp)%Q.
Proof.
  eexists. eexists. eexists. eexists.
  split; [vm_compute; reflexivity|]. split; [vm_compute; reflexivity|].
  split; [vm_compute; reflexivity|]. split; [vm_compute; reflexivity|].
  apply Qeq_bool_neq. vm_compute. reflexivity.
Qed.

(** With [α] one half the observation after the gap weighs
    [1 − (1/2)^2 = 3/4]: on [flat_then_move] K(18) is
    [50/4 + 3/4 · 100/3 = 37.5] and D(18) is [43.75]. *)
Lemma resume_at_one_half :
  ∃ rows k d,
    compute_kd_recursive flat_then_move 9 (1 # 2) = Ret rows
    ∧ rsv flat_then_move 9 !! 17 = Some None
    ∧ K <$> rows !! 18 = Some (Some k) ∧ (k == 75 # 2)%Q
    ∧ D <$> rows !! 18 = Some (Some d) ∧ (d == 175 # 4)%Q.
Proof.
  eexists. eexists. eexists.
  split; [vm_compute; reflexivity|]. split; [vm_compute; reflexivity|].
  split; [vm_compute; reflexivity|]. split; [vm_compute; reflexivity|].
  split; [vm_compute; reflexivity|]. vm_compute; reflexivity.
Qed.

(** ** The signal state machine *)

Section MachineProps.
Context {Timestamp : Type} `{!Calendar Timestamp} `{!JsonCodec}.
Implicit Types (w : @World Timestamp) (sg : @Signals Timestamp)
  (l : @Locals Timestamp) (st : SymState).

Ltac proj :=
  cbn [l_world sym_state l_alerts mem files sent position alerts last_entry
       andb negb].

Lemma save_state_lookup cfg (state : gmap string SymState)
    (fs : gmap string File) :
  save_state cfg state fs !! STATE_FILE cfg = Some (Text (json_dump state)).
Proof.
  unfold save_state, os_replace. rewrite lookup_insert_eq.
  apply lookup_insert_eq.
Qed.

Lemma fired_refl w : fired w w = [].
Proof. unfold fired. by rewrite drop_all. Qed.

Lemma fired_app w w' (al : list (@Alert Timestamp)) :
  sent w' = sent w ++ al → fired w w' = map a_rule al.
Proof. unfold fired. intros ->. by rewrite drop_app_length. Qed.

Lemma keys_differ sg : ex_key sg ≠ full_key sg.
Proof. unfold ex_key, full_key. cbn [String.append]. discriminate. Qed.

Lemma state_get_insert_eq (m : gmap string SymState) sym st :
  state_get (<[sym := st]> m) sym = st.
Proof. unfold state_get. by rewrite lookup_insert_eq. Qed.

Lemma state_get_insert_ne (m : gmap string SymState) sym sym' st :
  sym ≠ sym' → state_get (<[sym := st]> m) sym' = state_get m sym'.
Proof. intros Hne. unfold state_get. by rewrite lookup_insert_ne. Qed.

Lemma coherent_enter sym w : coherent sym (enter sym w).
Proof. done. Qed.

Lemma enter_coherent sym l : coherent sym l → enter sym (l_world l) = l.
Proof.
  destruct l as [w st al]. unfold coherent, enter. proj.
  by intros [<- ->].
Qed.

Lemma coherent_reduce_rule cfg sym recipients inst sg l :
  coherent sym l → coherent sym (reduce_rule cfg sym recipients inst sg l).
Proof.
  unfold reduce_rule. destruct (reduce_cond sg l); [|done].
  intros _. unfold coherent, mark_alert, store_and_save. proj.
  by rewrite state_get_insert_eq.
Qed.

Lemma coherent_exit_rule cfg sym recipients inst sg l :
  coherent sym l → coherent sym (exit_rule cfg sym recipients inst sg l).
Proof.
  unfold exit_rule. destruct (exit_cond sg l); [|done].
  intros [_ Hal]. unfold coherent, store_and_save. proj.
  by rewrite state_get_insert_eq.
Qed.

Lemma transitions_noop cfg sym recipients inst sg w :
  entry_cond sg (sym_state (enter sym w)) = false →
  reduce_cond sg (enter sym w) = false →
  exit_cond sg (enter sym w) = false →
  transitions cfg sym recipients inst sg w = w.
Proof.
  intros He Hr Hx. unfold transitions. rewrite He.
  unfold reduce_rule. rewrite Hr. unfold exit_rule. by rewrite Hx.
Qed.

Lemma exit_cond_exit_rule cfg sym recipients inst sg l :
  exit_cond sg (exit_rule cfg sym recipients inst sg l) = false.
Proof.
  unfold exit_rule. destruct (exit_cond sg l) eqn:Hx; [|done].
  unfold exit_cond. proj. by rewrite bool_decide_eq_false_2.
Qed.

Lemma reduce_cond_reduce_rule cfg sym recipients inst sg l :
  reduce_cond sg (reduce_rule cfg sym recipients inst sg l) = false.
Proof.
  unfold reduce_rule. destruct (reduce_cond sg l) eqn:Hr; [|done].
  unfold reduce_cond, mark_alert, alerted. proj.
  rewrite lookup_insert_eq. by rewrite andb_false_r.
Qed.

Lemma reduce_cond_exit_rule cfg sym recipients inst sg l :
  reduce_cond sg l = false →
  reduce_cond sg (exit_rule cfg sym recipients inst sg l) = false.
Proof.
  unfold exit_rule. destruct (exit_cond sg l); [|done].
  intros _. unfold reduce_cond. proj. by rewrite bool_decide_eq_false_2.
Qed.

Lemma entry_cond_reduce_rule cfg sym recipients inst sg l :
  entry_cond sg (sym_state (reduce_rule cfg sym recipients inst sg l))
  = entry_cond sg (sym_state l).
Proof. unfold reduce_rule. by destruct (reduce_cond sg l). Qed.

Lemma entry_cond_exit_rule cfg sym recipients inst sg l :
  entry_cond sg (sym_state l) = false →
  entry_cond sg (sym_state (exit_rule cfg sym recipients inst sg l)) = false.
Proof.
  unfold exit_rule. destruct (exit_cond sg l) eqn:Hx; [|done].
  intros _. apply andb_true_iff in Hx as [[_ Hwk%negb_true_iff]%andb_true_iff _].
  unfold entry_cond. proj. rewrite Hwk. by rewrite andb_false_r.
Qed.

Lemma enter_entry_rule cfg sym recipients inst sg l :
  enter sym (entry_rule cfg sym recipients inst sg l)
  = {| l_world := entry_rule cfg sym recipients inst sg l;
       sym_state := {| position := Some "long";
                       alerts := alerts (sym_state l);
                       last_entry := Some (ts_str (d_ts sg)) |};
       l_alerts := default ∅ (alerts (sym_state l)) |}.
Proof.
  unfold enter, entry_rule, store_and_save. proj.
  by rewrite state_get_insert_eq.
Qed.

Lemma transitions_idem cfg sym recipients inst sg w :
  transitions cfg sym recipients inst sg
    (transitions cfg sym recipients inst sg w)
  = transitions cfg sym recipients inst sg w.
Proof.
  set (w1 := transitions cfg sym recipients inst sg w).
  apply transitions_noop; subst w1; unfold transitions;
    destruct (entry_cond sg (sym_state (enter sym w))) eqn:Hentry.
  1,3,5: rewrite enter_entry_rule;
    apply andb_true_iff in Hentry
      as [[[_ Hwk]%andb_true_iff Hen]%andb_true_iff _].
  - unfold entry_cond. proj. by rewrite bool_decide_eq_false_2.
  - unfold reduce_cond. proj.
    rewrite (crossed_exclusive _ _ _ _ Hen : exit_cross sg = false).
    by rewrite andb_false_r.
  - unfold exit_cond. proj. rewrite Hwk. by rewrite andb_false_r.
  - rewrite enter_coherent
      by apply coherent_exit_rule, coherent_reduce_rule, coherent_enter.
    apply entry_cond_exit_rule. by rewrite entry_cond_reduce_rule.
  - rewrite enter_coherent
      by apply coherent_exit_rule, coherent_reduce_rule, coherent_enter.
    apply reduce_cond_exit_rule, reduce_cond_reduce_rule.
  - rewrite enter_coherent
      by apply coherent_exit_rule, coherent_reduce_rule, coherent_enter.
    apply exit_cond_exit_rule.
Qed.

(** *** What each rule does *)

Lemma reduce_rule_spec cfg sym recipients inst sg l :
  let l1 := reduce_rule cfg sym recipients inst sg l in
  sent (l_world l1)
    = sent (l_world l)
      ++ (if reduce_cond sg l
          then [mkAlert Reduce sym recipients sg inst] else [])
  ∧ position (sym_state l1) = position (sym_state l)
  ∧ (∀ s, s ≠ sym → mem (l_world l1) !! s = mem (l_world l) !! s)
  ∧ (reduce_cond sg l = true → persisted cfg (l_world l1))
  ∧ (∀ key, key ≠ ex_key sg → alerted l1 key = alerted l key).
Proof.
  unfold reduce_rule. destruct (reduce_cond sg l) eqn:Hr.
  - unfold mark_alert, store_and_save, send_to, alerted. proj.
    split_and!; [done | done | | | ].
    + intros s Hs. by rewrite lookup_insert_ne.
    + intros _. apply save_state_lookup.
    + intros key Hkey. by rewrite lookup_insert_ne.
  - cbn zeta. rewrite app_nil_r. by split_and!.
Qed.

Lemma exit_rule_spec cfg sym recipients inst sg l :
  let l2 := exit_rule cfg sym recipients inst sg l in
  sent (l_world l2)
    = sent (l_world l)
      ++ (if exit_cond sg l
          then [mkAlert Exit sym recipients sg inst] else [])
  ∧ position (sym_state l2)
    = (if exit_cond sg l then Some "flat" else position (sym_state l))
  ∧ (∀ s, s ≠ sym → mem (l_world l2) !! s = mem (l_world l) !! s)
  ∧ (exit_cond sg l = true → persisted cfg (l_world l2))
  ∧ (exit_cond sg l = false → l2 = l)
  ∧ alerts (sym_state l2) = alerts (sym_state l).
Proof.
  unfold exit_rule. destruct (exit_cond sg l) eqn:Hx.
  - unfold store_and_save, send_to. proj.
    split_and!; [done | done | | | done | done].
    + intros s Hs. by rewrite lookup_insert_ne.
    + intros _. apply save_state_lookup.
  - cbn zeta. rewrite app_nil_r. by split_and!.
Qed.

Lemma entry_rule_spec cfg sym recipients inst sg l :
  let w' := entry_rule cfg sym recipients inst sg l in
  sent w' = sent (l_world l) ++ [mkAlert Entry sym recipients sg inst]
  ∧ state_get (mem w') sym
    = {| position := Some "long";
         alerts := alerts (sym_state l);
         last_entry := Some (ts_str (d_ts sg)) |}
  ∧ (∀ s, s ≠ sym → mem w' !! s = mem (l_world l) !! s)
  ∧ persisted cfg w'.
Proof.
  unfold entry_rule, store_and_save, send_to. proj.
  split_and!; [done | | | ].
  - by rewrite state_get_insert_eq.
  - intros s Hs. by rewrite lookup_insert_ne.
  - apply save_state_lookup.
Qed.

(** One invocation of the rules, by what was sent and what is stored. *)
Lemma transitions_spec cfg sym recipients inst sg w :
  let w' := transitions cfg sym recipients inst sg w in
  (entry_cond sg (state_get (mem w) sym) = true
   ∧ w' = entry_rule cfg sym recipients inst sg (enter sym w)
   ∧ fired w w' = [Entry]
   ∧ stored_position w sym = Some "flat"
   ∧ stored_position w' sym = Some "long")
  ∨ (entry_cond sg (state_get (mem w) sym) = false
     ∧ ∃ r x : bool,
         r = reduce_cond sg (enter sym w)
         ∧ x = exit_cond sg
                 (reduce_rule cfg sym recipients inst sg (enter sym w))
         ∧ fired w w'
           = (if r then [Reduce] else []) ++ (if x then [Exit] else [])
         ∧ stored_position w' sym
           = (if x then Some "flat" else stored_position w sym)
         ∧ (x = true → stored_position w sym = Some "long")).
Proof.
  unfold transitions.
  change (sym_state (enter sym w)) with (state_get (mem w) sym).
  destruct (entry_cond sg (state_get (mem w) sym)) eqn:Hentry.
  - left. cbn zeta.
    destruct (entry_rule_spec cfg sym recipients inst sg (enter sym w))
      as (Hsent & Hget & _ & _).
    split_and!; [done | done | | | ].
    + exact (fired_app w _ _ Hsent).
    + apply andb_true_iff in Hentry
        as [[[Hflat%bool_decide_eq_true _]%andb_true_iff _]%andb_true_iff _].
      done.
    + unfold stored_position. by rewrite Hget.
  - right. split; [done|]. cbn zeta.
    set (l0 := enter sym w).
    set (l1 := reduce_rule cfg sym recipients inst sg l0).
    set (l2 := exit_rule cfg sym recipients inst sg l1).
    destruct (reduce_rule_spec cfg sym recipients inst sg l0)
      as (Hs1 & Hp1 & _ & _ & _).
    destruct (exit_rule_spec cfg sym recipients inst sg l1)
      as (Hs2 & Hp2 & _ & _ & _ & _).
    fold l1 in Hs1, Hp1. fold l2 in Hs2, Hp2.
    assert (Hco : coherent sym l2)
      by apply coherent_exit_rule, coherent_reduce_rule, coherent_enter.
    exists (reduce_cond sg l0), (exit_cond sg l1).
    split_and!; [done | done | | | ].
    + rewrite Hs1, <- app_assoc in Hs2.
      rewrite (fired_app w (l_world l2) _ Hs2).
      by destruct (reduce_cond sg l0), (exit_cond sg l1).
    + unfold stored_position. destruct Hco as [<- _].
      rewrite Hp2. destruct (exit_cond sg l1); [done|]. by rewrite Hp1.
    + intros Hx. apply andb_true_iff in Hx
        as [[Hlong%bool_decide_eq_true _]%andb_true_iff _].
      by rewrite Hp1 in Hlong.
Qed.

Lemma process_symbol_eval cfg sym recipients feed sg w :
  evaluate cfg feed = Ret (Some sg) →
  process_symbol cfg sym recipients feed w
  = Ret (transitions cfg sym recipients (inst_line feed) sg w).
Proof. intros Hev. unfold process_symbol. by rewrite Hev. Qed.

Lemma process_symbol_cases cfg sym recipients feed w w' :
  process_symbol cfg sym recipients feed w = Ret w' →
  w' = w
  ∨ ∃ sg, evaluate cfg feed = Ret (Some sg)
          ∧ w' = transitions cfg sym recipients (inst_line feed) sg w.
Proof.
  unfold process_symbol.
  destruct (evaluate cfg feed) as [[sg|]|e]; intros Hret;
    inversion Hret; eauto.
Qed.

(** C1 on the code: with the position long, the weekly filter off and
    the key [weekly_off@<date>] not fired, the Exit alert is sent, the
    position becomes flat and the state is saved, but the key is still
    not fired afterwards. *)
Theorem exit_fires_key_stays_unmarked cfg sym recipients feed sg w :
  evaluate cfg feed = Ret (Some sg) →
  stored_position w sym = Some "long" →
  weekly_ok sg = false →
  stored_alerted w sym (full_key sg) = false →
  ∃ w', process_symbol cfg sym recipients feed w = Ret w'
    ∧ Exit ∈ fired w w'
    ∧ stored_position w' sym = Some "flat"
    ∧ persisted cfg w'
    ∧ stored_alerted w' sym (full_key sg) = false.
Proof.
  intros Hev Hlong Hwk Hkey. eexists. split; [by apply process_symbol_eval|].
  set (inst := inst_line feed).
  unfold transitions.
  change (sym_state (enter sym w)) with (state_get (mem w) sym).
  assert (entry_cond sg (state_get (mem w) sym) = false) as ->.
  { unfold entry_cond. unfold stored_position in Hlong. rewrite Hlong.
    by rewrite bool_decide_eq_false_2. }
  set (l0 := enter sym w).
  set (l1 := reduce_rule cfg sym recipients inst sg l0).
  set (l2 := exit_rule cfg sym recipients inst sg l1).
  destruct (reduce_rule_spec cfg sym recipients inst sg l0)
    as (Hs1 & Hp1 & _ & _ & Hal1).
  destruct (exit_rule_spec cfg sym recipients inst sg l1)
    as (Hs2 & Hp2 & _ & Hper & _ & Hal2).
  fold l1 in Hs1, Hp1, Hal1. fold l2 in Hs2, Hp2, Hper, Hal2.
  assert (Hco1 : coherent sym l1)
    by apply coherent_reduce_rule, coherent_enter.
  assert (Hco2 : coherent sym l2) by by apply coherent_exit_rule.
  assert (Hal : alerted l1 (full_key sg) = false).
  { rewrite Hal1; [exact Hkey|]. intros Heq. by apply (keys_differ sg). }
  assert (Hx : exit_cond sg l1 = true).
  { unfold exit_cond. rewrite Hp1, Hal, Hwk.
    by rewrite bool_decide_eq_true_2. }
  rewrite Hx in Hs2, Hp2. split_and!.
  - rewrite Hs1, <- app_assoc in Hs2.
    rewrite (fired_app w (l_world l2) _ Hs2), map_app.
    apply elem_of_app. right. apply list_elem_of_singleton. done.
  - unfold stored_position. by destruct Hco2 as [<- _].
  - by apply Hper.
  - unfold stored_alerted. destruct Hco2 as [<- _]. rewrite Hal2.
    destruct Hco1 as [_ <-]. exact Hal.
Qed.

(** C2: running the evaluation again on the world left by a first run,
    with the same inputs, returns that world unchanged: nothing is
    sent, the state mapping and the files are as they were. *)
Theorem second_run_is_silent cfg sym recipients feed w w1 :
  process_symbol cfg sym recipients feed w = Ret w1 →
  process_symbol cfg sym recipients feed w1 = Ret w1.
Proof.
  unfold process_symbol.
  destruct (evaluate cfg feed) as [[sg|]|e]; intros Hret;
    inversion Hret as [Hw1]; [|done].
  cbn. by rewrite !transitions_idem.
Qed.

(** C4: from a flat position with the weekly filter on, a golden cross
    and the close above the daily average, exactly the Entry alert is
    sent, the position becomes long, [last_entry] is the stamp of the
    daily bar, the fired keys are untouched and the state is saved. *)
Theorem entry_fires cfg sym recipients feed sg w :
  evaluate cfg feed = Ret (Some sg) →
  stored_position w sym = Some "flat" →
  weekly_ok sg = true → entry_cross sg = true → daily_trend_ok sg = true →
  ∃ w', process_symbol cfg sym recipients feed w = Ret w'
    ∧ sent w' = sent w ++ [mkAlert Entry sym recipients sg (inst_line feed)]
    ∧ fired w w' = [Entry]
    ∧ state_get (mem w') sym
      = {| position := Some "long";
           alerts := alerts (state_get (mem w) sym);
           last_entry := Some (ts_str (d_ts sg)) |}
    ∧ persisted cfg w'.
Proof.
  intros Hev Hflat Hwk Hen Htr.
  eexists. split; [by apply process_symbol_eval|].
  unfold transitions.
  change (sym_state (enter sym w)) with (state_get (mem w) sym).
  assert (entry_cond sg (state_get (mem w) sym) = true) as ->.
  { unfold entry_cond. unfold stored_position in Hflat.
    rewrite Hflat, Hwk, Hen, Htr. by rewrite bool_decide_eq_true_2. }
  destruct (entry_rule_spec cfg sym recipients (inst_line feed) sg
              (enter sym w)) as (Hsent & Hget & _ & Hper).
  split_and!; [done | exact (fired_app w _ _ Hsent) | done | done].
Qed.

(** *** Position changes *)

Lemma entry_not_fired_by_others (r x : bool) :
  Entry ∉ (if r then [Reduce] else []) ++ (if x then [Exit] else []).
Proof.
  destruct r, x; cbn [app]; intros Hin;
    repeat (apply elem_of_cons in Hin as [Hin|Hin]; [discriminate|]);
    by apply elem_of_nil in Hin.
Qed.

Lemma exit_fired_by_others (r x : bool) :
  Exit ∈ (if r then [Reduce] else []) ++ (if x then [Exit] else [])
  ↔ x = true.
Proof.
  split.
  - destruct r, x; cbn [app]; intros Hin; [done | | done | ];
      repeat (apply elem_of_cons in Hin as [Hin|Hin]; [discriminate|]);
      by apply elem_of_nil in Hin.
  - intros ->. apply elem_of_app. right. by apply list_elem_of_singleton.
Qed.

(** One pass of the loop of [main]: which alerts go with which change
    of the position. *)
Lemma main_step_position cfg sym recipients feed w :
  let w' := main_step cfg sym recipients w feed in
  (Entry ∈ fired w w' →
     stored_position w sym = Some "flat"
     ∧ stored_position w' sym = Some "long")
  ∧ (Exit ∈ fired w w' →
       stored_position w sym = Some "long"
       ∧ stored_position w' sym = Some "flat")
  ∧ (Entry ∉ fired w w' → Exit ∉ fired w w' →
       stored_position w' sym = stored_position w sym).
Proof.
  unfold main_step.
  destruct (process_symbol cfg sym recipients feed w) as [w'|e] eqn:Hps;
    cbn zeta.
  2: { rewrite fired_refl. split_and!; [by intros ?%elem_of_nil..|done]. }
  apply process_symbol_cases in Hps as [->|(sg & _ & ->)].
  { rewrite fired_refl. split_and!; [by intros ?%elem_of_nil..|done]. }
  destruct (transitions_spec cfg sym recipients (inst_line feed) sg w)
    as [(_ & _ & Hf & Hp & Hp')|(_ & r & x & _ & _ & Hf & Hp' & Hx)];
    rewrite Hf.
  - split_and!; [done | | ].
    + intros Hin%list_elem_of_singleton. discriminate.
    + intros Hno. exfalso. apply Hno, list_elem_of_singleton. done.
  - rewrite Hp'. split_and!.
    + by intros []%entry_not_fired_by_others.
    + intros ->%exit_fired_by_others. by split; [apply Hx|].
    + intros _ Hnx. destruct x eqn:Ex; [|done].
      exfalso. by apply Hnx, (exit_fired_by_others r true).
Qed.

Lemma replay_lookup_0 cfg sym recipients feed feeds w :
  replay cfg sym recipients (feed :: feeds) w !! 0
  = Some (fired w (main_step cfg sym recipients w feed)).
Proof. done. Qed.

(** From a long position, no Entry is sent before an Exit. *)
Lemma replay_long_needs_exit cfg sym recipients feeds :
  ∀ w j fj,
    stored_position w sym = Some "long" →
    replay cfg sym recipients feeds w !! j = Some fj →
    Entry ∈ fj →
    ∃ k fk, k < j ∧ replay cfg sym recipients feeds w !! k = Some fk
            ∧ Exit ∈ fk.
Proof.
  induction feeds as [|feed feeds IH]; intros w j fj Hlong Hj Hen;
    [done|].
  destruct (main_step_position cfg sym recipients feed w)
    as (HE & HX & Hsame).
  destruct j as [|j].
  - cbn in Hj. inversion Hj; subst fj.
    apply HE in Hen as [Hflat _]. congruence.
  - cbn in Hj.
    destruct (decide (Exit ∈ fired w (main_step cfg sym recipients w feed)))
      as [Hex|Hnex].
    + exists 0, (fired w (main_step cfg sym recipients w feed)).
      split_and!; [lia | done | done].
    + assert (Hlong' :
        stored_position (main_step cfg sym recipients w feed) sym
        = Some "long").
      { rewrite Hsame; [done | | done].
        intros [Hflat _]%HE. congruence. }
      destruct (IH _ _ _ Hlong' Hj Hen) as (k & fk & Hk & Hfk & Hex).
      exists (S k), fk. split_and!; [lia | done | done].
Qed.

Lemma replay_entry_exit_entry cfg sym recipients feeds :
  ∀ w i j fi fj,
    i < j →
    replay cfg sym recipients feeds w !! i = Some fi → Entry ∈ fi →
    replay cfg sym recipients feeds w !! j = Some fj → Entry ∈ fj →
    ∃ k fk, i < k < j ∧ replay cfg sym recipients feeds w !! k = Some fk
            ∧ Exit ∈ fk.
Proof.
  induction feeds as [|feed feeds IH]; intros w i j fi fj Hij Hi Hei Hj Hej;
    [done|].
  destruct j as [|j]; [lia|]. cbn in Hj.
  destruct i as [|i].
  - cbn in Hi. inversion Hi; subst fi.
    destruct (main_step_position cfg sym recipients feed w) as (HE & _ & _).
    apply HE in Hei as [_ Hlong].
    destruct (replay_long_needs_exit _ _ _ _ _ _ _ Hlong Hj Hej)
      as (k & fk & Hk & Hfk & Hex).
    exists (S k), fk. split_and!; [lia | lia | done | done].
  - cbn in Hi.
    destruct (IH _ i j fi fj ltac:(lia) Hi Hei Hj Hej)
      as (k & fk & Hk & Hfk & Hex).
    exists (S k), fk. split_and!; [lia | lia | done | done].
Qed.

(** C5: in every invocation the position goes from flat to long only
    with an Entry alert and from long to flat only with an Exit alert,
    it stays as it is when neither is sent (a Reduce alone), an Entry
    is sent only from flat and leaves the position long; and over
    successive invocations two Entry alerts have an Exit alert
    between them. *)
Theorem position_follows_alerts cfg sym recipients :
  (∀ feed w w',
      process_symbol cfg sym recipients feed w = Ret w' →
      (stored_position w sym = Some "flat" →
       stored_position w' sym = Some "long" → Entry ∈ fired w w')
      ∧ (stored_position w sym = Some "long" →
         stored_position w' sym = Some "flat" → Exit ∈ fired w w')
      ∧ (fired w w' = [Reduce] →
         stored_position w' sym = stored_position w sym)
      ∧ (Entry ∈ fired w w' →
         stored_position w sym = Some "flat"
         ∧ stored_position w' sym = Some "long"))
  ∧ (∀ feeds w i j fi fj,
        i < j →
        replay cfg sym recipients feeds w !! i = Some fi → Entry ∈ fi →
        replay cfg sym recipients feeds w !! j = Some fj → Entry ∈ fj →
        ∃ k fk, i < k < j
                ∧ replay cfg sym recipients feeds w !! k = Some fk
                ∧ Exit ∈ fk).
Proof.
  split; [|apply replay_entry_exit_entry].
  intros feed w w' Hps.
  pose proof (main_step_position cfg sym recipients feed w) as Hstep.
  unfold main_step in Hstep. rewrite Hps in Hstep. cbn zeta in Hstep.
  destruct Hstep as (HE & HX & Hsame).
  split_and!; [ | | | done].
  - intros Hflat Hlong.
    destruct (decide (Entry ∈ fired w w')) as [|Hne]; [done|].
    destruct (decide (Exit ∈ fired w w')) as [[Hl _]%HX|Hnx]; [congruence|].
    rewrite (Hsame Hne Hnx) in Hlong. congruence.
  - intros Hlong Hflat.
    destruct (decide (Exit ∈ fired w w')) as [|Hnx]; [done|].
    destruct (decide (Entry ∈ fired w w')) as [[Hf _]%HE|Hne]; [congruence|].
    rewrite (Hsame Hne Hnx) in Hflat. congruence.
  - intros Hf. apply Hsame; rewrite Hf;
      intros Hin%list_elem_of_singleton; discriminate.
Qed.

(** *** Frame *)

Lemma transitions_frame cfg sym recipients inst sg w :
  let w' := transitions cfg sym recipients inst sg w in
  (∀ s, s ≠ sym → mem w' !! s = mem w !! s)
  ∧ (fired w w' ≠ [] → persisted cfg w').
Proof.
  unfold transitions.
  destruct (entry_cond sg (sym_state (enter sym w))).
  - destruct (entry_rule_spec cfg sym recipients inst sg (enter sym w))
      as (_ & _ & Hfr & Hper). by split.
  - cbn zeta.
    set (l0 := enter sym w).
    set (l1 := reduce_rule cfg sym recipients inst sg l0).
    set (l2 := exit_rule cfg sym recipients inst sg l1).
    destruct (reduce_rule_spec cfg sym recipients inst sg l0)
      as (Hs1 & _ & Hfr1 & Hper1 & _).
    destruct (exit_rule_spec cfg sym recipients inst sg l1)
      as (Hs2 & _ & Hfr2 & Hper2 & Hid2 & _).
    fold l1 in Hs1, Hfr1, Hper1. fold l2 in Hs2, Hfr2, Hper2, Hid2.
    split.
    + intros s Hs. rewrite Hfr2 by done. by apply Hfr1.
    + destruct (exit_cond sg l1) eqn:Hx; [intros _; by apply Hper2|].
      rewrite (Hid2 eq_refl) in *.
      destruct (reduce_cond sg l0) eqn:Hr; [intros _; by apply Hper1|].
      rewrite app_nil_r in Hs1. intros Hne. exfalso. apply Hne.
      unfold fired. rewrite Hs1. by rewrite drop_all.
Qed.

(** C9: an invocation for [sym] leaves the entry of every other symbol
    in the state mapping as it was, and when it sent an alert the state
    file holds the dump of that whole mapping. *)
Theorem other_symbols_untouched cfg sym recipients feed w w' s :
  process_symbol cfg sym recipients feed w = Ret w' →
  s ≠ sym →
  mem w' !! s = mem w !! s
  ∧ (fired w w' ≠ [] →
     files w' !! STATE_FILE cfg = Some (Text (json_dump (mem w')))).
Proof.
  intros [->|(sg & _ & ->)]%process_symbol_cases Hs.
  - split; [done|]. by rewrite fired_refl.
  - destruct (transitions_frame cfg sym recipients (inst_line feed) sg w)
      as [Hfr Hper].
    split; [by apply Hfr | exact Hper].
Qed.

(** *** Short history *)

(** C8, as the code has it: when the trimmed daily frame or the weekly
    frame is shorter than [max(MA+2, K_PERIOD+2)] and neither download
    is empty, the evaluation returns normally with the world as it was:
    nothing sent, nothing stored, nothing written.  A download without a
    bar makes [fetch_ohlc] raise [RuntimeError] instead, before the
    length test; the loop of [main] catches it, and there too the world
    is as it was. *)
Theorem short_history_is_skipped cfg sym recipients feed w raw_d raw_w :
  dl_daily feed = Ret raw_d →
  dl_weekly feed = Ret raw_w →
  length (last_completed_daily (local_now feed) raw_d)
    < (DAILY_MA cfg + 2) `max` (K_PERIOD cfg + 2)
  ∨ length raw_w < (WEEKLY_MA cfg + 2) `max` (K_PERIOD cfg + 2) →
  (raw_d ≠ [] ∧ raw_w ≠ [] →
   process_symbol cfg sym recipients feed w = Ret w)
  ∧ (raw_d = [] ∨ raw_w = [] →
     process_symbol cfg sym recipients feed w
     = Raise (RuntimeError "no data"))
  ∧ main_step cfg sym recipients w feed = w.
Proof.
  intros Hd Hw Hshort.
  assert (Hfd : fetch_ohlc feed "1d"
                = match raw_d with
                  | [] => Raise (RuntimeError "no data")
                  | _ => Ret raw_d
                  end).
  { unfold fetch_ohlc.
    rewrite (bool_decide_eq_true_2 ("1d" = "1d")) by done. by rewrite Hd. }
  assert (Hfw : fetch_ohlc feed "1wk"
                = match raw_w with
                  | [] => Raise (RuntimeError "no data")
                  | _ => Ret raw_w
                  end).
  { unfold fetch_ohlc.
    rewrite (bool_decide_eq_false_2 ("1wk" = "1d")) by done.
    rewrite (bool_decide_eq_true_2 ("1wk" = "1wk")) by done.
    by rewrite Hw. }
  assert (Hskip : bool_decide
                    (length (last_completed_daily (local_now feed) raw_d)
                     < need_d cfg)
                  || bool_decide (length raw_w < need_w cfg) = true).
  { apply orb_true_iff. unfold need_d, need_w.
    destruct Hshort; [left|right]; by apply bool_decide_eq_true_2. }
  assert (Hret : raw_d ≠ [] → raw_w ≠ [] →
                 process_symbol cfg sym recipients feed w = Ret w).
  { intros Hnd Hnw. unfold process_symbol, evaluate. rewrite Hfd, Hfw.
    destruct raw_d as [|b raw_d]; [done|].
    destruct raw_w as [|b' raw_w]; [done|].
    cbv [mbind Exc_bind]. by rewrite Hskip. }
  assert (Hraise : raw_d = [] ∨ raw_w = [] →
                   process_symbol cfg sym recipients feed w
                   = Raise (RuntimeError "no data")).
  { intros Hempty. unfold process_symbol, evaluate. rewrite Hfd, Hfw.
    destruct raw_d as [|b raw_d]; [done|].
    destruct Hempty as [?| ->]; done. }
  split_and!; [intros [? ?]; by apply Hret | done |].
  unfold main_step.
  destruct raw_d as [|b raw_d]; [by rewrite Hraise by (by left)|].
  destruct raw_w as [|b' raw_w]; [by rewrite Hraise by (by right)|].
  by rewrite Hret.
Qed.

(** *** State store *)

(** C10: [load_state] always returns a value; when the state file is
    absent, cannot be read or does not parse, that value is the empty
    mapping, under which every symbol is flat and no key has fired. *)
Theorem load_state_never_raises cfg (fs : gmap string File) :
  (∃ v, load_state cfg fs = Ret v)
  ∧ (fs !! STATE_FILE cfg = None → load_state cfg fs = Ret (PyDict ∅))
  ∧ (fs !! STATE_FILE cfg = Some Unreadable →
     load_state cfg fs = Ret (PyDict ∅))
  ∧ (∀ txt e, fs !! STATE_FILE cfg = Some (Text txt) →
              json_load txt = Raise e →
              load_state cfg fs = Ret (PyDict ∅))
  ∧ (∀ (files : gmap string File) (sent : list (@Alert Timestamp)) sym key,
       stored_position (mkWorld ∅ files sent) sym = Some "flat"
       ∧ stored_alerted (mkWorld ∅ files sent) sym key = false).
Proof.
  unfold load_state, open_read.
  destruct (fs !! STATE_FILE cfg) as [[txt|]|] eqn:Hfile.
  - rewrite bool_decide_eq_true_2 by eauto. cbn [mbind Exc_bind].
    split_and!; [ | done | done | | done].
    + destruct (json_load txt); cbn [try_except]; eauto.
    + intros txt' e [= <-] ->. done.
  - rewrite bool_decide_eq_true_2 by eauto.
    split_and!; [by eexists | done | done | done | done].
  - rewrite bool_decide_eq_false_2 by (by intros [? ?]).
    split_and!; [by eexists | done | done | done | done].
Qed.
End MachineProps.

(** *** The theorems at the sample data *)

Lemma exit_fires_key_stays_unmarked_witness :
  ∃ sg,
    evaluate default_config weekly_off_feed = Ret (Some sg)
    ∧ stored_position long_world "2330.TW" = Some "long"
    ∧ weekly_ok sg = false
    ∧ stored_alerted long_world "2330.TW" (full_key sg) = false
    ∧ ∃ w', process_symbol default_config "2330.TW" ∅ weekly_off_feed
              long_world = Ret w'
        ∧ Exit ∈ fired long_world w'
        ∧ stored_position w' "2330.TW" = Some "flat"
        ∧ persisted default_config w'
        ∧ stored_alerted w' "2330.TW" (full_key sg) = false.
Proof.
  eexists. split; [vm_compute; reflexivity|].
  split; [reflexivity|]. split; [vm_compute; reflexivity|].
  split; [vm_compute; reflexivity|].
  apply (exit_fires_key_stays_unmarked default_config "2330.TW" ∅
           weekly_off_feed _ long_world);
    vm_compute; reflexivity.
Defined.

Lemma second_run_is_silent_witness :
  ∃ w1,
    process_symbol default_config "2330.TW" ∅ entry_feed empty_world = Ret w1
    ∧ fired empty_world w1 = [Entry]
    ∧ process_symbol default_config "2330.TW" ∅ entry_feed w1 = Ret w1.
Proof.
  eexists. split; [vm_compute; reflexivity|].
  split; [vm_compute; reflexivity|].
  apply (second_run_is_silent default_config "2330.TW" ∅ entry_feed
           empty_world).
  vm_compute; reflexivity.
Defined.

Lemma entry_fires_witness :
  ∃ sg,
    evaluate default_config entry_feed = Ret (Some sg)
    ∧ stored_position empty_world "2330.TW" = Some "flat"
    ∧ weekly_ok sg = true ∧ entry_cross sg = true ∧ daily_trend_ok sg = true
    ∧ ∃ w', process_symbol default_config "2330.TW" ∅ entry_feed
              empty_world = Ret w'
        ∧ sent w' = sent empty_world ++ [mkAlert Entry "2330.TW" ∅ sg ""]
        ∧ fired empty_world w' = [Entry]
        ∧ state_get (mem w') "2330.TW"
          = {| position := Some "long";
               alerts := alerts (state_get (mem empty_world) "2330.TW");
               last_entry := Some (ts_str (d_ts sg)) |}
        ∧ persisted default_config w'.
Proof.
  eexists. split; [vm_compute; reflexivity|].
  split; [reflexivity|]. split; [vm_compute; reflexivity|].
  split; [vm_compute; reflexivity|]. split; [vm_compute; reflexivity|].
  apply (entry_fires default_config "2330.TW" ∅ entry_feed _ empty_world);
    vm_compute; reflexivity.
Defined.

Lemma position_follows_alerts_witness :
  ∃ w',
    process_symbol default_config "2330.TW" ∅ entry_feed empty_world = Ret w'
    ∧ Entry ∈ fired empty_world w'
    ∧ stored_position empty_world "2330.TW" = Some "flat"
    ∧ stored_position w' "2330.TW" = Some "long".
Proof.
  eexists. split; [vm_compute; reflexivity|].
  assert (Hin : Entry ∈ [Entry]) by (by apply list_elem_of_singleton).
  split; [exact Hin|].
  destruct (position_follows_alerts default_config "2330.TW" ∅) as [Hstep _].
  destruct (Hstep entry_feed empty_world _ ltac:(vm_compute; reflexivity))
    as (_ & _ & _ & Hentry).
  exact (Hentry Hin).
Defined.

Lemma other_symbols_untouched_witness :
  ∃ w',
    process_symbol default_config "2330.TW" ∅ weekly_off_feed long_world
    = Ret w'
    ∧ "2317.TW" ≠ "2330.TW"
    ∧ mem w' !! "2317.TW" = mem long_world !! "2317.TW"
    ∧ (fired long_world w' ≠ [] →
       files w' !! STATE_FILE default_config
       = Some (Text (json_dump (mem w')))).
Proof.
  eexists. split; [vm_compute; reflexivity|].
  assert (Hne : "2317.TW" ≠ "2330.TW") by discriminate.
  split; [exact Hne|].
  apply (other_symbols_untouched default_config "2330.TW" ∅ weekly_off_feed
           long_world _ "2317.TW"); [vm_compute; reflexivity | exact Hne].
Defined.

Lemma short_history_is_skipped_witness :
  dl_daily short_feed = Ret (take 5 ramp)
  ∧ dl_weekly short_feed = Ret ramp
  ∧ length (last_completed_daily (local_now short_feed) (take 5 ramp)) < 22
  ∧ take 5 ramp ≠ [] ∧ ramp ≠ []
  ∧ process_symbol default_config "2330.TW" ∅ short_feed long_world
    = Ret long_world
  ∧ main_step default_config "2330.TW" ∅ long_world short_feed = long_world.
Proof.
  split; [reflexivity|]. split; [reflexivity|].
  assert (Hlen : length (last_completed_daily (local_now short_feed)
                           (take 5 ramp)) < 22) by (vm_compute; lia).
  assert (Hd : take 5 ramp ≠ []) by discriminate.
  assert (Hw : ramp ≠ []) by discriminate.
  split; [exact Hlen|]. split; [exact Hd|]. split; [exact Hw|].
  destruct (short_history_is_skipped default_config "2330.TW" ∅ short_feed
              long_world (take 5 ramp) ramp eq_refl eq_refl
              (or_introl Hlen)) as (Hret & _ & Hmain).
  split; [exact (Hret (conj Hd Hw)) | exact Hmain].
Defined.

(** C8 as stated fails: with five daily bars and a weekly series
    without a bar, both below the minimum, the evaluation does not
    return: it raises to the loop of [main]. *)
Lemma empty_series_raises_counterexample :
  length (last_completed_daily (local_now empty_weekly_feed) (take 5 ramp))
    < need_d default_config
  ∧ dl_weekly empty_weekly_feed = Ret []
  ∧ @length (Bar string) [] < need_w default_config
  ∧ process_symbol default_config "2330.TW" ∅ empty_weekly_feed long_world
    = Raise (RuntimeError "no data")
  ∧ ∀ w', process_symbol default_config "2330.TW" ∅ empty_weekly_feed
            long_world ≠ Ret w'.
Proof.
  split; [vm_compute; lia|]. split; [reflexivity|].
  split; [vm_compute; lia|].
  assert (Hraise : process_symbol default_config "2330.TW" ∅
                     empty_weekly_feed long_world
                   = Raise (RuntimeError "no data"))
    by (vm_compute; reflexivity).
  split; [exact Hraise|]. intros w'. rewrite Hraise. discriminate.
Qed.

Lemma load_state_never_raises_witness :
  ({[ "kd_b_state.json" := Text "not json" ]} : gmap string File)
    !! STATE_FILE default_config = Some (Text "not json")
  ∧ json_load "not json" = Raise JSONDecodeError
  ∧ load_state default_config {[ "kd_b_state.json" := Text "not json" ]}
    = Ret (PyDict ∅).
Proof.
  assert (Hfile :
    ({[ "kd_b_state.json" := Text "not json" ]} : gmap string File)
      !! STATE_FILE default_config = Some (Text "not json"))
    by (vm_compute; reflexivity).
  split; [exact Hfile|]. split; [reflexivity|].
  destruct (load_state_never_raises (Timestamp := string) default_config
              {[ "kd_b_state.json" := Text "not json" ]})
    as (_ & _ & _ & Hparse & _).
  exact (Hparse "not json" JSONDecodeError Hfile eq_refl).
Defined.

(** ** Range of the oscillator *)

Lemma qmin_le_l x y : (qmin x y <= x)%Q.
Proof.
  unfold qmin. destruct (Qle_bool x y) eqn:E; [lra|].
  destruct (Qlt_le_dec y x) as [?|Hle]; [lra|].
  apply Qle_bool_iff in Hle. congruence.
Qed.

Lemma qmin_le_r x y : (qmin x y <= y)%Q.
Proof.
  unfold qmin. destruct (Qle_bool x y) eqn:E; [|lra].
  by apply Qle_bool_iff.
Qed.

Lemma qmax_ge_l x y : (x <= qmax x y)%Q.
Proof.
  unfold qmax. destruct (Qle_bool x y) eqn:E; [|lra].
  by apply Qle_bool_iff.
Qed.

Lemma qmax_ge_r x y : (y <= qmax x y)%Q.
Proof.
  unfold qmax. destruct (Qle_bool x y) eqn:E; [lra|].
  destruct (Qlt_le_dec y x) as [?|Hle]; [lra|].
  apply Qle_bool_iff in Hle. congruence.
Qed.

Lemma foldl_qmin_le ws : ∀ w,
  (foldl qmin w ws <= w)%Q ∧ ∀ x, x ∈ ws → (foldl qmin w ws <= x)%Q.
Proof.
  induction ws as [|a ws IH]; intros w; cbn.
  - split; [lra|]. by intros x ?%elem_of_nil.
  - destruct (IH (qmin w a)) as [Hw Hx].
    pose proof (qmin_le_l w a). pose proof (qmin_le_r w a).
    split; [lra|]. intros x [->|Hin]%elem_of_cons; [lra|by apply Hx].
Qed.

Lemma foldl_qmax_ge ws : ∀ w,
  (w <= foldl qmax w ws)%Q ∧ ∀ x, x ∈ ws → (x <= foldl qmax w ws)%Q.
Proof.
  induction ws as [|a ws IH]; intros w; cbn.
  - split; [lra|]. by intros x ?%elem_of_nil.
  - destruct (IH (qmax w a)) as [Hw Hx].
    pose proof (qmax_ge_l w a). pose proof (qmax_ge_r w a).
    split; [lra|]. intros x [->|Hin]%elem_of_cons; [lra|by apply Hx].
Qed.

Lemma agg_min_le ws m x : agg_min ws = Some m → x ∈ ws → (m <= x)%Q.
Proof.
  destruct ws as [|w ws]; [done|]. intros [= <-].
  destruct (foldl_qmin_le ws w) as [Hw Hx].
  intros [->|Hin]%elem_of_cons; [done | by apply Hx].
Qed.

Lemma agg_max_ge ws m x : agg_max ws = Some m → x ∈ ws → (x <= m)%Q.
Proof.
  destruct ws as [|w ws]; [done|]. intros [= <-].
  destruct (foldl_qmax_ge ws w) as [Hw Hx].
  intros [->|Hin]%elem_of_cons; [done | by apply Hx].
Qed.

Lemma window_last n (xs : list pyfloat) i v :
  0 < n → n ≤ i + 1 → xs !! i = Some v → v ∈ window n xs i.
Proof.
  intros Hn Hi Hv. unfold window. apply list_elem_of_lookup.
  exists (n - 1). rewrite lookup_take_lt by lia. rewrite lookup_drop.
  by replace (i + 1 - n + (n - 1)) with i by lia.
Qed.

Lemma observed_elem (ws : list pyfloat) qs v :
  observed ws = Some qs → v ∈ ws → ∃ q, v = Some q ∧ q ∈ qs.
Proof.
  unfold observed. intros Hall%mapM_Some_1 Hin.
  apply list_elem_of_lookup in Hin as [j Hj].
  destruct (Forall2_lookup_l _ _ _ _ _ Hall Hj) as (q & Hq & Hvq).
  exists q. split; [done|]. by eapply list_elem_of_lookup_2.
Qed.

(** A rolling minimum (maximum) bounds the cell it ends at. *)
Lemma rolling_min_le n (xs : list pyfloat) i m :
  i < length xs → rolling_at agg_min n xs i = Some m →
  ∃ q, xs !! i = Some (Some q) ∧ (m <= q)%Q.
Proof.
  intros Hi. unfold rolling_at. case_bool_decide as Hn; [|done].
  destruct (observed (window n xs i)) as [qs|] eqn:Hobs; [|done]. cbn.
  intros Hmin.
  destruct (lookup_lt_is_Some_2 xs i Hi) as [v Hv].
  destruct (observed_elem _ _ v Hobs) as (q & -> & Hq);
    [apply window_last; [lia..|done]|].
  exists q. split; [done|]. by eapply agg_min_le.
Qed.

Lemma rolling_max_ge n (xs : list pyfloat) i m :
  i < length xs → rolling_at agg_max n xs i = Some m →
  ∃ q, xs !! i = Some (Some q) ∧ (q <= m)%Q.
Proof.
  intros Hi. unfold rolling_at. case_bool_decide as Hn; [|done].
  destruct (observed (window n xs i)) as [qs|] eqn:Hobs; [|done]. cbn.
  intros Hmax.
  destruct (lookup_lt_is_Some_2 xs i Hi) as [v Hv].
  destruct (observed_elem _ _ v Hobs) as (q & -> & Hq);
    [apply window_last; [lia..|done]|].
  exists q. split; [done|]. by eapply agg_max_ge.
Qed.

(** The recursive mean stays within the range of its inputs, the
    weight of the history within 0 and 1. *)
Lemma ewm_step_bounded alpha lo hi acc cur :
  (0 < alpha)%Q → (alpha <= 1)%Q →
  (0 <= old_wt acc <= 1)%Q →
  (∀ w, weighted acc = Some w → (lo <= w <= hi)%Q) →
  (∀ c, cur = Some c → (lo <= c <= hi)%Q) →
  (0 <= old_wt (ewm_step alpha acc cur) <= 1)%Q
  ∧ ∀ w, weighted (ewm_step alpha acc cur) = Some w → (lo <= w <= hi)%Q.
Proof.
  intros Hpos Hle [Hwt0 Hwt1] Hw Hc. unfold ewm_step.
  assert (How : (0 <= old_wt acc * (1 - alpha) <= 1)%Q).
  { split; [apply Qmult_le_0_compat; lra|]. nra. }
  destruct (weighted acc) as [w|], cur as [c|]; cbn.
  - split; [lra|]. intros w' [= <-].
    destruct (Hw w eq_refl) as [Hw1 Hw2].
    destruct (Hc c eq_refl) as [Hc1 Hc2].
    destruct (Qeq_bool w c); [done|].
    set (ow := (old_wt acc * (1 - alpha))%Q) in *.
    rewrite (com_is_1 alpha Hpos).
    destruct (Qeq_bool alpha (1 # 2)) eqn:Ehalf.
    + apply Qeq_bool_iff in Ehalf.
      assert (Hlt : (ow <= 1 # 2)%Q) by (unfold ow; nra).
      assert (Hden : (0 < ow + (1 - ow))%Q) by lra.
      split.
      * apply Qle_shift_div_l; [done|]. nra.
      * apply Qle_shift_div_r; [done|]. nra.
    + assert (Hden : (0 < ow + alpha)%Q) by lra.
      split.
      * apply Qle_shift_div_l; [done|]. nra.
      * apply Qle_shift_div_r; [done|]. nra.
  - split; [done|]. intros w' [= <-]. by apply Hw.
  - split; [done|]. intros w' [= <-]. by apply Hc.
  - by split.
Qed.

Lemma ewm_foldl_bounded alpha lo hi vals : ∀ acc,
  (0 < alpha)%Q → (alpha <= 1)%Q →
  (0 <= old_wt acc <= 1)%Q →
  (∀ w, weighted acc = Some w → (lo <= w <= hi)%Q) →
  (∀ c, Some c ∈ vals → (lo <= c <= hi)%Q) →
  ∀ w, weighted (foldl (ewm_step alpha) acc vals) = Some w →
       (lo <= w <= hi)%Q.
Proof.
  induction vals as [|v vals IH]; intros acc Hpos Hle Hwt Hw Hvals; cbn;
    [done|].
  destruct (ewm_step_bounded alpha lo hi acc v Hpos Hle Hwt Hw) as [Hwt' Hw'].
  { intros c ->. apply Hvals. by left. }
  apply IH; [done..|]. intros c Hc. apply Hvals. by right.
Qed.

Lemma ewm_values_bounded alpha lo hi vals i k :
  (0 < alpha)%Q → (alpha <= 1)%Q →
  (∀ c, Some c ∈ vals → (lo <= c <= hi)%Q) →
  ewm_values alpha vals !! i = Some (Some k) →
  (lo <= k <= hi)%Q.
Proof.
  intros Hpos Hle Hvals Hk.
  assert (Hi : i < length vals).
  { apply lookup_lt_Some in Hk. by rewrite ewm_values_length in Hk. }
  rewrite ewm_values_lookup in Hk by done. injection Hk as Hk.
  unfold ewm_acc in Hk. destruct vals as [|v0 rest]; [done|].
  apply (ewm_foldl_bounded alpha lo hi (take i rest) (ewm_init v0));
    [done | done | cbn; lra | | | done].
  - cbn. intros w ->. apply Hvals. by left.
  - intros c (j & Hj & _)%elem_of_take. apply Hvals. right.
    by eapply list_elem_of_lookup_2.
Qed.

Section RangeProps.
Context {Timestamp : Type}.
Implicit Types (df : list (Bar Timestamp)) (rows : list (KDRow Timestamp)).

Lemma bar_in_range_spec df b l c h :
  forallb bar_in_range df = true → b ∈ df →
  Low b = Some l → Close b = Some c → High b = Some h → (l <= c <= h)%Q.
Proof.
  intros Hall Hin Hl Hc Hh.
  rewrite forallb_forall in Hall. apply list_elem_of_In, Hall in Hin.
  unfold bar_in_range in Hin. rewrite Hl, Hc, Hh in Hin.
  apply andb_true_iff in Hin as [H1 H2].
  by rewrite <- !Qle_bool_iff.
Qed.

Lemma rsv_lookup_bar df n i b :
  df !! i = Some b →
  rsv df n !! i
  = Some (f_div
            (f_mul (Some 100%Q)
               (f_sub (Close b) (rolling_at agg_min n (map Low df) i)))
            (replace_zero_nan
               (f_sub (rolling_at agg_max n (map High df) i)
                  (rolling_at agg_min n (map Low df) i)))).
Proof.
  intros Hb. pose proof (lookup_lt_Some _ _ _ Hb) as Hi.
  unfold rsv, denom, highest_n, lowest_n.
  rewrite lookup_zip_with, !list_lookup_fmap, !lookup_zip_with.
  rewrite !rolling_lookup by (by rewrite length_map).
  by rewrite list_lookup_fmap, Hb.
Qed.

Lemma rsv_bounded df n i x :
  forallb bar_in_range df = true →
  rsv df n !! i = Some (Some x) →
  (0 <= x <= 100)%Q.
Proof.
  intros Hbars Hx.
  pose proof (rsv_lookup_lt _ _ _ _ Hx) as Hi.
  destruct (lookup_lt_is_Some_2 df i Hi) as [b Hb].
  rewrite (rsv_lookup_bar _ _ _ _ Hb) in Hx. injection Hx as Hx.
  destruct (Close b) as [c|] eqn:Hc; [|done].
  destruct (rolling_at agg_min n (map Low df) i) as [lo|] eqn:Hlo;
    [|done].
  destruct (rolling_at agg_max n (map High df) i) as [hi|] eqn:Hhi;
    [|done].
  apply rolling_min_le in Hlo as (l & Hl & Hlol); [|by rewrite length_map].
  apply rolling_max_ge in Hhi as (h & Hh & Hhhi); [|by rewrite length_map].
  rewrite list_lookup_fmap, Hb in Hl, Hh. cbn in Hl, Hh.
  injection Hl as Hl. injection Hh as Hh.
  destruct (bar_in_range_spec df b l c h Hbars) as [Hlc Hch];
    [by eapply list_elem_of_lookup_2 | done..|].
  cbn in Hx. destruct (Qeq_bool (hi - lo) 0) eqn:Hz; [done|].
  cbn in Hx. rewrite Hz in Hx. injection Hx as <-.
  apply Qeq_bool_neq in Hz.
  assert (Hden : (0 < hi - lo)%Q).
  { destruct (Qlt_le_dec 0 (hi - lo)) as [?|Hle]; [done|].
    exfalso. apply Hz. lra. }
  split.
  - apply Qle_shift_div_l; [done|]. lra.
  - apply Qle_shift_div_r; [done|]. lra.
Qed.

(** For bars whose close lies between low and high, every defined K and
    every defined D is between 0 and 100. *)
Theorem kd_between_0_and_100 df n alpha rows i r :
  forallb bar_in_range df = true →
  compute_kd_recursive df n alpha = Ret rows →
  rows !! i = Some r →
  (∀ k, K r = Some k → (0 <= k <= 100)%Q)
  ∧ (∀ d, D r = Some d → (0 <= d <= 100)%Q).
Proof.
  intros Hbars Hrows Hr.
  destruct (compute_kd_alpha _ _ _ _ Hrows) as [Hpos Hle].
  destruct (compute_kd_columns _ _ _ _ Hrows) as (HK & HD & _).
  assert (HKb : ∀ c, Some c ∈ map K rows → (0 <= c <= 100)%Q).
  { intros c (j & Hj)%list_elem_of_lookup. rewrite HK in Hj.
    apply (ewm_values_bounded alpha 0 100 (rsv df n) j c); [done..| |done].
    intros x (j' & Hj')%list_elem_of_lookup. by eapply rsv_bounded. }
  split.
  - intros k Hk. apply HKb. apply list_elem_of_lookup. exists i.
    by rewrite list_lookup_fmap, Hr, <- Hk.
  - intros d Hd.
    apply (ewm_values_bounded alpha 0 100 (map K rows) i d); [done..|].
    rewrite <- HD. by rewrite list_lookup_fmap, Hr, <- Hd.
Qed.
End RangeProps.

(** ** Causality of the indicators *)

Lemma rolling_at_app agg n (xs ys : list pyfloat) i :
  i < length xs → rolling_at agg n (xs ++ ys) i = rolling_at agg n xs i.
Proof.
  intros Hi. unfold rolling_at. case_bool_decide as Hn; [|done].
  unfold window. rewrite drop_app_le by lia.
  rewrite take_app_le; [done|]. rewrite length_drop. lia.
Qed.

Lemma ewm_acc_app alpha (xs ys : list pyfloat) i :
  i < length xs → ewm_acc alpha (xs ++ ys) i = ewm_acc alpha xs i.
Proof.
  intros Hi. unfold ewm_acc. destruct xs as [|v0 rest]; [cbn in Hi; lia|].
  cbn [app]. rewrite take_app_le; [done|]. cbn in Hi. lia.
Qed.

Lemma ewm_values_app alpha (xs ys : list pyfloat) i :
  i < length xs →
  ewm_values alpha (xs ++ ys) !! i = ewm_values alpha xs !! i.
Proof.
  intros Hi. rewrite !ewm_values_lookup by (rewrite ?length_app; lia).
  by rewrite ewm_acc_app.
Qed.

Section CausalProps.
Context {Timestamp : Type}.
Implicit Types (df : list (Bar Timestamp)) (rows : list (KDRow Timestamp)).

Lemma rsv_app df extra n i :
  i < length df → rsv (df ++ extra) n !! i = rsv df n !! i.
Proof.
  intros Hi. destruct (lookup_lt_is_Some_2 df i Hi) as [b Hb].
  rewrite (rsv_lookup_bar (df ++ extra) n i b)
    by (by rewrite lookup_app_l).
  rewrite (rsv_lookup_bar df n i b) by done.
  rewrite !map_app, !rolling_at_app by (by rewrite length_map). done.
Qed.

Lemma rsv_app_take df extra n :
  take (length df) (rsv (df ++ extra) n) = rsv df n.
Proof.
  apply list_eq. intros i. destruct (decide (i < length df)) as [Hi|Hi].
  - rewrite lookup_take_lt by done. by apply rsv_app.
  - rewrite lookup_take_ge by lia. symmetry. apply lookup_ge_None.
    rewrite rsv_length. lia.
Qed.

Lemma KDRow_eq (r r' : KDRow Timestamp) :
  bar r = bar r' → K r = K r' → D r = D r' → r = r'.
Proof. destruct r, r'; cbn. by intros -> -> ->. Qed.

Lemma compute_kd_prefix df extra n alpha rows rows' :
  compute_kd_recursive df n alpha = Ret rows →
  compute_kd_recursive (df ++ extra) n alpha = Ret rows' →
  take (length df) rows' = rows.
Proof.
  intros Hrows Hrows'.
  pose proof (rows_length _ _ _ _ Hrows) as Hlen.
  pose proof (rows_length _ _ _ _ Hrows') as Hlen'.
  rewrite length_app in Hlen'.
  destruct (compute_kd_columns _ _ _ _ Hrows) as (HK & HD & Hb).
  destruct (compute_kd_columns _ _ _ _ Hrows') as (HK' & HD' & Hb').
  assert (HKi : ∀ i, i < length df → map K rows' !! i = map K rows !! i).
  { intros i Hi. rewrite HK, HK'.
    rewrite <- (take_drop (length df) (rsv (df ++ extra) n)).
    rewrite rsv_app_take. apply ewm_values_app. by rewrite rsv_length. }
  assert (HKt : take (length df) (map K rows') = map K rows).
  { apply list_eq. intros i. destruct (decide (i < length df)) as [Hi|Hi].
    - rewrite lookup_take_lt by done. by apply HKi.
    - rewrite lookup_take_ge by lia. symmetry. apply lookup_ge_None.
      rewrite length_map. lia. }
  assert (HDi : ∀ i, i < length df → map D rows' !! i = map D rows !! i).
  { intros i Hi. rewrite HD, HD'.
    rewrite <- (take_drop (length df) (map K rows')), HKt.
    apply ewm_values_app. rewrite length_map. lia. }
  apply list_eq. intros i. destruct (decide (i < length df)) as [Hi|Hi].
  - rewrite lookup_take_lt by done.
    destruct (lookup_lt_is_Some_2 rows i) as [r Hr]; [lia|].
    destruct (lookup_lt_is_Some_2 rows' i) as [r' Hr']; [lia|].
    rewrite Hr, Hr'. f_equal. apply KDRow_eq.
    + assert (Hbi : map bar rows' !! i = map bar rows !! i)
        by (by rewrite Hb', Hb, lookup_app_l).
      rewrite !list_lookup_fmap, Hr, Hr' in Hbi. by injection Hbi.
    + specialize (HKi i Hi). rewrite !list_lookup_fmap, Hr, Hr' in HKi.
      by injection HKi.
    + specialize (HDi i Hi). rewrite !list_lookup_fmap, Hr, Hr' in HDi.
      by injection HDi.
  - rewrite lookup_take_ge by lia. symmetry. apply lookup_ge_None. lia.
Qed.

(** The rows computed for a frame are not changed by bars that come
    after it: K and D at a position depend on the bars up to that
    position only. *)
Theorem kd_is_causal df extra n alpha rows rows' :
  compute_kd_recursive df n alpha = Ret rows →
  compute_kd_recursive (df ++ extra) n alpha = Ret rows' →
  take (length df) rows' = rows ∧ drop (length df) (map bar rows') = extra.
Proof.
  intros Hrows Hrows'. split; [by eapply compute_kd_prefix|].
  apply compute_kd_columns in Hrows' as (_ & _ & ->).
  by rewrite drop_app_length.
Qed.
End CausalProps.

(** ** What an evaluation reads *)

Section EvaluateProps.
Context {Timestamp : Type} `{!Calendar Timestamp}.
Implicit Types (df : list (Bar Timestamp)) (rows : list (KDRow Timestamp))
  (sg : @Signals Timestamp) (feed : @Feed Timestamp).

Lemma iloc_back_Ret {A : Type} (l : list A) back x :
  iloc_back l back = Ret x →
  0 < back ≤ length l ∧ l !! (length l - back) = Some x.
Proof.
  unfold iloc_back. case_bool_decide as Hb; [|done].
  destruct (l !! (length l - back)) eqn:E; [|done]. by intros [= ->].
Qed.


Lemma ma_length (series : list pyfloat) n : length (ma series n) = length series.
Proof. apply rolling_length. Qed.

(** What a successful evaluation read its signals from. *)
Lemma evaluate_inv cfg feed sg :
  evaluate cfg feed = Ret (Some sg) →
  ∃ raw_d df_w d_all w_all d_prev d_last w_row,
    fetch_ohlc feed "1d" = Ret raw_d
    ∧ fetch_ohlc feed "1wk" = Ret df_w
    ∧ compute_kd_recursive (last_completed_daily (local_now feed) raw_d)
        (K_PERIOD cfg) (ALPHA cfg) = Ret d_all
    ∧ compute_kd_recursive df_w (K_PERIOD cfg) (ALPHA cfg) = Ret w_all
    ∧ 2 ≤ length (dropna d_all) ∧ 2 ≤ length (dropna w_all)
    ∧ dropna d_all !! (length (dropna d_all) - 2) = Some d_prev
    ∧ dropna d_all !! (length (dropna d_all) - 1) = Some d_last
    ∧ dropna w_all !! (length (dropna w_all) - 2) = Some w_row
    ∧ ma (map (λ r, Close (bar r)) (dropna d_all)) (DAILY_MA cfg)
        !! (length (dropna d_all) - 1) = Some (d_ma20 sg)
    ∧ w_ma20 sg
      = default None
          (ma (map (λ r, Close (bar r)) (dropna w_all)) (WEEKLY_MA cfg)
             !! (length (dropna w_all) - 2))
    ∧ k_prev sg = K d_prev ∧ dprev_prev sg = D d_prev
    ∧ k_last sg = K d_last ∧ d_last_d sg = D d_last
    ∧ d_close sg = Close (bar d_last) ∧ d_ts sg = idx (bar d_last)
    ∧ w_k sg = K w_row ∧ w_d sg = D w_row
    ∧ w_close sg = Close (bar w_row) ∧ w_idx sg = idx (bar w_row).
Proof.
  intros Hev. unfold evaluate in Hev.
  destruct (fetch_ohlc feed "1d") as [raw_d|] eqn:Hd;
    cbv [mbind Exc_bind] in Hev; [|discriminate].
  destruct (fetch_ohlc feed "1wk") as [df_w|] eqn:Hw;
    cbv [mbind Exc_bind] in Hev; [|discriminate].
  destruct (_ || _) in Hev; [discriminate|].
  destruct (compute_kd_recursive _ _ _) as [d_all|] eqn:Hda in Hev;
    cbv [mbind Exc_bind] in Hev; [|discriminate].
  case_bool_decide as Hld; [discriminate|].
  destruct (compute_kd_recursive df_w _ _) as [w_all|] eqn:Hwa in Hev;
    cbv [mbind Exc_bind] in Hev; [|discriminate].
  case_bool_decide as Hlw; [discriminate|].
  destruct (iloc_back (dropna d_all) 2) as [d_prev|] eqn:Hp in Hev;
    cbv [mbind Exc_bind] in Hev; [|discriminate].
  destruct (iloc_back (dropna d_all) 1) as [d_last|] eqn:Hl in Hev;
    cbv [mbind Exc_bind] in Hev; [|discriminate].
  destruct (iloc_back (ma _ _) 1) as [d_ma|] eqn:Hma in Hev;
    cbv [mbind Exc_bind] in Hev; [|discriminate].
  unfold weekly_completed_row in Hev.
  rewrite bool_decide_eq_false_2 in Hev by done.
  destruct (dropna w_all !! _) as [w_row|] eqn:Hrow in Hev; [|discriminate].
  destruct (_ || _) in Hev; [discriminate|].
  injection Hev as <-. cbn.
  apply iloc_back_Ret in Hp as [_ Hp]. apply iloc_back_Ret in Hl as [_ Hl].
  apply iloc_back_Ret in Hma as [_ Hma].
  rewrite ma_length, length_map in Hma.
  exists raw_d, df_w, d_all, w_all, d_prev, d_last, w_row.
  split_and!; try done; lia.
Qed.

(** *** Warm-up of the indicators *)

Lemma rolling_at_warmup agg n (xs : list pyfloat) i :
  i + 1 < n → rolling_at agg n xs i = None.
Proof.
  intros Hi. unfold rolling_at. rewrite bool_decide_eq_false_2; [done|]. lia.
Qed.

Lemma rsv_warmup df n i :
  i + 1 < n → i < length df → rsv df n !! i = Some None.
Proof.
  intros Hn Hi.
  assert (Hlow : lowest_n df n !! i = Some None).
  { unfold lowest_n. rewrite rolling_lookup by (by rewrite length_map).
    by rewrite rolling_at_warmup. }
  assert (Hhigh : ∃ h, highest_n df n !! i = Some h).
  { apply lookup_lt_is_Some_2. unfold highest_n.
    by rewrite rolling_length, length_map. }
  destruct Hhigh as [h Hhigh].
  destruct (lookup_lt_is_Some_2 (map Close df) i) as [c Hc];
    [by rewrite length_map|].
  unfold rsv, denom.
  rewrite lookup_zip_with, !list_lookup_fmap, !lookup_zip_with.
  rewrite Hc, Hlow, Hhigh. cbn. by destruct c, h.
Qed.

Lemma K_warmup df n alpha rows i :
  compute_kd_recursive df n alpha = Ret rows →
  i + 1 < n → i < length df → K <$> rows !! i = Some None.
Proof.
  intros Hrows Hn Hi. rewrite (K_lookup _ _ _ _ _ Hrows Hi). f_equal.
  apply ewm_leading_nan. intros j Hj. apply rsv_warmup; lia.
Qed.

Lemma D_warmup df n alpha rows i :
  compute_kd_recursive df n alpha = Ret rows →
  i + 1 < n → i < length df → D <$> rows !! i = Some None.
Proof.
  intros Hrows Hn Hi. rewrite (D_lookup _ _ _ _ _ Hrows Hi). f_equal.
  apply ewm_leading_nan. intros j Hj. rewrite list_lookup_fmap.
  apply (K_warmup _ _ _ _ j Hrows); lia.
Qed.

Lemma filter_drops_prefix {A : Type} (P : A → Prop) `{!∀ x, Decision (P x)}
    (l : list A) m :
  (∀ i x, i < m → l !! i = Some x → ¬ P x) →
  length (filter P l) + m `min` length l ≤ length l.
Proof.
  revert m. induction l as [|a l IH]; intros m Hpre; [cbn; lia|].
  destruct m as [|m]; [pose proof (length_filter P (a :: l)); cbn in *; lia|].
  rewrite filter_cons_False by (by apply (Hpre 0 a); [lia|]).
  assert (Hl : length (filter P l) + m `min` length l ≤ length l).
  { apply IH. intros i x Hi Hx. apply (Hpre (S i) x); [lia|done]. }
  cbn. lia.
Qed.

Lemma dropna_warmup_length df n alpha rows :
  compute_kd_recursive df n alpha = Ret rows →
  length (dropna rows) + (n - 1) `min` length df ≤ length df.
Proof.
  intros Hrows. pose proof (rows_length _ _ _ _ Hrows) as Hlen.
  rewrite <- Hlen. apply filter_drops_prefix.
  intros i r Hi Hr [HK _].
  assert (Hi' : i < length df).
  { rewrite <- Hlen. by apply lookup_lt_Some in Hr. }
  pose proof (K_warmup _ _ _ _ i Hrows ltac:(lia) Hi') as HKi.
  rewrite Hr in HKi. cbn in HKi. injection HKi as HKi.
  by rewrite HKi in HK.
Qed.

(** The first [n-1] rows carry no K and no D, so [dropna] removes at
    least that many rows; a frame shorter than [n] keeps none. *)
Theorem kd_warmup_rows_are_dropped df n alpha rows :
  compute_kd_recursive df n alpha = Ret rows →
  (∀ i, i + 1 < n → i < length df →
        K <$> rows !! i = Some None ∧ D <$> rows !! i = Some None)
  ∧ length (dropna rows) + (n - 1) `min` length df ≤ length df
  ∧ (length df < n → dropna rows = []).
Proof.
  intros Hrows.
  pose proof (dropna_warmup_length _ _ _ _ Hrows) as Hdrop.
  split_and!; [|done|].
  - intros i Hn Hi. split; [by eapply K_warmup | by eapply D_warmup].
  - intros Hshort. apply length_zero_iff_nil. lia.
Qed.

(** *** The frame returned *)

(** [compute_kd_recursive] raises exactly when the smoothing factor is
    outside (0, 1], with the [ValueError] of the recursive mean;
    otherwise it returns one row per bar, the bars unchanged and in
    order. *)
Theorem compute_kd_frame df n alpha :
  ((0 < alpha)%Q ∧ (alpha <= 1)%Q →
     ∃ rows, compute_kd_recursive df n alpha = Ret rows
             ∧ length rows = length df ∧ map bar rows = df)
  ∧ (¬ ((0 < alpha)%Q ∧ (alpha <= 1)%Q) →
       compute_kd_recursive df n alpha
       = Raise (ValueError "alpha must satisfy: 0 < alpha <= 1")).
Proof.
  split.
  - intros [Hpos Hle].
    destruct (compute_kd_returns df n alpha Hpos Hle) as [rows Hrows].
    exists rows. split; [done|]. split; [by eapply rows_length|].
    by apply compute_kd_columns in Hrows as (_ & _ & Hb).
  - intros Hbad. unfold compute_kd_recursive, ewm_mean.
    destruct (Qlt_bool 0 alpha && Qle_bool alpha 1) eqn:Hval; [|done].
    exfalso. apply Hbad. apply andb_true_iff in Hval as [Hpos Hle].
    by rewrite <- Qlt_bool_iff, <- Qle_bool_iff.
Qed.

(** *** What an evaluation reads *)

Lemma dropna_defined rows r :
  r ∈ dropna rows → isnan (K r) = false ∧ isnan (D r) = false.
Proof. unfold dropna. by intros [? _]%list_elem_of_filter. Qed.

(** The K and D values handed to the crossing detector and to the weekly
    filter are never NaN. *)
Theorem signals_are_defined cfg feed sg :
  evaluate cfg feed = Ret (Some sg) →
  isnan (k_prev sg) = false ∧ isnan (dprev_prev sg) = false
  ∧ isnan (k_last sg) = false ∧ isnan (d_last_d sg) = false
  ∧ isnan (w_k sg) = false ∧ isnan (w_d sg) = false.
Proof.
  intros (raw_d & df_w & d_all & w_all & d_prev & d_last & w_row & _ & _ & _
          & _ & _ & _ & Hp & Hl & Hw & _ & _ & -> & -> & -> & -> & _ & _
          & -> & -> & _)%evaluate_inv.
  apply list_elem_of_lookup_2, dropna_defined in Hp as [? ?].
  apply list_elem_of_lookup_2, dropna_defined in Hl as [? ?].
  apply list_elem_of_lookup_2, dropna_defined in Hw as [? ?].
  done.
Qed.


(** *** History needed by the moving averages *)

Lemma ma_short (series : list pyfloat) n i :
  i < length series → i + 1 < n → ma series n !! i = Some None.
Proof.
  intros Hi Hn. unfold ma. rewrite rolling_lookup by done.
  by rewrite rolling_at_warmup.
Qed.

(** The averages are taken over the rows left by [dropna]: with fewer
    than [K_PERIOD + DAILY_MA - 1] daily bars the daily average is NaN
    and the trend test fails; with fewer than [K_PERIOD + WEEKLY_MA]
    weekly bars the weekly average is NaN and the weekly filter is
    off. *)
Lemma ma_needs_history cfg feed sg raw_d df_w :
  evaluate cfg feed = Ret (Some sg) →
  fetch_ohlc feed "1d" = Ret raw_d →
  fetch_ohlc feed "1wk" = Ret df_w →
  (length (last_completed_daily (local_now feed) raw_d) + 1
     < K_PERIOD cfg + DAILY_MA cfg →
   d_ma20 sg = None ∧ daily_trend_ok sg = false)
  ∧ (length df_w < K_PERIOD cfg + WEEKLY_MA cfg →
     w_ma20 sg = None ∧ weekly_ok sg = false).
Proof.
  intros (raw_d' & df_w' & d_all & w_all & d_prev & d_last & w_row & Hd & Hw
          & Hda & Hwa & Hld & Hlw & _ & _ & _ & Hma & Hwma & _)%evaluate_inv
         Hd' Hw'.
  rewrite Hd in Hd'. injection Hd' as ->.
  rewrite Hw in Hw'. injection Hw' as ->.
  pose proof (dropna_warmup_length _ _ _ _ Hda) as Hdd.
  pose proof (dropna_warmup_length _ _ _ _ Hwa) as Hdw.
  split.
  - intros Hshort.
    rewrite ma_short in Hma; [| rewrite length_map; lia | lia].
    injection Hma as Hma. split; [done|].
    unfold daily_trend_ok, f_gt, f_lt. by rewrite <- Hma.
  - intros Hshort.
    rewrite ma_short in Hwma; [| rewrite length_map; lia | lia].
    cbn in Hwma. split; [done|].
    unfold weekly_ok. rewrite Hwma. cbn. by rewrite andb_false_r.
Qed.
End EvaluateProps.

(** ** More on the signal state machine *)

Section MachineMore.
Context {Timestamp : Type} `{!Calendar Timestamp} `{!JsonCodec}.
Implicit Types (w : @World Timestamp) (sg : @Signals Timestamp)
  (l : @Locals Timestamp) (st : SymState).

Ltac fields :=
  cbn [l_world sym_state l_alerts mem files sent position alerts last_entry
       andb negb].

Lemma fired_nil_iff (r x : bool) :
  (if r then [Reduce] else []) ++ (if x then [Exit] else []) = []
  ↔ r = false ∧ x = false.
Proof. destruct r, x; cbn; split; try done; by intros [? ?]. Qed.

(** When the rules of lines 273-325 send no alert they store nothing
    and write nothing: the state mapping, the files and the alerts sent
    are as they were. *)
Theorem no_alert_no_change cfg sym recipients inst sg w :
  fired w (transitions cfg sym recipients inst sg w) = [] →
  transitions cfg sym recipients inst sg w = w.
Proof.
  destruct (transitions_spec cfg sym recipients inst sg w)
    as [(_ & _ & Hf & _)|(Hentry & r & x & Hr & Hx & Hf & _)];
    rewrite Hf; [done|].
  intros [-> ->]%fired_nil_iff.
  assert (Hid : reduce_rule cfg sym recipients inst sg (enter sym w)
                = enter sym w).
  { unfold reduce_rule. by rewrite <- Hr. }
  rewrite Hid in Hx. by apply transitions_noop.
Qed.

(** An invocation sends nothing, one alert, or a Reduce followed by an
    Exit; an Entry is never accompanied by another alert. *)
Theorem alerts_of_one_invocation cfg sym recipients feed w w' :
  process_symbol cfg sym recipients feed w = Ret w' →
  fired w w' = [] ∨ fired w w' = [Entry] ∨ fired w w' = [Reduce]
  ∨ fired w w' = [Exit] ∨ fired w w' = [Reduce; Exit].
Proof.
  intros [->|(sg & _ & ->)]%process_symbol_cases.
  { left. apply fired_refl. }
  destruct (transitions_spec cfg sym recipients (inst_line feed) sg w)
    as [(_ & _ & Hf & _)|(_ & r & x & _ & _ & Hf & _)]; rewrite Hf.
  - by right; left.
  - destruct r, x; cbn; eauto 6.
Qed.

(** *** Fired keys *)

Lemma alerted_reduce_rule_mono cfg sym recipients inst sg l key :
  alerted l key = true →
  alerted (reduce_rule cfg sym recipients inst sg l) key = true.
Proof.
  unfold reduce_rule. destruct (reduce_cond sg l); [|done].
  unfold mark_alert, alerted. fields. intros Hkey.
  destruct (decide (ex_key sg = key)) as [->|Hne].
  - by rewrite lookup_insert_eq.
  - by rewrite lookup_insert_ne.
Qed.

Lemma alerted_exit_rule cfg sym recipients inst sg l key :
  alerted (exit_rule cfg sym recipients inst sg l) key = alerted l key.
Proof. unfold exit_rule. by destruct (exit_cond sg l). Qed.

Lemma stored_alerted_coherent sym l key :
  coherent sym l → stored_alerted (l_world l) sym key = alerted l key.
Proof. intros [Hst Hal]. unfold stored_alerted, alerted. by rewrite <- Hst, Hal. Qed.

Lemma transitions_keys cfg sym recipients inst sg w key :
  stored_alerted w sym key = true →
  stored_alerted (transitions cfg sym recipients inst sg w) sym key = true.
Proof.
  intros Hkey. unfold transitions.
  destruct (entry_cond sg (sym_state (enter sym w))).
  - destruct (entry_rule_spec cfg sym recipients inst sg (enter sym w))
      as (_ & Hget & _ & _).
    unfold stored_alerted. rewrite Hget. exact Hkey.
  - cbn zeta. rewrite stored_alerted_coherent
      by apply coherent_exit_rule, coherent_reduce_rule, coherent_enter.
    rewrite alerted_exit_rule. by apply alerted_reduce_rule_mono.
Qed.

Lemma process_symbol_mem_frame cfg sym recipients feed w w' s :
  process_symbol cfg sym recipients feed w = Ret w' →
  s ≠ sym → mem w' !! s = mem w !! s.
Proof.
  intros [->|(sg & _ & ->)]%process_symbol_cases Hs; [done|].
  by apply transitions_frame.
Qed.

(** A key that has fired stays fired: no invocation, for any symbol,
    clears a key of the alerts mapping. *)
Theorem fired_keys_stay_fired cfg sym recipients feed w w' s key :
  process_symbol cfg sym recipients feed w = Ret w' →
  stored_alerted w s key = true →
  stored_alerted w' s key = true.
Proof.
  intros Hps Hkey. destruct (decide (s = sym)) as [->|Hne].
  - apply process_symbol_cases in Hps as [->|(sg & _ & ->)]; [done|].
    by apply transitions_keys.
  - unfold stored_alerted, state_get in *.
    by rewrite (process_symbol_mem_frame _ _ _ _ _ _ _ Hps Hne).
Qed.

(** *** The Reduce rule *)

(** From a long position, a death cross whose key [daily_exit@<date>]
    has not fired sends the Reduce alert, marks that key and saves; the
    position stays long unless the Exit rule fires in the same pass,
    after the Reduce. *)
Theorem reduce_fires cfg sym recipients feed sg w :
  evaluate cfg feed = Ret (Some sg) →
  stored_position w sym = Some "long" →
  exit_cross sg = true →
  stored_alerted w sym (ex_key sg) = false →
  ∃ w', process_symbol cfg sym recipients feed w = Ret w'
    ∧ fired w w'
      = Reduce :: (if negb (weekly_ok sg)
                      && negb (stored_alerted w sym (full_key sg))
                   then [Exit] else [])
    ∧ stored_alerted w' sym (ex_key sg) = true
    ∧ stored_position w' sym
      = (if negb (weekly_ok sg) && negb (stored_alerted w sym (full_key sg))
         then Some "flat" else Some "long")
    ∧ persisted cfg w'.
Proof.
  intros Hev Hlong Hx Hkey. eexists. split; [by apply process_symbol_eval|].
  set (inst := inst_line feed).
  unfold transitions.
  change (sym_state (enter sym w)) with (state_get (mem w) sym).
  assert (entry_cond sg (state_get (mem w) sym) = false) as ->.
  { unfold entry_cond. unfold stored_position in Hlong. rewrite Hlong.
    by rewrite bool_decide_eq_false_2. }
  set (l0 := enter sym w).
  set (l1 := reduce_rule cfg sym recipients inst sg l0).
  set (l2 := exit_rule cfg sym recipients inst sg l1).
  assert (Hr : reduce_cond sg l0 = true).
  { unfold reduce_cond.
    change (position (sym_state l0)) with (stored_position w sym).
    change (alerted l0 (ex_key sg)) with (stored_alerted w sym (ex_key sg)).
    rewrite Hlong, Hx, Hkey. by rewrite bool_decide_eq_true_2. }
  destruct (reduce_rule_spec cfg sym recipients inst sg l0)
    as (Hs1 & Hp1 & _ & Hper1 & Hal1).
  destruct (exit_rule_spec cfg sym recipients inst sg l1)
    as (Hs2 & Hp2 & _ & Hper2 & Hid2 & _).
  fold l1 in Hs1, Hp1, Hper1, Hal1. fold l2 in Hs2, Hp2, Hper2, Hid2.
  rewrite Hr in Hs1.
  assert (Hco2 : coherent sym l2)
    by apply coherent_exit_rule, coherent_reduce_rule, coherent_enter.
  assert (Hcond : exit_cond sg l1
                  = negb (weekly_ok sg)
                    && negb (stored_alerted w sym (full_key sg))).
  { unfold exit_cond. rewrite Hp1.
    change (position (sym_state l0)) with (stored_position w sym).
    rewrite Hlong, bool_decide_eq_true_2 by done.
    rewrite Hal1; [done|]. intros Heq. by apply (keys_differ sg). }
  rewrite <- Hcond. split_and!.
  - rewrite Hs1, <- app_assoc in Hs2.
    rewrite (fired_app w (l_world l2) _ Hs2).
    by destruct (exit_cond sg l1).
  - rewrite stored_alerted_coherent by done. unfold l2.
    rewrite alerted_exit_rule. unfold l1, reduce_rule. rewrite Hr.
    unfold mark_alert, alerted. fields. by rewrite lookup_insert_eq.
  - unfold stored_position. destruct Hco2 as [<- _]. rewrite Hp2.
    destruct (exit_cond sg l1); [done|]. by rewrite Hp1.
  - destruct (exit_cond sg l1) eqn:Hx2; [by apply Hper2|].
    rewrite (Hid2 eq_refl). by apply Hper1.
Qed.

(** *** Symbols do not interfere *)

Lemma same_slice_enter sym w wa :
  mem wa !! sym = mem w !! sym → same_slice sym (enter sym wa) (enter sym w).
Proof.
  intros Heq. unfold same_slice, enter, state_get. fields.
  by rewrite Heq.
Qed.

Lemma same_slice_reduce_rule cfg sym recipients inst sg la l :
  same_slice sym la l →
  same_slice sym (reduce_rule cfg sym recipients inst sg la)
    (reduce_rule cfg sym recipients inst sg l)
  ∧ ∃ al,
      sent (l_world (reduce_rule cfg sym recipients inst sg la))
      = sent (l_world la) ++ al
      ∧ sent (l_world (reduce_rule cfg sym recipients inst sg l))
        = sent (l_world l) ++ al.
Proof.
  intros (Hst & Hal & Hmem).
  assert (Hc : reduce_cond sg la = reduce_cond sg l).
  { unfold reduce_cond, alerted. by rewrite Hst, Hal. }
  unfold reduce_rule. rewrite Hc. destruct (reduce_cond sg l).
  - unfold same_slice, mark_alert, store_and_save, send_to. fields.
    rewrite Hst, Hal, !lookup_insert_eq. split; [done|]. by eexists.
  - split; [done|]. exists []. by rewrite !app_nil_r.
Qed.

Lemma same_slice_exit_rule cfg sym recipients inst sg la l :
  same_slice sym la l →
  same_slice sym (exit_rule cfg sym recipients inst sg la)
    (exit_rule cfg sym recipients inst sg l)
  ∧ ∃ al,
      sent (l_world (exit_rule cfg sym recipients inst sg la))
      = sent (l_world la) ++ al
      ∧ sent (l_world (exit_rule cfg sym recipients inst sg l))
        = sent (l_world l) ++ al.
Proof.
  intros (Hst & Hal & Hmem).
  assert (Hc : exit_cond sg la = exit_cond sg l).
  { unfold exit_cond, alerted. by rewrite Hst, Hal. }
  unfold exit_rule. rewrite Hc. destruct (exit_cond sg l).
  - unfold same_slice, store_and_save, send_to. fields.
    rewrite Hst, Hal, !lookup_insert_eq. split; [done|]. by eexists.
  - split; [done|]. exists []. by rewrite !app_nil_r.
Qed.

(** What the rules send and store for a symbol depends on the world only
    through the stored entry of that symbol. *)
Lemma transitions_slice cfg sym recipients inst sg w wa :
  mem wa !! sym = mem w !! sym →
  (∃ al,
      sent (transitions cfg sym recipients inst sg wa) = sent wa ++ al
      ∧ sent (transitions cfg sym recipients inst sg w) = sent w ++ al)
  ∧ mem (transitions cfg sym recipients inst sg wa) !! sym
    = mem (transitions cfg sym recipients inst sg w) !! sym.
Proof.
  intros Heq. pose proof (same_slice_enter sym w wa Heq) as Hs0.
  unfold transitions.
  destruct Hs0 as (Hst & Hal & Hmem).
  rewrite Hst. destruct (entry_cond sg (sym_state (enter sym w))).
  - unfold entry_rule, store_and_save, send_to. fields.
    rewrite Hst, !lookup_insert_eq. split; [by eexists | done].
  - cbn zeta.
    destruct (same_slice_reduce_rule cfg sym recipients inst sg
                (enter sym wa) (enter sym w)) as (Hs1 & al1 & Ha1 & Hb1);
      [done|].
    destruct (same_slice_exit_rule cfg sym recipients inst sg _ _ Hs1)
      as ((_ & _ & Hm2) & al2 & Ha2 & Hb2).
    split; [|done]. exists (al1 ++ al2).
    rewrite Ha2, Ha1, Hb2, Hb1, !app_assoc. done.
Qed.

Lemma main_step_mem_frame cfg sym recipients feed w s :
  s ≠ sym → mem (main_step cfg sym recipients w feed) !! s = mem w !! s.
Proof.
  intros Hs. unfold main_step.
  destruct (process_symbol cfg sym recipients feed w) as [w'|e] eqn:Hps;
    [|done].
  by apply (process_symbol_mem_frame _ _ _ _ _ _ _ Hps).
Qed.

Lemma main_step_slice cfg sym recipients feed w wa :
  mem wa !! sym = mem w !! sym →
  (∃ al,
      sent (main_step cfg sym recipients wa feed) = sent wa ++ al
      ∧ sent (main_step cfg sym recipients w feed) = sent w ++ al)
  ∧ mem (main_step cfg sym recipients wa feed) !! sym
    = mem (main_step cfg sym recipients w feed) !! sym.
Proof.
  intros Heq. unfold main_step, process_symbol.
  destruct (evaluate cfg feed) as [[sg|]|e]; cbn.
  - by apply transitions_slice.
  - split; [|done]. exists []. by rewrite !app_nil_r.
  - split; [|done]. exists []. by rewrite !app_nil_r.
Qed.

Lemma new_alerts_app w w' (al : list (@Alert Timestamp)) :
  sent w' = sent w ++ al → new_alerts w w' = al.
Proof. unfold new_alerts. intros ->. by rewrite drop_app_length. Qed.

(** Evaluating one symbol changes nothing for another: the alerts the
    other symbol's evaluation sends are the same before and after, and
    the state mapping reached does not depend on the order of the two
    evaluations. *)
Theorem symbols_do_not_interfere cfg sym sym' recipients recipients'
    feed feed' w :
  sym ≠ sym' →
  new_alerts (main_step cfg sym recipients w feed)
    (main_step cfg sym' recipients'
       (main_step cfg sym recipients w feed) feed')
  = new_alerts w (main_step cfg sym' recipients' w feed')
  ∧ mem (main_step cfg sym' recipients'
           (main_step cfg sym recipients w feed) feed')
    = mem (main_step cfg sym recipients
             (main_step cfg sym' recipients' w feed') feed).
Proof.
  intros Hne.
  set (wa := main_step cfg sym recipients w feed).
  set (wb := main_step cfg sym' recipients' w feed').
  assert (Ha : mem wa !! sym' = mem w !! sym')
    by (apply main_step_mem_frame; congruence).
  assert (Hb : mem wb !! sym = mem w !! sym)
    by (by apply main_step_mem_frame).
  destruct (main_step_slice cfg sym' recipients' feed' w wa Ha)
    as [(al & Hsa & Hs) Hma].
  destruct (main_step_slice cfg sym recipients feed w wb Hb)
    as [_ Hmb].
  split.
  - rewrite (new_alerts_app _ _ _ Hsa). symmetry.
    by apply new_alerts_app.
  - apply map_eq. intros s.
    destruct (decide (s = sym')) as [->|Hs'].
    { rewrite Hma. symmetry. apply main_step_mem_frame. congruence. }
    rewrite main_step_mem_frame by done.
    destruct (decide (s = sym)) as [->|Hs''].
    { by rewrite Hmb. }
    subst wa wb. by rewrite !main_step_mem_frame.
Qed.

(** *** The batch loop *)

Lemma transitions_sent_own cfg sym recipients inst sg w :
  ∃ al, sent (transitions cfg sym recipients inst sg w) = sent w ++ al
        ∧ Forall (λ a, a_sym a = sym) al.
Proof.
  unfold transitions. destruct (entry_cond sg (sym_state (enter sym w))).
  - eexists. split; [reflexivity|]. by repeat constructor.
  - cbn zeta.
    destruct (reduce_rule_spec cfg sym recipients inst sg (enter sym w))
      as (Hs1 & _).
    destruct (exit_rule_spec cfg sym recipients inst sg
                (reduce_rule cfg sym recipients inst sg (enter sym w)))
      as (Hs2 & _).
    rewrite Hs1, <- app_assoc in Hs2. eexists. split; [exact Hs2|].
    apply Forall_app. split.
    + destruct (reduce_cond sg (enter sym w)); by repeat constructor.
    + destruct (exit_cond sg _); by repeat constructor.
Qed.

Lemma main_step_sent_own cfg sym recipients feed w :
  ∃ al, sent (main_step cfg sym recipients w feed) = sent w ++ al
        ∧ Forall (λ a, a_sym a = sym) al.
Proof.
  unfold main_step, process_symbol.
  destruct (evaluate cfg feed) as [[sg|]|e]; cbn.
  - apply transitions_sent_own.
  - exists []. by rewrite app_nil_r.
  - exists []. by rewrite app_nil_r.
Qed.

Lemma main_body_sent_own cfg subs feeds sym w :
  ∃ al, sent (main_body cfg subs feeds sym w) = sent w ++ al
        ∧ Forall (λ a, a_sym a = sym) al.
Proof.
  unfold main_body. destruct (subs !! sym) as [recipients|].
  - apply main_step_sent_own.
  - exists []. by rewrite app_nil_r.
Qed.

Lemma main_body_mem_frame cfg subs feeds sym w s :
  s ≠ sym → mem (main_body cfg subs feeds sym w) !! s = mem w !! s.
Proof.
  intros Hs. unfold main_body. destruct (subs !! sym) as [recipients|];
    [by apply main_step_mem_frame | done].
Qed.

Lemma main_body_slice cfg subs feeds sym w wa :
  mem wa !! sym = mem w !! sym →
  (∃ al,
      sent (main_body cfg subs feeds sym wa) = sent wa ++ al
      ∧ sent (main_body cfg subs feeds sym w) = sent w ++ al)
  ∧ mem (main_body cfg subs feeds sym wa) !! sym
    = mem (main_body cfg subs feeds sym w) !! sym.
Proof.
  intros Heq. unfold main_body. destruct (subs !! sym) as [recipients|].
  - by apply main_step_slice.
  - split; [|done]. exists []. by rewrite !app_nil_r.
Qed.

Lemma filter_own_all sym (al : list (@Alert Timestamp)) :
  Forall (λ a, a_sym a = sym) al → filter (λ a, a_sym a = sym) al = al.
Proof.
  induction 1 as [|a al Ha _ IH]; [done|].
  rewrite filter_cons_True by done. by rewrite IH.
Qed.

Lemma filter_own_none sym sym' (al : list (@Alert Timestamp)) :
  sym ≠ sym' →
  Forall (λ a, a_sym a = sym') al → filter (λ a, a_sym a = sym) al = [].
Proof.
  intros Hne. induction 1 as [|a al Ha _ IH]; [done|].
  rewrite filter_cons_False by congruence. exact IH.
Qed.

Lemma main_loop_sent cfg subs feeds symbols : ∀ w,
  ∃ al, sent (main_loop cfg subs feeds symbols w) = sent w ++ al.
Proof.
  induction symbols as [|s0 rest IH]; intros w; cbn.
  - exists []. by rewrite app_nil_r.
  - destruct (main_body_sent_own cfg subs feeds s0 w) as (al0 & Hs0 & _).
    destruct (IH (main_body cfg subs feeds s0 w)) as (al & Hal).
    exists (al0 ++ al). by rewrite Hal, Hs0, app_assoc.
Qed.

Lemma main_loop_other cfg subs feeds symbols sym : ∀ w,
  sym ∉ symbols →
  filter (λ a, a_sym a = sym)
    (new_alerts w (main_loop cfg subs feeds symbols w)) = []
  ∧ mem (main_loop cfg subs feeds symbols w) !! sym = mem w !! sym.
Proof.
  induction symbols as [|s0 rest IH]; intros w Hnin; cbn.
  - split; [|done]. unfold new_alerts. by rewrite drop_all.
  - apply not_elem_of_cons in Hnin as [Hne Hnin].
    set (w1 := main_body cfg subs feeds s0 w).
    destruct (main_body_sent_own cfg subs feeds s0 w)
      as (al0 & Hs0 & Hown). fold w1 in Hs0.
    destruct (main_loop_sent cfg subs feeds rest w1) as (al & Hal).
    destruct (IH w1 Hnin) as [IHf IHm].
    rewrite (new_alerts_app _ _ _ Hal) in IHf.
    split.
    + rewrite Hs0, <- app_assoc in Hal.
      rewrite (new_alerts_app _ _ _ Hal), filter_app, IHf, app_nil_r.
      by apply (filter_own_none sym s0).
    + rewrite IHm. by apply main_body_mem_frame.
Qed.

Lemma main_loop_isolates cfg subs feeds symbols sym : ∀ w,
  NoDup symbols → sym ∈ symbols →
  filter (λ a, a_sym a = sym)
    (new_alerts w (main_loop cfg subs feeds symbols w))
  = new_alerts w (main_body cfg subs feeds sym w)
  ∧ mem (main_loop cfg subs feeds symbols w) !! sym
    = mem (main_body cfg subs feeds sym w) !! sym.
Proof.
  induction symbols as [|s0 rest IH]; intros w Hnd Hin;
    [by apply elem_of_nil in Hin|].
  apply NoDup_cons in Hnd as [Hs0 Hnd]. cbn.
  set (w1 := main_body cfg subs feeds s0 w).
  destruct (main_body_sent_own cfg subs feeds s0 w)
    as (al0 & Hsent0 & Hown). fold w1 in Hsent0.
  destruct (main_loop_sent cfg subs feeds rest w1) as (al & Hal).
  assert (Hall : sent (main_loop cfg subs feeds rest w1)
                 = sent w ++ (al0 ++ al))
    by (by rewrite Hal, Hsent0, app_assoc).
  rewrite (new_alerts_app _ _ _ Hall), filter_app.
  destruct (decide (sym = s0)) as [->|Hne].
  - destruct (main_loop_other cfg subs feeds rest s0 w1 Hs0) as [Hf Hm].
    rewrite (new_alerts_app _ _ _ Hal) in Hf.
    rewrite Hf, app_nil_r, (filter_own_all _ _ Hown).
    split; [|done]. symmetry. by apply new_alerts_app.
  - apply elem_of_cons in Hin as [?|Hin]; [done|].
    destruct (IH w1 Hnd Hin) as [IHf IHm].
    rewrite (new_alerts_app _ _ _ Hal) in IHf.
    rewrite (filter_own_none sym s0 al0 Hne Hown), app_nil_l, IHf.
    assert (Hslice : mem w1 !! sym = mem w !! sym)
      by (by apply main_body_mem_frame).
    destruct (main_body_slice cfg subs feeds sym w w1 Hslice)
      as [(al' & Ha & Hb) Hmem].
    split.
    + rewrite (new_alerts_app _ _ _ Ha). symmetry. by apply new_alerts_app.
    + by rewrite IHm.
Qed.

(** In a batch over distinct symbols every symbol gets exactly the
    alerts, and ends with exactly the stored entry, that its own
    evaluation on the initial state gives: neither the other symbols nor
    their failures change them. *)
Theorem batch_isolates_symbols cfg subs feeds symbols sym w :
  NoDup symbols → sym ∈ symbols →
  filter (λ a, a_sym a = sym)
    (new_alerts w (main_loop cfg subs feeds symbols w))
  = new_alerts w (main_body cfg subs feeds sym w)
  ∧ mem (main_loop cfg subs feeds symbols w) !! sym
    = mem (main_body cfg subs feeds sym w) !! sym.
Proof. apply main_loop_isolates. Qed.
End MachineMore.

(** ** Completed bars *)

Section CompletionProps.
Context {Timestamp : Type} `{!Calendar Timestamp}.
Implicit Types (df : list (Bar Timestamp)) (rows : list (KDRow Timestamp))
  (sg : @Signals Timestamp) (feed : @Feed Timestamp).

Lemma fetch_ohlc_daily feed df :
  dl_daily feed = Ret df → df ≠ [] → fetch_ohlc feed "1d" = Ret df.
Proof.
  intros Hd Hne. unfold fetch_ohlc.
  rewrite (bool_decide_eq_true_2 ("1d" = "1d")) by done.
  rewrite Hd. cbv [mbind Exc_bind]. by destruct df.
Qed.

Lemma fetch_ohlc_weekly feed df :
  dl_weekly feed = Ret df → df ≠ [] → fetch_ohlc feed "1wk" = Ret df.
Proof.
  intros Hd Hne. unfold fetch_ohlc.
  rewrite (bool_decide_eq_false_2 ("1wk" = "1d")) by done.
  rewrite (bool_decide_eq_true_2 ("1wk" = "1wk")) by done.
  rewrite Hd. cbv [mbind Exc_bind]. by destruct df.
Qed.

Lemma fetch_ohlc_daily_ext feed feed' :
  dl_daily feed' = dl_daily feed →
  fetch_ohlc feed' "1d" = fetch_ohlc feed "1d".
Proof.
  intros Hd. unfold fetch_ohlc.
  rewrite (bool_decide_eq_true_2 ("1d" = "1d")) by done. by rewrite Hd.
Qed.

Lemma fetch_ohlc_weekly_ext feed feed' :
  dl_weekly feed' = dl_weekly feed →
  fetch_ohlc feed' "1wk" = fetch_ohlc feed "1wk".
Proof.
  intros Hd. unfold fetch_ohlc.
  rewrite (bool_decide_eq_false_2 ("1wk" = "1d")) by done.
  rewrite (bool_decide_eq_true_2 ("1wk" = "1wk")) by done. by rewrite Hd.
Qed.

Lemma last_completed_daily_late (now : LocalNow) df :
  13 < now_hour now ∨ (now_hour now = 13 ∧ 35 ≤ now_minute now) →
  last_completed_daily now df = df.
Proof.
  intros Hlate. unfold last_completed_daily. destruct (last df); [|done].
  assert ((now_hour now <? 13)
          || ((now_hour now =? 13) && (now_minute now <? 35)) = false)
    as ->; [|by rewrite andb_false_r].
  apply orb_false_iff. split; [apply Nat.ltb_ge; lia|].
  apply andb_false_iff.
  destruct Hlate as [?|[? ?]];
    [left; apply Nat.eqb_neq; lia | right; apply Nat.ltb_ge; lia].
Qed.

Lemma last_completed_daily_early (now : LocalNow) df b :
  ts_date (idx b) = now_date now →
  now_hour now < 13 ∨ (now_hour now = 13 ∧ now_minute now < 35) →
  last_completed_daily now (df ++ [b]) = df.
Proof.
  intros Hdate Hearly. unfold last_completed_daily. rewrite last_snoc.
  rewrite bool_decide_eq_true_2 by done.
  assert ((now_hour now <? 13)
          || ((now_hour now =? 13) && (now_minute now <? 35)) = true)
    as ->.
  { apply orb_true_iff. destruct Hearly as [?|[? ?]].
    - left. apply Nat.ltb_lt. lia.
    - right. apply andb_true_iff.
      split; [apply Nat.eqb_eq; lia | apply Nat.ltb_lt; lia]. }
  cbn [andb]. rewrite length_app. cbn [length].
  replace (length df + 1 - 1) with (length df) by lia.
  by rewrite take_app_length.
Qed.

(** Before 13:35 the bar of the running day is not read: the evaluation
    is the one an evening run makes on the frame without that bar. *)
Theorem in_progress_daily_bar_is_ignored cfg feed feed' init b :
  dl_daily feed = Ret (init ++ [b]) →
  init ≠ [] →
  ts_date (idx b) = now_date (local_now feed) →
  now_hour (local_now feed) < 13
  ∨ (now_hour (local_now feed) = 13 ∧ now_minute (local_now feed) < 35) →
  dl_daily feed' = Ret init →
  13 < now_hour (local_now feed')
  ∨ (now_hour (local_now feed') = 13 ∧ 35 ≤ now_minute (local_now feed')) →
  dl_weekly feed' = dl_weekly feed →
  evaluate cfg feed = evaluate cfg feed'.
Proof.
  intros Hd Hinit Hdate Hearly Hd' Hlate Hw. unfold evaluate.
  rewrite (fetch_ohlc_daily feed (init ++ [b]) Hd)
    by (by destruct init).
  rewrite (fetch_ohlc_daily feed' init Hd' Hinit).
  rewrite (fetch_ohlc_weekly_ext feed feed' Hw).
  cbv [mbind Exc_bind].
  rewrite (last_completed_daily_early _ _ _ Hdate Hearly).
  by rewrite (last_completed_daily_late _ _ Hlate).
Qed.

(** *** The open weekly bar *)

Lemma compute_kd_raise df df' n alpha e :
  compute_kd_recursive df n alpha = Raise e →
  compute_kd_recursive df' n alpha = Raise e.
Proof.
  unfold compute_kd_recursive, ewm_mean.
  destruct (Qlt_bool 0 alpha && Qle_bool alpha 1); [|done].
  cbv [mbind Exc_bind mret Exc_ret]. discriminate.
Qed.

Lemma compute_kd_snoc df b n alpha rows' :
  compute_kd_recursive (df ++ [b]) n alpha = Ret rows' →
  ∃ rows r, compute_kd_recursive df n alpha = Ret rows
            ∧ rows' = rows ++ [r].
Proof.
  intros Hrows'.
  destruct (compute_kd_alpha _ _ _ _ Hrows') as [Hpos Hle].
  destruct (compute_kd_returns df n alpha Hpos Hle) as [rows Hrows].
  pose proof (compute_kd_prefix _ _ _ _ _ _ Hrows Hrows') as Htake.
  pose proof (rows_length _ _ _ _ Hrows') as Hlen'.
  rewrite length_app in Hlen'. cbn in Hlen'.
  destruct (lookup_lt_is_Some_2 rows' (length df)) as [r Hr]; [lia|].
  exists rows, r. split; [done|].
  rewrite <- (take_drop (length df) rows'), Htake. f_equal.
  apply list_eq. intros [|i].
  - by rewrite lookup_drop, Nat.add_0_r.
  - cbn. rewrite lookup_drop. apply lookup_ge_None. lia.
Qed.

(** Once K and D are there they stay. *)
Lemma rows_defined_mono df n alpha rows i j r r' :
  compute_kd_recursive df n alpha = Ret rows →
  i ≤ j → rows !! i = Some r → rows !! j = Some r' →
  isnan (K r) = false ∧ isnan (D r) = false →
  isnan (K r') = false ∧ isnan (D r') = false.
Proof.
  intros Hrows Hij Hr Hr' [HK HD].
  pose proof (rows_length _ _ _ _ Hrows) as Hlen.
  pose proof (lookup_lt_Some _ _ _ Hr') as Hj. rewrite Hlen in Hj.
  pose proof (K_lookup _ _ _ _ i Hrows ltac:(lia)) as HKi.
  pose proof (K_lookup _ _ _ _ j Hrows Hj) as HKj.
  pose proof (D_lookup _ _ _ _ i Hrows ltac:(lia)) as HDi.
  pose proof (D_lookup _ _ _ _ j Hrows Hj) as HDj.
  rewrite Hr in HKi, HDi. rewrite Hr' in HKj, HDj.
  cbn in HKi, HDi, HKj, HDj.
  injection HKi as HKi. injection HDi as HDi.
  injection HKj as HKj. injection HDj as HDj.
  split.
  - destruct (ewm_stays_defined alpha (rsv df n) i j Hij) as [k Hk].
    + by rewrite rsv_length.
    + rewrite <- HKi. by destruct (K r).
    + rewrite HKj, Hk. done.
  - destruct (ewm_stays_defined alpha (map K rows) i j Hij) as [d Hd].
    + rewrite length_map. lia.
    + rewrite <- HDi. by destruct (D r).
    + rewrite HDj, Hd. done.
Qed.

Lemma dropna_snoc rows r :
  dropna (rows ++ [r])
  = dropna rows
    ++ (if negb (isnan (K r)) && negb (isnan (D r)) then [r] else []).
Proof.
  unfold dropna. rewrite filter_app. f_equal.
  destruct (isnan (K r)) eqn:HK, (isnan (D r)) eqn:HD; cbn [negb andb].
  - rewrite filter_cons_False; [done|]. rewrite HK. by intros [? _].
  - rewrite filter_cons_False; [done|]. rewrite HK. by intros [? _].
  - rewrite filter_cons_False; [done|]. rewrite HD. by intros [_ ?].
  - rewrite filter_cons_True; [done|]. by rewrite HK, HD.
Qed.

(** The rows kept by [dropna] when a last bar is appended: the kept rows
    of the frame before, and the new row unless nothing was kept. *)
Lemma dropna_snoc_cases df b n alpha rows r :
  compute_kd_recursive df n alpha = Ret rows →
  compute_kd_recursive (df ++ [b]) n alpha = Ret (rows ++ [r]) →
  (dropna rows = [] ∧ length (dropna (rows ++ [r])) < 2)
  ∨ (dropna rows ≠ [] ∧ dropna (rows ++ [r]) = dropna rows ++ [r]).
Proof.
  intros Hrows Hrows'. rewrite dropna_snoc.
  destruct (dropna rows) as [|r0 kept] eqn:Hkept.
  - left. split; [done|]. destruct (_ && _); cbn; lia.
  - right. split; [done|].
    assert (Hin : r0 ∈ dropna rows) by (rewrite Hkept; by left).
    pose proof (dropna_defined _ _ Hin) as Hdef.
    unfold dropna in Hin. apply list_elem_of_filter in Hin as [_ Hin].
    apply list_elem_of_lookup in Hin as [i Hi].
    pose proof (lookup_lt_Some _ _ _ Hi) as Hlt.
    destruct (rows_defined_mono (df ++ [b]) n alpha (rows ++ [r]) i
                (length rows) r0 r Hrows') as [-> ->];
      [lia | by rewrite lookup_app_l
       | by rewrite lookup_app_r, Nat.sub_diag by lia | done | done].
Qed.

Lemma weekly_completed_row_snoc rows r :
  rows ≠ [] →
  weekly_completed_row (rows ++ [r]) = rows !! (length rows - 1).
Proof.
  intros Hne. unfold weekly_completed_row. rewrite length_app. cbn [length].
  destruct rows as [|r0 rows]; [done|]. cbn [length].
  rewrite bool_decide_eq_false_2 by lia.
  replace (S (length rows) + 1 - 2) with (length rows) by lia.
  replace (S (length rows) - 1) with (length rows) by lia.
  apply lookup_app_l. cbn. lia.
Qed.

Lemma ma_snoc (series : list pyfloat) v n i :
  i < length series → ma (series ++ [v]) n !! i = ma series n !! i.
Proof.
  intros Hi. unfold ma.
  rewrite !rolling_lookup by (rewrite ?length_app; lia).
  by rewrite rolling_at_app.
Qed.

(** The last bar of the weekly frame, the week still open, is not read:
    two weekly frames that differ in it give the same evaluation. *)
Theorem open_weekly_bar_is_not_read cfg feed feed' wk b b' :
  dl_weekly feed = Ret (wk ++ [b]) →
  dl_weekly feed' = Ret (wk ++ [b']) →
  dl_daily feed' = dl_daily feed →
  local_now feed' = local_now feed →
  evaluate cfg feed' = evaluate cfg feed.
Proof.
  intros Hw Hw' Hd Hnow. unfold evaluate.
  rewrite (fetch_ohlc_daily_ext feed feed' Hd), Hnow.
  rewrite (fetch_ohlc_weekly feed (wk ++ [b]) Hw) by (by destruct wk).
  rewrite (fetch_ohlc_weekly feed' (wk ++ [b']) Hw') by (by destruct wk).
  destruct (fetch_ohlc feed "1d") as [raw_d|e]; cbv [mbind Exc_bind];
    [|done].
  rewrite !length_app. cbn [length].
  destruct (_ || _); [done|].
  destruct (compute_kd_recursive (last_completed_daily _ _) _ _)
    as [d_all|e]; [|done].
  case_bool_decide as Hld; [done|].
  set (n := K_PERIOD cfg). set (alpha := ALPHA cfg).
  destruct (compute_kd_recursive (wk ++ [b]) n alpha) as [w_all|e] eqn:Hc;
    [|by rewrite (compute_kd_raise _ (wk ++ [b']) _ _ _ Hc)].
  destruct (compute_kd_recursive (wk ++ [b']) n alpha) as [w_all'|e] eqn:Hc';
    [|by rewrite (compute_kd_raise _ (wk ++ [b]) _ _ _ Hc') in Hc].
  destruct (compute_kd_snoc _ _ _ _ _ Hc) as (rows & r & Hrows & ->).
  destruct (compute_kd_snoc _ _ _ _ _ Hc') as (rows_ & r' & Hrows_ & ->).
  rewrite Hrows in Hrows_. injection Hrows_ as <-.
  destruct (dropna_snoc_cases _ _ _ _ _ _ Hrows Hc) as [[Hnil Hlt]|[Hne ->]];
    destruct (dropna_snoc_cases _ _ _ _ _ _ Hrows Hc')
      as [[Hnil' Hlt']|[Hne' ->]]; try done.
  { by rewrite !bool_decide_eq_true_2 by done. }
  set (kept := dropna rows) in *.
  rewrite !length_app. cbn [length].
  case_bool_decide as Hlw; [done|].
  destruct (iloc_back (dropna d_all) 2) as [d_prev|]; [|done].
  destruct (iloc_back (dropna d_all) 1) as [d_last|]; [|done].
  destruct (iloc_back (ma _ _) 1) as [d_ma|]; [|done].
  rewrite !weekly_completed_row_snoc by done.
  destruct (kept !! (length kept - 1)) as [w_row|]; [|done].
  destruct (_ || _); [done|].
  rewrite !map_app. cbn [map].
  replace (length kept + 1 - 2) with (length kept - 1) by lia.
  assert (Hlen : length kept - 1 < length (map (λ r, Close (bar r)) kept)).
  { rewrite length_map. destruct kept; [done|]. cbn. lia. }
  by rewrite !ma_snoc by done.
Qed.

(** *** History needed by an Entry *)

(** An Entry needs more history than the length check asks for: the
    averages are taken over the rows that carry K and D, so with fewer
    than [K_PERIOD + DAILY_MA - 1] completed daily bars or fewer than
    [K_PERIOD + WEEKLY_MA] weekly bars no Entry alert is sent. *)
Theorem entry_needs_history `{!JsonCodec} cfg sym recipients feed
    (w w' : @World Timestamp) raw_d df_w :
  process_symbol cfg sym recipients feed w = Ret w' →
  fetch_ohlc feed "1d" = Ret raw_d →
  fetch_ohlc feed "1wk" = Ret df_w →
  length (last_completed_daily (local_now feed) raw_d) + 1
    < K_PERIOD cfg + DAILY_MA cfg
  ∨ length df_w < K_PERIOD cfg + WEEKLY_MA cfg →
  Entry ∉ fired w w'.
Proof.
  intros [->|(sg & Hev & ->)]%process_symbol_cases Hd Hw Hshort.
  { rewrite fired_refl. apply not_elem_of_nil. }
  destruct (ma_needs_history cfg feed sg raw_d df_w Hev Hd Hw)
    as [Hdaily Hweekly].
  destruct (transitions_spec cfg sym recipients (inst_line feed) sg w)
    as [(Hentry & _)|(_ & r & x & _ & _ & Hf & _)].
  - exfalso. unfold entry_cond in Hentry.
    destruct Hshort as [Hs|Hs].
    + destruct (Hdaily Hs) as [_ Hoff]. rewrite Hoff in Hentry.
      by rewrite andb_false_r in Hentry.
    + destruct (Hweekly Hs) as [_ Hoff]. rewrite Hoff in Hentry.
      by rewrite andb_false_r in Hentry.
  - rewrite Hf. apply entry_not_fired_by_others.
Qed.
End CompletionProps.

(** ** The state file *)

Section StoreProps.
Context `{!JsonCodec}.

Lemma string_length_app (s t : string) :
  String.length (s +:+ t) = String.length s + String.length t.
Proof.
  induction s as [|a s IH]; [done|].
  change (S (String.length (s +:+ t)) = S (String.length s + String.length t)).
  by rewrite IH.
Qed.

Lemma tmp_name_differs (s : string) : s +:+ ".tmp" ≠ s.
Proof.
  intros Heq. apply (f_equal String.length) in Heq.
  rewrite string_length_app in Heq. cbn in Heq. lia.
Qed.

(** [save_state] leaves the dump of the state in the state file, leaves
    no temporary file behind and touches no other file. *)
Theorem save_state_writes_one_file cfg (state : gmap string SymState)
    (fs : gmap string File) :
  save_state cfg state fs !! STATE_FILE cfg = Some (Text (json_dump state))
  ∧ save_state cfg state fs !! (STATE_FILE cfg +:+ ".tmp") = None
  ∧ ∀ path, path ≠ STATE_FILE cfg → path ≠ STATE_FILE cfg +:+ ".tmp" →
            save_state cfg state fs !! path = fs !! path.
Proof.
  pose proof (tmp_name_differs (STATE_FILE cfg)) as Htmp.
  unfold save_state, os_replace. rewrite lookup_insert_eq.
  split_and!.
  - apply lookup_insert_eq.
  - rewrite lookup_insert_ne by done. apply lookup_delete_eq.
  - intros path Hs Ht.
    rewrite lookup_insert_ne by done. rewrite lookup_delete_ne by done.
    by rewrite lookup_insert_ne.
Qed.

End StoreProps.

(** ** Subscriptions and the batch *)

Lemma add_subscriber_lookup (rid : string) (syms : list string) :
  ∀ (m : gmap string (gset string)) (s r : string),
  r ∈ default ∅ (foldl (add_subscriber rid) m syms !! s)
  ↔ r ∈ default ∅ (m !! s) ∨ (r = rid ∧ s ∈ syms).
Proof.
  induction syms as [|a syms IH]; intros m s r; cbn [foldl].
  - split; [by left|]. intros [?|[_ ?%elem_of_nil]]; done.
  - rewrite IH. unfold add_subscriber.
    destruct (decide (s = a)) as [->|Hne].
    + rewrite lookup_insert_eq. cbn [from_option id].
      rewrite elem_of_union, elem_of_singleton, elem_of_cons. tauto.
    + rewrite lookup_insert_ne by done. rewrite elem_of_cons. split.
      * intros [?|[? ?]]; [by left | right; tauto].
      * intros [?|[? [?|?]]]; [by left | done | right; tauto].
Qed.

Lemma subscribers_fold_lookup (data : list (string * list string)) :
  ∀ (m : gmap string (gset string)) (s r : string),
  r ∈ default ∅
        (foldl (λ m item, foldl (add_subscriber item.1) m item.2) m data
         !! s)
  ↔ r ∈ default ∅ (m !! s) ∨ ∃ syms, (r, syms) ∈ data ∧ s ∈ syms.
Proof.
  induction data as [|[rid syms] data IH]; intros m s r; cbn [foldl].
  - split; [by left|]. intros [?|(? & ?%elem_of_nil & _)]; done.
  - rewrite IH. cbn [fst snd]. rewrite add_subscriber_lookup. split.
    + intros [[?|[-> ?]]|(syms' & ? & ?)]; [by left | |].
      * right. exists syms. split; [by left | done].
      * right. exists syms'. split; [by right | done].
    + intros [?|(syms' & [Heq|?]%elem_of_cons & ?)]; [by left; left | |].
      * injection Heq as -> ->. left. right. done.
      * right. by exists syms'.
Qed.

Lemma add_subscriber_nonempty (rid : string) (syms : list string) :
  ∀ m : gmap string (gset string),
  (∀ s R, m !! s = Some R → R ≠ ∅) →
  ∀ s R, foldl (add_subscriber rid) m syms !! s = Some R → R ≠ ∅.
Proof.
  induction syms as [|a syms IH]; intros m Hm; cbn [foldl]; [done|].
  apply IH. intros s R. unfold add_subscriber.
  destruct (decide (s = a)) as [->|Hne].
  - rewrite lookup_insert_eq. intros [= <-]. set_solver.
  - rewrite lookup_insert_ne by done. apply Hm.
Qed.

Lemma subscribers_fold_nonempty (data : list (string * list string)) :
  ∀ m : gmap string (gset string),
  (∀ s R, m !! s = Some R → R ≠ ∅) →
  ∀ s R,
    foldl (λ m item, foldl (add_subscriber item.1) m item.2) m data !! s
    = Some R → R ≠ ∅.
Proof.
  induction data as [|[rid syms] data IH]; intros m Hm; cbn [foldl]; [done|].
  apply IH. by apply add_subscriber_nonempty.
Qed.

Lemma subscribers_lookup data s rid :
  rid ∈ default ∅ (all_symbols_to_subscribers data !! s)
  ↔ ∃ syms, (rid, syms) ∈ data ∧ s ∈ syms.
Proof.
  unfold all_symbols_to_subscribers. rewrite subscribers_fold_lookup.
  rewrite lookup_empty. cbn [from_option id]. rewrite elem_of_empty. tauto.
Qed.

(** The mapping of [all_symbols_to_subscribers] is the inverse of the
    subscriptions: a recipient is in the set of a symbol exactly when
    the symbol is in a list of that recipient; a symbol is a key exactly
    when somebody lists it, and no key has an empty set. *)
Theorem subscribers_are_inverted data s :
  (∀ rid, rid ∈ default ∅ (all_symbols_to_subscribers data !! s)
          ↔ ∃ syms, (rid, syms) ∈ data ∧ s ∈ syms)
  ∧ (is_Some (all_symbols_to_subscribers data !! s)
     ↔ ∃ rid syms, (rid, syms) ∈ data ∧ s ∈ syms)
  ∧ (∀ R, all_symbols_to_subscribers data !! s = Some R → R ≠ ∅).
Proof.
  assert (Hne : ∀ R, all_symbols_to_subscribers data !! s = Some R → R ≠ ∅).
  { intros R. apply (subscribers_fold_nonempty data ∅).
    intros s' R'. by rewrite lookup_empty. }
  split_and!; [apply subscribers_lookup | | done].
  split.
  - intros [R HR]. pose proof (Hne R HR) as HRne.
    apply set_choose_L in HRne as [rid Hrid]. exists rid.
    apply subscribers_lookup. by rewrite HR.
  - intros (rid & syms & Hin & Hs).
    assert (Hrid : rid ∈ default ∅ (all_symbols_to_subscribers data !! s))
      by (apply subscribers_lookup; eauto).
    destruct (all_symbols_to_subscribers data !! s) as [R|]; [by eexists|].
    by apply elem_of_empty in Hrid.
Qed.

Section MainProps.
Context {Timestamp : Type} `{!Calendar Timestamp} `{!JsonCodec}.
Implicit Types (w : @World Timestamp) (sg : @Signals Timestamp)
  (l : @Locals Timestamp).

Lemma transitions_sent_addressed cfg sym recipients inst sg w :
  ∃ al, sent (transitions cfg sym recipients inst sg w) = sent w ++ al
        ∧ Forall (λ a, a_sym a = sym ∧ a_to a = recipients) al.
Proof.
  unfold transitions. destruct (entry_cond sg (sym_state (enter sym w))).
  - eexists. split; [reflexivity|]. by repeat constructor.
  - cbn zeta.
    destruct (reduce_rule_spec cfg sym recipients inst sg (enter sym w))
      as (Hs1 & _).
    destruct (exit_rule_spec cfg sym recipients inst sg
                (reduce_rule cfg sym recipients inst sg (enter sym w)))
      as (Hs2 & _).
    rewrite Hs1, <- app_assoc in Hs2. eexists. split; [exact Hs2|].
    apply Forall_app. split.
    + destruct (reduce_cond sg (enter sym w)); by repeat constructor.
    + destruct (exit_cond sg _); by repeat constructor.
Qed.

Lemma main_body_sent_addressed cfg subs feeds sym w :
  ∃ al, sent (main_body cfg subs feeds sym w) = sent w ++ al
        ∧ Forall (λ a, subs !! a_sym a = Some (a_to a)) al.
Proof.
  unfold main_body. destruct (subs !! sym) as [recipients|] eqn:Hsub;
    [|exists []; by rewrite app_nil_r].
  unfold main_step, process_symbol.
  destruct (evaluate cfg (feeds sym)) as [[sg|]|e]; cbn;
    [|exists []; by rewrite app_nil_r..].
  destruct (transitions_sent_addressed cfg sym recipients
              (inst_line (feeds sym)) sg w) as (al & Hal & Haddr).
  exists al. split; [done|].
  eapply Forall_impl; [exact Haddr|]. by intros a [-> ->].
Qed.

Lemma main_loop_sent_addressed cfg subs feeds symbols : ∀ w,
  ∃ al, sent (main_loop cfg subs feeds symbols w) = sent w ++ al
        ∧ Forall (λ a, subs !! a_sym a = Some (a_to a)) al.
Proof.
  induction symbols as [|s0 rest IH]; intros w; cbn.
  - exists []. by rewrite app_nil_r.
  - destruct (main_body_sent_addressed cfg subs feeds s0 w)
      as (al0 & Hs0 & Ha0).
    destruct (IH (main_body cfg subs feeds s0 w)) as (al & Hal & Ha).
    exists (al0 ++ al). split; [by rewrite Hal, Hs0, app_assoc|].
    by apply Forall_app.
Qed.

(** Every alert of a run of [main] is addressed to exactly the
    recipients that list its symbol, and to at least one. *)
Theorem alerts_reach_the_subscribers cfg data feeds w a :
  a ∈ new_alerts w (main cfg data feeds w) →
  (∀ rid, rid ∈ a_to a ↔ ∃ syms, (rid, syms) ∈ data ∧ a_sym a ∈ syms)
  ∧ a_to a ≠ ∅.
Proof.
  unfold main. case_bool_decide as Hempty.
  { unfold new_alerts. rewrite drop_all. by intros ?%elem_of_nil. }
  destruct (main_loop_sent_addressed cfg (all_symbols_to_subscribers data)
              feeds (sorted_keys (all_symbols_to_subscribers data)) w)
    as (al & Hal & Haddr).
  rewrite (new_alerts_app _ _ _ Hal). intros Hin.
  rewrite Forall_forall in Haddr. specialize (Haddr a Hin).
  split.
  - intros rid. rewrite <- subscribers_lookup. by rewrite Haddr.
  - revert Haddr. apply (subscribers_fold_nonempty data ∅).
    intros s' R'. by rewrite lookup_empty.
Qed.

Lemma sorted_keys_spec (subs : gmap string (gset string)) :
  NoDup (sorted_keys subs) ∧ ∀ s, s ∈ sorted_keys subs ↔ is_Some (subs !! s).
Proof.
  unfold sorted_keys.
  pose proof (merge_sort_Permutation (λ a b : string, String.leb a b)
                (elements (dom subs))) as Hperm.
  split.
  - rewrite Hperm. apply NoDup_elements.
  - intros s. rewrite Hperm, elem_of_elements. apply elem_of_dom.
Qed.

(** A run of [main] processes exactly the symbols somebody lists, each
    once, with its subscribers and on its own stored entry: the alerts
    about a symbol and its entry at the end are those of the loop body
    for that symbol alone on the loaded state, and nothing happens for a
    symbol nobody lists. *)
Theorem main_processes_each_symbol_once cfg data feeds w sym :
  let subs := all_symbols_to_subscribers data in
  filter (λ a, a_sym a = sym) (new_alerts w (main cfg data feeds w))
  = new_alerts w (main_body cfg subs feeds sym w)
  ∧ mem (main cfg data feeds w) !! sym
    = mem (main_body cfg subs feeds sym w) !! sym
  ∧ (subs !! sym = None → main_body cfg subs feeds sym w = w).
Proof.
  intros subs.
  assert (Hnone : subs !! sym = None → main_body cfg subs feeds sym w = w)
    by (unfold main_body; by intros ->).
  enough (filter (λ a, a_sym a = sym) (new_alerts w (main cfg data feeds w))
          = new_alerts w (main_body cfg subs feeds sym w)
          ∧ mem (main cfg data feeds w) !! sym
            = mem (main_body cfg subs feeds sym w) !! sym)
    as [Hf Hm] by (by split_and!).
  destruct (subs !! sym) as [recipients|] eqn:Hsub.
  - unfold main. fold subs.
    rewrite bool_decide_eq_false_2
      by (intros Hempty; by rewrite Hempty, lookup_empty in Hsub).
    destruct (sorted_keys_spec subs) as [Hnd Hkeys].
    apply main_loop_isolates; [done|]. apply Hkeys. by eexists.
  - rewrite (Hnone eq_refl).
    replace (new_alerts w w) with ([] : list (@Alert Timestamp))
      by (unfold new_alerts; by rewrite drop_all).
    unfold main. fold subs. case_bool_decide as Hempty.
    { split; [|done]. unfold new_alerts. by rewrite drop_all. }
    destruct (sorted_keys_spec subs) as [_ Hkeys].
    apply main_loop_other. rewrite Hkeys, Hsub. by intros [? ?].
Qed.

(** *** Positions the rules do not know *)

(** A stored position that is neither flat nor long, or is missing from
    a stored entry, makes the symbol inert: no rule fires and nothing is
    stored, whatever the signals. *)
Theorem unknown_position_is_inert cfg sym recipients feed w w' :
  stored_position w sym ≠ Some "flat" →
  stored_position w sym ≠ Some "long" →
  process_symbol cfg sym recipients feed w = Ret w' →
  w' = w.
Proof.
  intros Hflat Hlong [->|(sg & _ & ->)]%process_symbol_cases; [done|].
  unfold stored_position in Hflat, Hlong.
  apply transitions_noop.
  - unfold entry_cond, enter. cbn [sym_state].
    by rewrite bool_decide_eq_false_2.
  - unfold reduce_cond, enter. cbn [sym_state].
    by rewrite bool_decide_eq_false_2.
  - unfold exit_cond, enter. cbn [sym_state].
    by rewrite bool_decide_eq_false_2.
Qed.
End MainProps.

(** ** Retries of [_post] *)

Lemma retryable_not_200 status : retryable status = true → status ≠ 200.
Proof.
  unfold retryable. intros Hin%bool_decide_eq_true ->.
  repeat (apply elem_of_cons in Hin as [Hin|Hin]; [discriminate|]).
  by apply elem_of_nil in Hin.
Qed.

(** What the iterations from [i] on do. *)
Lemma post_loop_spec respond retries backoff left : ∀ i,
  i + left = retries + 1 → 0 < left →
  let run := post_loop respond retries backoff i left in
  ∃ j, i ≤ j ≤ retries
    ∧ posts run = j - i + 1
    ∧ slept run
      = map (λ k, (backoff * inject_Z (Z.of_nat (k + 1)))%Q) (seq i (j - i))
    ∧ (∀ k, i ≤ k < j →
            status_code (respond k) ≠ 200
            ∧ retryable (status_code (respond k)) = true)
    ∧ ((status_code (respond j) = 200 ∧ outcome run = Ret ())
       ∨ (status_code (respond j) ≠ 200
          ∧ (retryable (status_code (respond j)) = false ∨ j = retries)
          ∧ outcome run = Raise (api_failed (respond j)))).
Proof.
  induction left as [|left IH]; intros i Hsum Hpos; [lia|].
  cbn [post_loop]. cbv zeta.
  destruct (status_code (respond i) =? 200) eqn:H200.
  { apply Nat.eqb_eq in H200. exists i. cbn [posts slept outcome].
    rewrite Nat.sub_diag. split_and!; [lia | lia | done | done | |].
    - intros k Hk. lia.
    - by left. }
  apply Nat.eqb_neq in H200.
  destruct (retryable (status_code (respond i))) eqn:Hretry;
    destruct (i <? retries) eqn:Hlt; cbn [andb].
  - apply Nat.ltb_lt in Hlt.
    destruct (IH (S i) ltac:(lia) ltac:(lia))
      as (j & Hj & Hposts & Hslept & Hbefore & Hend).
    exists j. cbn [posts slept outcome].
    split_and!; [lia | lia | rewrite Hposts; lia | | | done].
    + rewrite Hslept. replace (j - i) with (S (j - S i)) by lia. done.
    + intros k Hk. destruct (decide (k = i)) as [->|Hne]; [done|].
      apply Hbefore. lia.
  - apply Nat.ltb_ge in Hlt. exists i. cbn [posts slept outcome].
    rewrite Nat.sub_diag. split_and!; [lia | lia | done | done | |].
    + intros k Hk. lia.
    + right. split_and!; [done | right; lia | done].
  - exists i. cbn [posts slept outcome].
    rewrite Nat.sub_diag. split_and!; [lia | lia | done | done | |].
    + intros k Hk. lia.
    + right. split_and!; [done | by left | done].
  - exists i. cbn [posts slept outcome].
    rewrite Nat.sub_diag. split_and!; [lia | lia | done | done | |].
    + intros k Hk. lia.
    + right. split_and!; [done | by left | done].
Qed.

(** [_post] sends at most [retries + 1] requests: it repeats while the
    answer is 429 or 5xx and tries are left, sleeping [backoff * (i + 1)]
    seconds after the request of iteration [i]; it returns on the first
    200 and raises the [RuntimeError] of the first answer that is not
    retried.  It never ends without a request. *)
Theorem post_retries_then_gives_up respond retries backoff :
  let run := _post respond retries backoff in
  ∃ j, j ≤ retries
    ∧ posts run = j + 1
    ∧ slept run
      = map (λ k, (backoff * inject_Z (Z.of_nat (k + 1)))%Q) (seq 0 j)
    ∧ (∀ k, k < j → retryable (status_code (respond k)) = true)
    ∧ ((status_code (respond j) = 200 ∧ outcome run = Ret ())
       ∨ (status_code (respond j) ≠ 200
          ∧ (retryable (status_code (respond j)) = false ∨ j = retries)
          ∧ outcome run = Raise (api_failed (respond j)))).
Proof.
  destruct (post_loop_spec respond retries backoff (retries + 1) 0
              ltac:(lia) ltac:(lia))
    as (j & Hj & Hposts & Hslept & Hbefore & Hend).
  exists j. rewrite Nat.sub_0_r in Hposts, Hslept.
  split_and!; [lia | done | done | | done].
  intros k Hk. apply Hbefore. lia.
Qed.

(** [_post] succeeds exactly when a 200 arrives within [retries + 1]
    answers and every answer before it is one of 429, 500, 502, 503,
    504. *)
Theorem post_succeeds_iff respond retries backoff :
  outcome (_post respond retries backoff) = Ret ()
  ↔ ∃ j, j ≤ retries
      ∧ status_code (respond j) = 200
      ∧ ∀ k, k < j → retryable (status_code (respond k)) = true.
Proof.
  destruct (post_loop_spec respond retries backoff (retries + 1) 0
              ltac:(lia) ltac:(lia))
    as (j & Hj & _ & _ & Hbefore & Hend).
  unfold _post. split.
  - intros Hok. destruct Hend as [[H200 _]|(_ & _ & Hfail)];
      [|by rewrite Hok in Hfail].
    exists j. split_and!; [lia | done |].
    intros k Hk. apply Hbefore. lia.
  - intros (j' & Hj' & H200 & Hretry).
    destruct (lt_eq_lt_dec j j') as [[Hlt|Heq]|Hgt]; [|subst j'|].
    + pose proof (Hretry j Hlt) as Hr.
      pose proof (retryable_not_200 _ Hr) as Hne.
      destruct Hend as [[? _]|(_ & [Hnot|Hlast] & _)]; [done | | lia].
      by rewrite Hr in Hnot.
    + by destruct Hend as [[_ ?]|[? _]].
    + destruct (Hbefore j' ltac:(lia)) as [Hne _]. done.
Qed.

Lemma Qsum_slept backoff j :
  j ≤ 2 →
  (foldr Qplus 0
     (map (λ k, (backoff * inject_Z (Z.of_nat (k + 1)))%Q) (seq 0 j))
   == backoff * inject_Z (Z.of_nat (j * (j + 1) / 2)))%Q.
Proof.
  intros Hj. destruct j as [|[|[|j]]]; [| | |lia]; cbn; ring.
Qed.

(** [push_text] sends nothing in a dry run or without a token; otherwise
    it sends at most three requests and sleeps at most six seconds. *)
Theorem push_text_is_bounded dry_run token respond :
  let run := push_text dry_run token respond in
  posts run ≤ 3
  ∧ (foldr Qplus 0 (slept run) <= 6)%Q
  ∧ (dry_run = true ∨ token = "" → posts run = 0 ∧ outcome run = Ret ())
  ∧ (dry_run = false → token ≠ "" → 1 ≤ posts run).
Proof.
  unfold push_text, _post. change (2 + 1) with 3.
  destruct (post_loop_spec respond 2 2 3 0 ltac:(lia) ltac:(lia))
    as (j & Hj & Hposts & Hslept & _).
  rewrite Nat.sub_0_r in Hposts, Hslept.
  destruct dry_run; cbn [orb].
  { split_and!; [cbn; lia | done | done | done]. }
  case_bool_decide as Htok.
  { split_and!; [cbn; lia | done | done | done]. }
  split_and!.
  - lia.
  - rewrite Hslept, Qsum_slept by lia.
    destruct j as [|[|[|j]]]; [done | done | done | lia].
  - intros [?|?]; done.
  - intros _ _. lia.
Qed.

(** ** Merging configurations *)

Lemma merge_value_dict va vb :
  merge_value (Some (JDict va)) (JDict vb) = JDict (_deep_merge va vb).
Proof.
  cbn [merge_value]. f_equal. unfold _deep_merge.
  revert va. induction vb as [|[k v] vb IH]; intros va; [done|].
  cbn [foldl fst snd]. by rewrite <- IH.
Qed.

Lemma dict_get_set_eq d k v : dict_get (dict_set d k v) k = Some v.
Proof.
  induction d as [|[k' v'] d IH]; cbn.
  - by rewrite decide_True.
  - destruct (decide (k' = k)) as [->|Hne]; cbn.
    + by rewrite decide_True.
    + by rewrite decide_False.
Qed.

Lemma dict_get_set_ne d k k' v :
  k' ≠ k → dict_get (dict_set d k v) k' = dict_get d k'.
Proof.
  intros Hne. induction d as [|[k0 v0] d IH]; cbn.
  - by rewrite decide_False.
  - destruct (decide (k0 = k)) as [->|Hk]; cbn.
    + by rewrite !decide_False by done.
    + destruct (decide (k0 = k')); [done|]. exact IH.
Qed.

Lemma dict_get_None d k : dict_get d k = None ↔ k ∉ d.*1.
Proof.
  induction d as [|[k' v'] d IH]; cbn.
  - split; [intros _; apply not_elem_of_nil | done].
  - rewrite not_elem_of_cons. destruct (decide (k' = k)) as [->|Hne].
    + split; [done | by intros [? _]].
    + rewrite IH. split; [by intros ? | by intros [_ ?]].
Qed.

Lemma dict_set_keys d k v :
  (dict_set d k v).*1 = if decide (k ∈ d.*1) then d.*1 else d.*1 ++ [k].
Proof.
  induction d as [|[k' v'] d IH]; [done|]. cbn.
  destruct (decide (k' = k)) as [->|Hne]; cbn.
  - rewrite decide_True by (by left). done.
  - rewrite IH. destruct (decide (k ∈ d.*1)) as [Hin|Hnin].
    + rewrite decide_True by (by right). done.
    + rewrite decide_False; [done|].
      intros [?|?]%elem_of_cons; done.
Qed.

Lemma dict_set_new d k v : k ∉ d.*1 → dict_set d k v = d ++ [(k, v)].
Proof.
  induction d as [|[k' v'] d IH]; [done|]. cbn.
  intros [Hne Hnin]%not_elem_of_cons.
  rewrite decide_False by done. by rewrite IH.
Qed.

Lemma deep_merge_get a b : ∀ k,
  NoDup b.*1 →
  dict_get (_deep_merge a b) k
  = match dict_get b k with
    | None => dict_get a k
    | Some v => Some (merge_value (dict_get a k) v)
    end.
Proof.
  unfold _deep_merge. revert a.
  induction b as [|[k0 v0] b IH]; intros a k Hnd; [done|].
  cbn in Hnd. apply NoDup_cons in Hnd as [Hk0 Hnd].
  cbn [foldl fst snd dict_get]. rewrite IH by done.
  destruct (decide (k0 = k)) as [->|Hne].
  - apply dict_get_None in Hk0. rewrite Hk0. apply dict_get_set_eq.
  - rewrite !dict_get_set_ne by done. done.
Qed.

(** What [_deep_merge(a, b)] holds under a key: the value of [a] for a
    key [b] does not have; for a key of [b], the merge of the two values
    when both are objects, and the value of [b] otherwise. *)
Theorem deep_merge_lookup a b k :
  NoDup b.*1 →
  dict_get (_deep_merge a b) k
  = match dict_get b k, dict_get a k with
    | None, cur => cur
    | Some (JDict vb), Some (JDict va) => Some (JDict (_deep_merge va vb))
    | Some v, _ => Some v
    end.
Proof.
  intros Hnd. rewrite deep_merge_get by done.
  destruct (dict_get b k) as [v|]; [|done].
  destruct v as [| | | | |vb]; try done.
  destruct (dict_get a k) as [[| | | | |va]|]; try done.
  by rewrite merge_value_dict.
Qed.

Lemma deep_merge_keys a b :
  ∀ k, k ∈ (_deep_merge a b).*1 ↔ k ∈ a.*1 ∨ k ∈ b.*1.
Proof.
  unfold _deep_merge. revert a.
  induction b as [|[k0 v0] b IH]; intros a k; cbn [foldl fst snd].
  - cbn. rewrite elem_of_nil. tauto.
  - rewrite IH, dict_set_keys. cbn. rewrite elem_of_cons.
    destruct (decide (k0 ∈ a.*1)) as [Hin|Hnin].
    + split; [tauto|]. intros [?|[->|?]]; tauto.
    + rewrite elem_of_app, list_elem_of_singleton. tauto.
Qed.

Lemma deep_merge_prefix a b : ∃ extra, (_deep_merge a b).*1 = a.*1 ++ extra.
Proof.
  unfold _deep_merge. revert a.
  induction b as [|[k0 v0] b IH]; intros a; cbn [foldl fst snd].
  - exists []. by rewrite app_nil_r.
  - destruct (IH (dict_set a k0 (merge_value (dict_get a k0) v0)))
      as [extra Hextra].
    rewrite Hextra, dict_set_keys. destruct (decide (k0 ∈ a.*1)).
    + by exists extra.
    + exists (k0 :: extra). by rewrite <- app_assoc.
Qed.

(** [_deep_merge(a, b)] has the keys of [a], in their order, followed by
    the keys only [b] has; merging the empty object on either side
    changes nothing. *)
Theorem deep_merge_keeps_keys a b :
  (∀ k, k ∈ (_deep_merge a b).*1 ↔ k ∈ a.*1 ∨ k ∈ b.*1)
  ∧ (∃ extra, (_deep_merge a b).*1 = a.*1 ++ extra)
  ∧ _deep_merge a [] = a
  ∧ (NoDup b.*1 → _deep_merge [] b = b).
Proof.
  split_and!; [apply deep_merge_keys | apply deep_merge_prefix | done |].
  intros Hnd. unfold _deep_merge.
  enough (∀ out, (∀ k, k ∈ out.*1 → k ∉ b.*1) →
            foldl (λ out item,
                     dict_set out item.1
                       (merge_value (dict_get out item.1) item.2)) out b
            = out ++ b) as Hgen.
  { apply (Hgen []). by intros k ?%elem_of_nil. }
  induction b as [|[k0 v0] b IH]; intros out Hdisj; cbn [foldl fst snd].
  { by rewrite app_nil_r. }
  cbn in Hnd. apply NoDup_cons in Hnd as [Hk0 Hnd].
  assert (Hnew : k0 ∉ out.*1).
  { intros Hin. apply (Hdisj k0 Hin). by left. }
  rewrite (proj2 (dict_get_None out k0) Hnew).
  assert (merge_value None v0 = v0) as -> by (by destruct v0).
  rewrite dict_set_new by done. rewrite IH; [by rewrite <- app_assoc | done |].
  intros k. rewrite fmap_app, elem_of_app. cbn.
  rewrite list_elem_of_singleton. intros [Hin| ->]; [|done].
  intros Hb. apply (Hdisj k Hin). by right.
Qed.

Lemma unique_keys_NoDup d : unique_keys (JDict d) = true → NoDup d.*1.
Proof.
  cbn [unique_keys]. intros [Hnd _]%andb_true_iff.
  by apply bool_decide_eq_true in Hnd.
Qed.

Lemma unique_keys_get d k v :
  unique_keys (JDict d) = true → dict_get d k = Some v →
  unique_keys v = true.
Proof.
  cbn [unique_keys]. intros [_ Hall]%andb_true_iff.
  induction d as [|[k' v'] d IH]; [done|].
  cbn in Hall. apply andb_true_iff in Hall as [Hv' Hall]. cbn.
  destruct (decide (k' = k)); [by intros [= <-] | by apply IH].
Qed.

(** The configuration obtained from a file keeps the defaults of the
    institutions feature for the keys the file does not set, and takes
    the value of the file for the keys it sets: reading one of the three
    keys from the merge with [_DEFAULT] never fails, provided
    [features] and [features.institutions] are objects where the file
    has them. *)
Theorem defaults_survive_the_merge data key :
  unique_keys (JDict data) = true →
  dict_or_absent (dict_path (JDict data) ["features"]) = true →
  dict_or_absent (dict_path (JDict data) ["features"; "institutions"])
  = true →
  key ∈ ["enabled"; "source"; "include_in_push"] →
  dict_path (JDict (_deep_merge _DEFAULT data))
    ["features"; "institutions"; key]
  = match dict_path (JDict data) ["features"; "institutions"; key] with
    | Some v => Some v
    | None => dict_path (JDict _DEFAULT) ["features"; "institutions"; key]
    end
  ∧ is_Some (dict_path (JDict _DEFAULT) ["features"; "institutions"; key]).
Proof.
  intros Huniq Hfeat Hinst Hkey.
  set (dinst := [("enabled", JBool false); ("source", JStr "twse");
                 ("include_in_push", JBool true)]).
  set (dfeat := [("institutions", JDict dinst)]).
  assert (Hd1 : dict_get _DEFAULT "features" = Some (JDict dfeat))
    by reflexivity.
  assert (Hd2 : dict_get dfeat "institutions" = Some (JDict dinst))
    by reflexivity.
  assert (Hd3 : ∃ v, dict_get dinst key = Some v ∧ ∀ vb, v ≠ JDict vb).
  { repeat (apply elem_of_cons in Hkey as [->|Hkey];
            [eexists; split; [reflexivity | done]|]).
    by apply elem_of_nil in Hkey. }
  destruct Hd3 as (vdef & Hd3 & Hleaf).
  assert (Hdefault : dict_path (JDict _DEFAULT)
                       ["features"; "institutions"; key] = Some vdef).
  { cbn [dict_path]. by rewrite Hd1, Hd2, Hd3. }
  split; [|by rewrite Hdefault].
  rewrite Hdefault. cbn [dict_path] in *.
  rewrite (deep_merge_get _DEFAULT data) by (by apply unique_keys_NoDup).
  rewrite Hd1.
  destruct (dict_get data "features") as [vf|] eqn:Hf;
    [|by rewrite Hd2, Hd3].
  pose proof (unique_keys_get _ _ _ Huniq Hf) as Huf.
  destruct vf as [| | | | |feats]; try done.
  rewrite merge_value_dict.
  rewrite (deep_merge_get dfeat feats) by (by apply unique_keys_NoDup).
  rewrite Hd2.
  destruct (dict_get feats "institutions") as [vi|] eqn:Hi;
    [|by rewrite Hd3].
  pose proof (unique_keys_get _ _ _ Huf Hi) as Hui.
  destruct vi as [| | | | |inst]; try done.
  rewrite merge_value_dict.
  rewrite (deep_merge_get dinst inst) by (by apply unique_keys_NoDup).
  rewrite Hd3.
  destruct (dict_get inst key) as [v|]; [|done].
  destruct v as [| | | | |vb]; try done.
  destruct vdef as [| | | | |vd]; try done.
  by destruct (Hleaf vd).
Qed.

(** *** The further theorems at the sample data *)

Lemma no_alert_no_change_witness :
  ∃ sg,
    evaluate default_config entry_feed = Ret (Some sg)
    ∧ fired long_world (transitions default_config "2330.TW" ∅ "" sg
                          long_world) = []
    ∧ transitions default_config "2330.TW" ∅ "" sg long_world = long_world.
Proof.
  eexists. split; [vm_compute; reflexivity|].
  split; [vm_compute; reflexivity|].
  apply (no_alert_no_change default_config "2330.TW" ∅ "" _ long_world).
  vm_compute; reflexivity.
Defined.

Lemma alerts_of_one_invocation_witness :
  ∃ w',
    process_symbol default_config "2330.TW" ∅ weekly_off_feed long_world
    = Ret w'
    ∧ (fired long_world w' = [] ∨ fired long_world w' = [Entry]
       ∨ fired long_world w' = [Reduce] ∨ fired long_world w' = [Exit]
       ∨ fired long_world w' = [Reduce; Exit]).
Proof.
  eexists. split; [vm_compute; reflexivity|].
  apply (alerts_of_one_invocation default_config "2330.TW" ∅
           weekly_off_feed long_world).
  vm_compute; reflexivity.
Defined.

Lemma fired_keys_stay_fired_witness :
  ∃ w',
    process_symbol default_config "2330.TW" ∅ weekly_off_feed reduced_world
    = Ret w'
    ∧ fired reduced_world w' = [Exit]
    ∧ stored_alerted reduced_world "2330.TW" "daily_exit@2024-03-01" = true
    ∧ stored_alerted w' "2330.TW" "daily_exit@2024-03-01" = true.
Proof.
  eexists. split; [vm_compute; reflexivity|].
  split; [vm_compute; reflexivity|].
  split; [vm_compute; reflexivity|].
  apply (fired_keys_stay_fired default_config "2330.TW" ∅ weekly_off_feed
           reduced_world);
    vm_compute; reflexivity.
Defined.

Lemma reduce_fires_witness :
  ∃ sg,
    evaluate default_config reduce_feed = Ret (Some sg)
    ∧ stored_position long_world "2330.TW" = Some "long"
    ∧ exit_cross sg = true
    ∧ stored_alerted long_world "2330.TW" (ex_key sg) = false
    ∧ ∃ w', process_symbol default_config "2330.TW" ∅ reduce_feed
              long_world = Ret w'
        ∧ fired long_world w'
          = Reduce :: (if negb (weekly_ok sg)
                          && negb (stored_alerted long_world "2330.TW"
                                     (full_key sg))
                       then [Exit] else [])
        ∧ stored_alerted w' "2330.TW" (ex_key sg) = true
        ∧ stored_position w' "2330.TW"
          = (if negb (weekly_ok sg)
                && negb (stored_alerted long_world "2330.TW" (full_key sg))
             then Some "flat" else Some "long")
        ∧ persisted default_config w'.
Proof.
  eexists. split; [vm_compute; reflexivity|].
  split; [reflexivity|]. split; [vm_compute; reflexivity|].
  split; [vm_compute; reflexivity|].
  apply (reduce_fires default_config "2330.TW" ∅ reduce_feed _ long_world);
    vm_compute; reflexivity.
Defined.

Lemma symbols_do_not_interfere_witness :
  "2330.TW" ≠ "2317.TW"
  ∧ new_alerts
      (main_step default_config "2330.TW" ∅ long_world weekly_off_feed)
      (main_step default_config "2317.TW" ∅
         (main_step default_config "2330.TW" ∅ long_world weekly_off_feed)
         entry_feed)
    = new_alerts long_world
        (main_step default_config "2317.TW" ∅ long_world entry_feed)
  ∧ mem (main_step default_config "2317.TW" ∅
           (main_step default_config "2330.TW" ∅ long_world weekly_off_feed)
           entry_feed)
    = mem (main_step default_config "2330.TW" ∅
             (main_step default_config "2317.TW" ∅ long_world entry_feed)
             weekly_off_feed).
Proof.
  assert (Hne : "2330.TW" ≠ "2317.TW") by discriminate.
  split; [exact Hne|].
  exact (symbols_do_not_interfere default_config "2330.TW" "2317.TW" ∅ ∅
           weekly_off_feed entry_feed long_world Hne).
Defined.

Lemma batch_isolates_symbols_witness :
  NoDup ["2317.TW"; "2330.TW"]
  ∧ "2330.TW" ∈ ["2317.TW"; "2330.TW"]
  ∧ filter (λ a, a_sym a = "2330.TW")
      (new_alerts empty_world
         (main_loop default_config sample_subs sample_feeds
            ["2317.TW"; "2330.TW"] empty_world))
    = new_alerts empty_world
        (main_body default_config sample_subs sample_feeds "2330.TW"
           empty_world)
  ∧ mem (main_loop default_config sample_subs sample_feeds
           ["2317.TW"; "2330.TW"] empty_world) !! "2330.TW"
    = mem (main_body default_config sample_subs sample_feeds "2330.TW"
             empty_world) !! "2330.TW".
Proof.
  assert (Hnd : NoDup ["2317.TW"; "2330.TW"])
    by (apply (bool_decide_unpack _); vm_compute; exact I).
  assert (Hin : "2330.TW" ∈ ["2317.TW"; "2330.TW"])
    by (apply (bool_decide_unpack _); vm_compute; exact I).
  split; [exact Hnd|]. split; [exact Hin|].
  exact (batch_isolates_symbols default_config sample_subs sample_feeds
           ["2317.TW"; "2330.TW"] "2330.TW" empty_world Hnd Hin).
Defined.

Lemma kd_warmup_rows_are_dropped_witness :
  ∃ rows,
    compute_kd_recursive flat_tail 9 (ALPHA default_config) = Ret rows
    ∧ (∀ i, i + 1 < 9 → i < length flat_tail →
            K <$> rows !! i = Some None ∧ D <$> rows !! i = Some None)
    ∧ length (dropna rows) + (9 - 1) `min` length flat_tail
      ≤ length flat_tail
    ∧ (length flat_tail < 9 → dropna rows = []).
Proof.
  eexists. split; [vm_compute; reflexivity|].
  apply (kd_warmup_rows_are_dropped flat_tail 9 (ALPHA default_config)).
  vm_compute; reflexivity.
Defined.

Lemma signals_are_defined_witness :
  ∃ sg,
    evaluate default_config entry_feed = Ret (Some sg)
    ∧ isnan (k_prev sg) = false ∧ isnan (dprev_prev sg) = false
    ∧ isnan (k_last sg) = false ∧ isnan (d_last_d sg) = false
    ∧ isnan (w_k sg) = false ∧ isnan (w_d sg) = false.
Proof.
  eexists. split; [vm_compute; reflexivity|].
  apply (signals_are_defined default_config entry_feed).
  vm_compute; reflexivity.
Defined.


Lemma kd_between_0_and_100_witness :
  ∃ rows r,
    forallb bar_in_range flat_then_move = true
    ∧ compute_kd_recursive flat_then_move 9 (ALPHA default_config) = Ret rows
    ∧ rows !! 18 = Some r
    ∧ (∀ k, K r = Some k → (0 <= k <= 100)%Q)
    ∧ (∀ d, D r = Some d → (0 <= d <= 100)%Q).
Proof.
  eexists. eexists. split; [vm_compute; reflexivity|].
  split; [vm_compute; reflexivity|]. split; [vm_compute; reflexivity|].
  eapply (kd_between_0_and_100 flat_then_move 9 (ALPHA default_config) _ 18);
    vm_compute; reflexivity.
Defined.

Lemma kd_is_causal_witness :
  ∃ rows rows',
    compute_kd_recursive flat_tail 9 (ALPHA default_config) = Ret rows
    ∧ compute_kd_recursive (flat_tail ++ [sample_bar "d" 12 9 10]) 9
        (ALPHA default_config) = Ret rows'
    ∧ take (length flat_tail) rows' = rows
    ∧ drop (length flat_tail) (map bar rows') = [sample_bar "d" 12 9 10].
Proof.
  eexists. eexists. split; [vm_compute; reflexivity|].
  split; [vm_compute; reflexivity|].
  apply (kd_is_causal flat_tail [sample_bar "d" 12 9 10] 9
           (ALPHA default_config)); vm_compute; reflexivity.
Defined.

Lemma compute_kd_frame_witness :
  (0 < ALPHA default_config)%Q ∧ (ALPHA default_config <= 1)%Q
  ∧ ∃ rows, compute_kd_recursive ramp 9 (ALPHA default_config) = Ret rows
            ∧ length rows = length ramp ∧ map bar rows = ramp.
Proof.
  assert (Hpos : (0 < ALPHA default_config)%Q) by reflexivity.
  assert (Hle : (ALPHA default_config <= 1)%Q) by discriminate.
  split; [exact Hpos|]. split; [exact Hle|].
  destruct (compute_kd_frame ramp 9 (ALPHA default_config)) as [Hvalid _].
  exact (Hvalid (conj Hpos Hle)).
Defined.

Lemma in_progress_daily_bar_is_ignored_witness :
  dl_daily midday_feed = Ret (ramp ++ [sample_bar "2024-03-04" 200 100 150])
  ∧ ramp ≠ []
  ∧ evaluate default_config midday_feed
    = evaluate default_config weekly_off_feed.
Proof.
  assert (Hne : ramp ≠ []) by discriminate.
  split; [reflexivity|]. split; [exact Hne|].
  apply (in_progress_daily_bar_is_ignored default_config midday_feed
           weekly_off_feed ramp (sample_bar "2024-03-04" 200 100 150));
    [reflexivity | exact Hne | reflexivity | right; cbn; lia | reflexivity
    | left; cbn; lia | reflexivity].
Defined.

Lemma open_weekly_bar_is_not_read_witness :
  evaluate default_config
    {| dl_daily := Ret spike;
       dl_weekly := Ret (spike ++ [sample_bar "2024-03-08" 1 1 1]);
       local_now := evening; inst_line := "" |}
  = evaluate default_config entry_feed.
Proof.
  apply (open_weekly_bar_is_not_read default_config entry_feed _ spike
           (sample_bar "2024-03-08" 106 104 105)
           (sample_bar "2024-03-08" 1 1 1)); reflexivity.
Defined.

Lemma entry_needs_history_witness :
  ∃ w',
    process_symbol default_config "2330.TW" ∅ thin_feed empty_world = Ret w'
    ∧ length (last_completed_daily (local_now thin_feed) (take 25 ramp)) + 1
      < K_PERIOD default_config + DAILY_MA default_config
    ∧ ¬ length (last_completed_daily (local_now thin_feed) (take 25 ramp))
        < need_d default_config
    ∧ Entry ∉ fired empty_world w'.
Proof.
  eexists. split; [vm_compute; reflexivity|].
  assert (Hshort :
    length (last_completed_daily (local_now thin_feed) (take 25 ramp)) + 1
    < K_PERIOD default_config + DAILY_MA default_config)
    by (vm_compute; lia).
  split; [exact Hshort|]. split; [vm_compute; lia|].
  apply (entry_needs_history default_config "2330.TW" ∅ thin_feed
           empty_world _ (take 25 ramp) ramp);
    [vm_compute; reflexivity | reflexivity | reflexivity | left; exact Hshort].
Defined.


Lemma alerts_reach_the_subscribers_witness :
  ∃ a,
    a ∈ new_alerts empty_world
          (main default_config sample_data sample_feeds empty_world)
    ∧ a_sym a = "2330.TW"
    ∧ (∀ rid, rid ∈ a_to a
              ↔ ∃ syms, (rid, syms) ∈ sample_data ∧ a_sym a ∈ syms)
    ∧ a_to a ≠ ∅.
Proof.
  eexists.
  assert (Hin : ∀ a,
    new_alerts empty_world
      (main default_config sample_data sample_feeds empty_world) !! 0
    = Some a →
    a ∈ new_alerts empty_world
          (main default_config sample_data sample_feeds empty_world))
    by (intros a; apply list_elem_of_lookup_2).
  split; [apply Hin; vm_compute; reflexivity|].
  split; [reflexivity|].
  apply (alerts_reach_the_subscribers default_config sample_data
           sample_feeds empty_world).
  apply Hin. vm_compute; reflexivity.
Defined.

Lemma unknown_position_is_inert_witness :
  stored_position stray_world "2330.TW" ≠ Some "flat"
  ∧ stored_position stray_world "2330.TW" ≠ Some "long"
  ∧ process_symbol default_config "2330.TW" ∅ entry_feed stray_world
    = Ret stray_world.
Proof.
  assert (Hflat : stored_position stray_world "2330.TW" ≠ Some "flat")
    by (vm_compute; discriminate).
  assert (Hlong : stored_position stray_world "2330.TW" ≠ Some "long")
    by (vm_compute; discriminate).
  split; [exact Hflat|]. split; [exact Hlong|].
  assert (Hret : ∃ w', process_symbol default_config "2330.TW" ∅ entry_feed
                         stray_world = Ret w')
    by (eexists; vm_compute; reflexivity).
  destruct Hret as [w' Hret]. rewrite Hret. f_equal.
  exact (unknown_position_is_inert default_config "2330.TW" ∅ entry_feed
           stray_world w' Hflat Hlong Hret).
Defined.

Lemma post_succeeds_iff_witness :
  outcome (_post busy_twice 2 2) = Ret ()
  ∧ ∃ j, j ≤ 2 ∧ status_code (busy_twice j) = 200
         ∧ ∀ k, k < j → retryable (status_code (busy_twice k)) = true.
Proof.
  assert (Hok : outcome (_post busy_twice 2 2) = Ret ()) by reflexivity.
  split; [exact Hok|].
  exact (proj1 (post_succeeds_iff busy_twice 2 2) Hok).
Defined.

Lemma deep_merge_lookup_witness :
  NoDup sample_config.*1
  ∧ dict_get (_deep_merge _DEFAULT sample_config) "features"
    = Some (JDict
              (_deep_merge
                 [("institutions",
                   JDict [("enabled", JBool false); ("source", JStr "twse");
                          ("include_in_push", JBool true)])]
                 [("institutions", JDict [("enabled", JBool true)])])).
Proof.
  assert (Hnd : NoDup sample_config.*1)
    by (apply (bool_decide_unpack _); vm_compute; exact I).
  split; [exact Hnd|].
  exact (deep_merge_lookup _DEFAULT sample_config "features" Hnd).
Defined.

Lemma defaults_survive_the_merge_witness :
  unique_keys (JDict sample_config) = true
  ∧ dict_path (JDict (_deep_merge _DEFAULT sample_config))
      ["features"; "institutions"; "source"]
    = Some (JStr "twse")
  ∧ dict_path (JDict (_deep_merge _DEFAULT sample_config))
      ["features"; "institutions"; "enabled"]
    = Some (JBool true).
Proof.
  assert (Huniq : unique_keys (JDict sample_config) = true)
    by (vm_compute; reflexivity).
  split; [exact Huniq|].
  assert (Hsource : "source" ∈ ["enabled"; "source"; "include_in_push"])
    by (apply (bool_decide_unpack _); vm_compute; exact I).
  assert (Henabled : "enabled" ∈ ["enabled"; "source"; "include_in_push"])
    by (apply (bool_decide_unpack _); vm_compute; exact I).
  split.
  - exact (proj1 (defaults_survive_the_merge sample_config "source" Huniq
                    eq_refl eq_refl Hsource)).
  - exact (proj1 (defaults_survive_the_merge sample_config "enabled" Huniq
                    eq_refl eq_refl Henabled)).
Defined.
